(** * rewarped: the differentiable step node, its environment loop and
      the MPM material table

    A shallow embedding of

      - [rewarped/warp_mpm_sga/sim/materials.py]  ([get_material], [get_lame]),
      - [rewarped/autograd.py]  ([assign_tensors], [assign_adjoints],
        [UpdateFunction.forward], [UpdateFunction.backward]),
      - [rewarped/warp_env.py]  ([WarpEnv.do_physics_step] and its call of
        [UpdateFunction]).

    Python code is written in a state-and-exception monad.  Device buffers
    live in one store addressed by location; a torch tensor obtained with
    [wp.to_torch] aliases the location of the array it views, and [clone]
    allocates.  What is not among the sources is a parameter of the
    development: the kernel runtime (what a physics update launches, what
    the tape's reverse pass launches, what a kernel does to memory), the
    constructors [model.state()] and [model.control()], and the shape of a
    torch tensor. *)

From Stdlib Require Import Floats.
From stdpp Require Import base option list gmap strings.

(** ** Python conventions *)

Module py.

(** The exception classes the modelled code can raise.  [RuntimeError]
    stands for any failure reported by the kernel runtime. *)
Inductive exn :=
| KeyError | AttributeError | AssertionError | IndexError
| TypeError | ValueError | ZeroDivisionError | RuntimeError.

#[global] Instance exn_eq_dec : EqDecision exn.
Proof. solve_decision. Defined.

Inductive result (A : Type) :=
| Ok (a : A)
| Raise (e : exn).
Arguments Ok {A} a.
Arguments Raise {A} e.

Definition is_Ok {A} (r : result A) : bool :=
  match r with
  | Ok _ => true
  | Raise _ => false
  end.

(** A computation over a mutable state [S]: it ends with a value or with
    an exception, and the state changes made before the exception stay. *)
Definition M (S A : Type) : Type := S → result A * S.

Definition ret {S A} (a : A) : M S A := λ s, (Ok a, s).
Definition raise {S A} (e : exn) : M S A := λ s, (Raise e, s).
Definition bind {S A B} (m : M S A) (k : A → M S B) : M S B :=
  λ s, match m s with
       | (Ok a, s1) => k a s1
       | (Raise e, s1) => (Raise e, s1)
       end.

Definition get {S} : M S S := λ s, (Ok s, s).
Definition modify {S} (f : S → S) : M S unit := λ s, (Ok tt, f s).

(** [try: body finally: fin]. *)
Definition try_finally {S A} (body : M S A) (fin : M S unit) : M S A :=
  λ s, let '(r, s1) := body s in
       match fin s1 with
       | (Ok _, s2) => (r, s2)
       | (Raise e, s2) => (Raise e, s2)
       end.

(** [try: body except KeyError: handler]. *)
Definition try_except_KeyError {S A} (body handler : M S A) : M S A :=
  λ s, match body s with
       | (Raise KeyError, s1) => handler s1
       | other => other
       end.

(** [assert c]. *)
Definition assert {S} (c : bool) : M S unit :=
  if c then ret tt else raise AssertionError.

(** [if c: body]. *)
Definition when {S} (c : bool) (body : M S unit) : M S unit :=
  if c then body else ret tt.

(** A block with one local variable that an exception handler still reads:
    the state is paired with the variable's current value. *)
Definition with_local {S L A} (init : L) (c : M (S * L) A) : M S A :=
  λ s, let '(r, (s1, _)) := c (s, init) in (r, s1).
Definition lift_outer {S L A} (c : M S A) : M (S * L) A :=
  λ '(s, l), let '(r, s1) := c s in (r, (s1, l)).
Definition set_local {S L} (v : L) : M (S * L) unit :=
  modify (λ '(s, _), (s, v)).
Definition get_local {S L} : M (S * L) L :=
  λ '(s, l), (Ok l, (s, l)).

(** [wp c Q s]: running [c] from [s] ends in an outcome and a state that
    satisfy [Q]. *)
Definition wp {S A} (c : M S A) (Q : result A → S → Prop) (s : S) : Prop :=
  Q (c s).1 (c s).2.

(** [l[a:b]] for [0 <= a <= b]; a slice never raises. *)
Definition slice {A} (a b : nat) (l : list A) : list A := take (b - a) (drop a l).

(** [l[i]]. *)
Definition index {S A} (l : list A) (i : nat) : M S A :=
  match l !! i with
  | Some x => ret x
  | None => raise IndexError
  end.

End py.

Export py.

Declare Scope py_scope.
Delimit Scope py_scope with py.
Notation "'let!' x := m 'in' k" := (bind m (λ x, k))
  (at level 10, x name, m at level 100, k at level 200) : py_scope.
Notation "'let!' ' p := m 'in' k" := (bind m (λ x, match x with p => k end))
  (at level 10, p strict pattern, m at level 100, k at level 200) : py_scope.
Notation "'run!' m 'in' k" := (bind m (λ _, k))
  (at level 10, m at level 100, k at level 200) : py_scope.
Open Scope py_scope.

(** [for x in l: body x]. *)
Fixpoint for_each {S A} (l : list A) (body : A → M S unit) : M S unit :=
  match l with
  | [] => ret tt
  | x :: l' => run! body x in for_each l' body
  end.

(** [out = []; for x in l: out.append(body x)]. *)
Fixpoint for_collect {S A B} (l : list A) (body : A → M S B) : M S (list B) :=
  match l with
  | [] => ret []
  | x :: l' => let! y := body x in let! ys := for_collect l' body in ret (y :: ys)
  end.

(** ** warp_mpm_sga/sim/materials.py *)

Module materials.

Definition MATL_PLASTICINE : Z := 0.
Definition MATL_WATER : Z := 1.

(** The struct [MPMMaterial]; a float field that was never assigned is
    [None]. *)
Record MPMMaterial := {
  name : Z;
  E : option float;
  nu : option float;
  yield_stress : option float;
  mu : option float;
  lam : option float;
}.

(** [MPMMaterial()]. *)
Definition MPMMaterial_new : MPMMaterial :=
  {| name := 0; E := None; nu := None; yield_stress := None;
     mu := None; lam := None |}.

(** Python's [a / b] on floats: a zero divisor raises. *)
Definition truediv (a b : float) : result float :=
  if PrimFloat.eqb b 0 then Raise ZeroDivisionError else Ok (a / b)%float.

(** An operand that is [None] makes the arithmetic raise [TypeError]. *)
Definition get_lame (E nu : option float) : result (float * float) :=
  match nu with
  | None => Raise TypeError
  | Some nu =>
      match E with
      | None => Raise TypeError
      | Some E =>
          match truediv E (2 * (1 + nu))%float with
          | Raise e => Raise e
          | Ok mu =>
              match truediv (E * nu)%float ((1 + nu) * (1 - 2 * nu))%float with
              | Raise e => Raise e
              | Ok lam => Ok (mu, lam)
              end
          end
      end
  end.

Definition set_name (v : Z) (m : MPMMaterial) : MPMMaterial :=
  {| name := v; E := E m; nu := nu m; yield_stress := yield_stress m;
     mu := mu m; lam := lam m |}.
Definition set_E (v : option float) (m : MPMMaterial) : MPMMaterial :=
  {| name := name m; E := v; nu := nu m; yield_stress := yield_stress m;
     mu := mu m; lam := lam m |}.
Definition set_nu (v : option float) (m : MPMMaterial) : MPMMaterial :=
  {| name := name m; E := E m; nu := v; yield_stress := yield_stress m;
     mu := mu m; lam := lam m |}.
Definition set_yield_stress (v : option float) (m : MPMMaterial) : MPMMaterial :=
  {| name := name m; E := E m; nu := nu m; yield_stress := v;
     mu := mu m; lam := lam m |}.
Definition set_mu_lam (v : float * float) (m : MPMMaterial) : MPMMaterial :=
  {| name := name m; E := E m; nu := nu m; yield_stress := yield_stress m;
     mu := Some (fst v); lam := Some (snd v) |}.

Definition get_material (name : string) (E nu yield_stress : option float)
  : result MPMMaterial :=
  let material := MPMMaterial_new in
  if String.eqb name "plasticine" then
    let material := set_name MATL_PLASTICINE material in
    let material := set_E E material in
    let material := set_nu nu material in
    let material := set_yield_stress yield_stress material in
    match get_lame E nu with
    | Raise e => Raise e
    | Ok mu_lam => Ok (set_mu_lam mu_lam material)
    end
  else if String.eqb name "water" then
    let material := set_name MATL_WATER material in
    let material := set_E E material in
    let material := set_nu nu material in
    match get_lame E nu with
    | Raise e => Raise e
    | Ok mu_lam => Ok (set_mu_lam mu_lam material)
    end
  else Raise ValueError.

End materials.

(** ** autograd.py *)

Module autograd.

(** *** Buffers, arrays and objects *)

(** A buffer address.  The store maps an address to the flattened
    contents of the buffer. *)
Abbreviation loc := nat (only parsing).
Abbreviation tensor := (list float) (only parsing).
Abbreviation memory := (gmap nat (list float)) (only parsing).

(** A [wp.array]: its buffer and, when it requires gradients, the buffer
    of its [.grad] array.  The array's identity (the key it has in
    [tape.gradients]) is its buffer address. *)
Record wp_array := { ptr : loc; grad : option loc }.

(** An attribute of a State, Control or Model object. *)
Inductive attr :=
| AttrArray (a : wp_array)
| AttrOther.

(** [model.shape_geo_src] entries: [Mesh points] is a [wp.sim.Mesh] whose
    [mesh.points] is the given array. *)
Inductive Geo :=
| Mesh (points : wp_array)
| OtherGeo.

(** A State or Control object is its attribute dictionary, [vars(x)]. *)
Abbreviation pyobj := (gmap string attr) (only parsing).

Record Model := {
  model_vars : gmap string attr;
  shape_geo_src : list Geo;
}.

(** [getattr(x, name)]. *)
Definition getattr {S} (x : pyobj) (name : string) : M S attr :=
  match x !! name with
  | Some v => ret v
  | None => raise AttributeError
  end.

(** Using an attribute as a [wp.array] ([.assign], [.grad], [.dtype],
    [wp.to_torch]): anything else has no such member. *)
Definition as_array {S} (v : attr) : M S wp_array :=
  match v with
  | AttrArray a => ret a
  | AttrOther => raise AttributeError
  end.

(** [a.grad], used as an array. *)
Definition grad_array {S} (a : wp_array) : M S loc :=
  match grad a with
  | Some g => ret g
  | None => raise AttributeError
  end.

(** [wp.to_torch(a)] and [wp.from_torch(t)] are views: same buffer. *)
Definition to_torch (a : loc) : loc := a.
Definition from_torch (t : loc) : loc := t.

(** Reading or writing a buffer that does not exist is a runtime error. *)
Definition read (l : loc) : M memory tensor :=
  λ m, match m !! l with
       | Some v => (Ok v, m)
       | None => (Raise RuntimeError, m)
       end.

Definition write (l : loc) (v : tensor) : M memory unit :=
  λ m, match m !! l with
       | Some _ => (Ok tt, <[l := v]> m)
       | None => (Raise RuntimeError, m)
       end.

(** [dst.assign(src)]: copy the contents of [src] into the buffer [dst]. *)
Definition assign (dst src : loc) : M memory unit :=
  let! v := read src in write dst v.

(** A new buffer holding [v]. *)
Definition alloc (v : tensor) : M memory loc :=
  λ m, let l := fresh (dom m) in (Ok l, <[l := v]> m).

(** [t.clone()]: a new buffer with the same contents. *)
Definition clone (t : loc) : M memory loc :=
  let! v := read t in alloc v.

(** An elementwise update of a buffer in place ([t /= r], [g.zero_()],
    [torch.nan_to_num_]). *)
Definition update_inplace (f : float → float) (t : loc) : M memory unit :=
  let! v := read t in write t (f <$> v).

(** An elementwise operation returning a new tensor ([torch.nan_to_num],
    [torch.clamp]). *)
Definition map_new (f : float → float) (t : loc) : M memory loc :=
  let! v := read t in alloc (f <$> v).

(** *** assign_tensors, assign_adjoints *)

Definition assign_tensors (x x_out : pyobj) (names : list string)
    (tensors : list loc) : M memory unit :=
  run! for_each (map_to_list x) (λ '(name, attr),
         if bool_decide (name ∈ names) then ret tt
         else match attr with
              | AttrArray a =>
                  let! wp_array := getattr x_out name in
                  let! wp_array := as_array wp_array in
                  assign (ptr wp_array) (ptr a)
              | AttrOther => ret tt
              end) in
  for_each (zip names tensors) (λ '(name, tensor),
    let! wp_array := getattr x_out name in
    let! wp_array := as_array wp_array in
    assign (ptr wp_array) (from_torch tensor)).

Definition assign_adjoints (x : pyobj) (names : list string)
    (adj_tensors : list loc) : M memory unit :=
  for_each (zip names adj_tensors) (λ '(name, adj_tensor),
    let! wp_array := getattr x name in
    let! wp_array := as_array wp_array in
    let! g := grad_array wp_array in
    assign g (from_torch adj_tensor)).


(** *** The kernel runtime, the tape and the integrator's graph cache *)

(** [update_params = (tape, integrator, model, use_graph_capture,
    synchronize)].  A tape object is named by its identifier; there is one
    integrator, kept in the world below. *)
Record UpdateParams := {
  tape : option nat;
  model : Model;
  use_graph_capture : bool;
  synchronize : bool;
}.

(** [sim_params = (sim_substeps, sim_dt, kinematic_fk, eval_ik)]. *)
Record SimParams := {
  sim_substeps : nat;
  sim_dt : float;
  kinematic_fk : bool;
  eval_ik : bool;
}.

(** [states = (state_in, states_mid, state_out)]. *)
Abbreviation States := (gmap string attr * list (gmap string attr) * gmap string attr)%type
  (only parsing).

(** The arguments of one [sim_update(update_params, sim_params, states,
    control)] call. *)
Record SimCall := {
  call_update_params : UpdateParams;
  call_sim_params : SimParams;
  call_states : States;
  call_control : gmap string attr;
}.

(** A [wp.Tape]: the launches it recorded and the dictionary
    [tape.gradients] from an array to its gradient array. *)
Record Tape (K : Type) := {
  launches : list K;
  gradients : gmap nat nat;
}.
Arguments launches {K} _.
Arguments gradients {K} _.

(** [wp.Tape()]. *)
Definition Tape_new {K} : Tape K := {| launches := []; gradients := ∅ |}.

(** What is not in the repository's sources: the kernels, what one kernel
    does to device memory, and the host side of [with tape: sim_update(..)]
    ([rewarped/warp_utils.py]) and of [tape.backward()]: whether it raises,
    the tape it leaves, the kernels it launched on the stream. *)
Class Runtime := {
  Kernel : Type;
  exec_kernel : Kernel → memory → memory;
  sim_update_run : SimCall → Tape Kernel → memory → option exn * Tape Kernel * list Kernel;
  tape_backward_run : Tape Kernel → memory → option exn * Tape Kernel * list Kernel;
}.

(** A captured graph is the sequence of kernels recorded on the stream. *)
Abbreviation Graph := (list Kernel) (only parsing).

(** The two attributes the code keeps on the integrator. *)
Record Integrator `{Runtime} := {
  update_graph : option Graph;
  bwd_update_graph : option Graph;
}.

(** Calls into the runtime, in program order. *)
Inductive Event `{Runtime} :=
| EvSynchronize
| EvCaptureBegin
| EvCaptureEnd
| EvCaptureLaunch (g : Graph)
| EvSimUpdate (c : SimCall)
| EvTapeBackward (t : nat).

Record World `{Runtime} := {
  mem : memory;
  tapes : gmap nat (Tape Kernel);
  integrator : Integrator;
  (** [Some ks] while the stream is capturing: kernels are recorded, not run. *)
  stream_capture : option (list Kernel);
  trace : list Event;
  stdout : list string;
}.

Section runtime_ops.
Context `{R : Runtime}.

Definition set_mem (m : memory) (w : World) : World :=
  {| mem := m; tapes := tapes w; integrator := integrator w;
     stream_capture := stream_capture w; trace := trace w; stdout := stdout w |}.
Definition set_tapes (t : gmap nat (Tape Kernel)) (w : World) : World :=
  {| mem := mem w; tapes := t; integrator := integrator w;
     stream_capture := stream_capture w; trace := trace w; stdout := stdout w |}.
Definition set_integrator (i : Integrator) (w : World) : World :=
  {| mem := mem w; tapes := tapes w; integrator := i;
     stream_capture := stream_capture w; trace := trace w; stdout := stdout w |}.
Definition set_stream_capture (c : option (list Kernel)) (w : World) : World :=
  {| mem := mem w; tapes := tapes w; integrator := integrator w;
     stream_capture := c; trace := trace w; stdout := stdout w |}.
Definition log (e : Event) (w : World) : World :=
  {| mem := mem w; tapes := tapes w; integrator := integrator w;
     stream_capture := stream_capture w; trace := trace w ++ [e]; stdout := stdout w |}.
Definition set_stdout (out : list string) (w : World) : World :=
  {| mem := mem w; tapes := tapes w; integrator := integrator w;
     stream_capture := stream_capture w; trace := trace w; stdout := out |}.

(** [print(line)]. *)
Definition print (line : string) : M World unit :=
  modify (λ w, set_stdout (stdout w ++ [line]) w).

(** Code that only copies between buffers runs on the memory component. *)
Definition lift_mem {A} (c : M memory A) : M World A :=
  λ w, let '(r, m) := c (mem w) in (r, set_mem m w).

(** The same for a block with a local variable. *)
Definition lift_mem_local {L A} (c : M (memory * L) A) : M (World * L) A :=
  λ '(w, l), let '(r, (m, l1)) := c (mem w, l) in (r, (set_mem m w, l1)).

Definition the_tape (w : World) (t : nat) : Tape Kernel := default Tape_new (tapes w !! t).

(** Kernels put on the stream: recorded while capturing, run otherwise. *)
Definition issue (ks : list Kernel) (w : World) : World :=
  match stream_capture w with
  | Some rec => set_stream_capture (Some (rec ++ ks)) w
  | None => set_mem (foldl (λ m k, exec_kernel k m) (mem w) ks) w
  end.

Definition outcome (err : option exn) : result unit :=
  match err with
  | None => Ok tt
  | Some e => Raise e
  end.

(** [wp.synchronize_device()]. *)
Definition synchronize_device : M World unit := modify (log EvSynchronize).

(** [wp.capture_begin(force_module_load=False)]. *)
Definition capture_begin : M World unit :=
  modify (λ w, set_stream_capture (Some []) (log EvCaptureBegin w)).

(** [wp.capture_end()]: the graph of what was recorded.  It is taken to
    return: the exceptions of the model are raised on the host, by the code
    of the physics update or of the reverse pass, and leave the stream
    capture itself intact. *)
Definition capture_end : M World Graph :=
  λ w, (Ok (default [] (stream_capture w)),
        set_stream_capture None (log EvCaptureEnd w)).

(** [wp.capture_launch(graph)]; [None] has no device to launch on. *)
Definition capture_launch (graph : option Graph) : M World unit :=
  match graph with
  | None => raise AttributeError
  | Some g => modify (λ w, issue g (log (EvCaptureLaunch g) w))
  end.

(** [tape = wp.Tape()]. *)
Definition Tape_alloc : M World nat :=
  λ w, let t := fresh (dom (tapes w)) in (Ok t, set_tapes (<[t := Tape_new]> (tapes w)) w).

(** [with tape: sim_update(update_params, sim_params, states, control)]. *)
Definition sim_update (update_params : UpdateParams) (sim_params : SimParams)
    (states : States) (control : gmap string attr) : M World unit :=
  match tape update_params with
  | None => raise AttributeError
  | Some t => λ w,
      let c := {| call_update_params := update_params; call_sim_params := sim_params;
                  call_states := states; call_control := control |} in
      let '(err, tp, ks) := sim_update_run c (the_tape w t) (mem w) in
      (outcome err, issue ks (set_tapes (<[t := tp]> (tapes w)) (log (EvSimUpdate c) w)))
  end.

(** [tape.backward()]. *)
Definition Tape_backward (t : nat) : M World unit :=
  λ w, let '(err, tp, ks) := tape_backward_run (the_tape w t) (mem w) in
       (outcome err, issue ks (set_tapes (<[t := tp]> (tapes w)) (log (EvTapeBackward t) w))).

(** [tape.zero()]: every gradient array the tape knows is zeroed in place. *)
Definition Tape_zero (t : nat) : M World unit :=
  λ w, lift_mem (for_each (map_to_list (gradients (the_tape w t)))
                   (λ '(_, g), update_inplace (λ _, 0%float) g)) w.

(** [integrator.update_graph = g], [integrator.bwd_update_graph = g]. *)
Definition set_update_graph (g : Graph) : M World unit :=
  modify (λ w, set_integrator {| update_graph := Some g;
                                 bwd_update_graph := bwd_update_graph (integrator w) |} w).
Definition set_bwd_update_graph (g : Graph) : M World unit :=
  modify (λ w, set_integrator {| update_graph := update_graph (integrator w);
                                 bwd_update_graph := Some g |} w).

End runtime_ops.

(** *** UpdateFunction *)

(** What [forward] stores on [ctx] for the backward pass. *)
Record Ctx := {
  ctx_update_params : UpdateParams;
  ctx_sim_params : SimParams;
  ctx_states : States;
  ctx_control : gmap string attr;
  ctx_states_bwd : States;
  ctx_control_bwd : gmap string attr;
  ctx_state_tensors_names : list string;
  ctx_model_tensors_names : list string;
  ctx_control_tensors_names : list string;
  ctx_state_tensors : list loc;
  ctx_model_tensors : list loc;
  ctx_control_tensors : list loc;
  ctx_mesh_tensors : list loc;
}.

Definition set_tape (t : nat) (p : UpdateParams) : UpdateParams :=
  {| tape := Some t; model := model p;
     use_graph_capture := use_graph_capture p; synchronize := synchronize p |}.

Definition is_None {A} (o : option A) : bool :=
  match o with
  | None => true
  | Some _ => false
  end.

(** [for name, tensor in zip(model_tensors_names, model_tensors)]: the
    minimal assignment of tensors to the model. *)
Definition assign_model_tensors (model : Model) (model_tensors_names : list string)
    (model_tensors : list loc) : M memory unit :=
  for_each (zip model_tensors_names model_tensors) (λ '(name, tensor),
    let! wp_array := getattr (model_vars model) name in
    let! wp_array := as_array wp_array in
    assign (ptr wp_array) (from_torch tensor)).

(** [mesh_idx = 0; for geo in model.shape_geo_src: if isinstance(geo,
    wp.sim.Mesh): geo.mesh.points.assign(mesh_tensors[mesh_idx]);
    mesh_idx += 1]. *)
Fixpoint assign_mesh_points (geos : list Geo) (mesh_tensors : list loc)
    (mesh_idx : nat) : M memory unit :=
  match geos with
  | [] => ret tt
  | Mesh points :: geos' =>
      let! t := index mesh_tensors mesh_idx in
      run! assign (ptr points) (from_torch t) in
      assign_mesh_points geos' mesh_tensors (S mesh_idx)
  | OtherGeo :: geos' => assign_mesh_points geos' mesh_tensors mesh_idx
  end.

(** The same loop of [backward], on [geo.mesh.points.grad]. *)
Fixpoint assign_mesh_grads (geos : list Geo) (adj_mesh_tensors : list loc)
    (mesh_idx : nat) : M memory unit :=
  match geos with
  | [] => ret tt
  | Mesh points :: geos' =>
      let! g := grad_array points in
      let! t := index adj_mesh_tensors mesh_idx in
      run! assign g (from_torch t) in
      assign_mesh_grads geos' adj_mesh_tensors (S mesh_idx)
  | OtherGeo :: geos' => assign_mesh_grads geos' adj_mesh_tensors mesh_idx
  end.

(** [out_tensor = wp.to_torch(getattr(x, name)); if use_graph_capture:
    out_tensor = out_tensor.clone()]. *)
Definition output_tensor (use_graph_capture : bool) (x : gmap string attr)
    (name : string) : M memory loc :=
  let! a := getattr x name in
  let! a := as_array a in
  let out_tensor := to_torch (ptr a) in
  if use_graph_capture then clone out_tensor else ret out_tensor.

Section UpdateFunction.
Context `{R : Runtime}.

(** Lines 92 to 111 of [forward], run when [integrator.update_graph] is
    [None]: the two captures.  ([wp.ScopedDevice] and the torch stream
    only select where the work goes.) *)
Definition capture_graphs (update_params : UpdateParams) (sim_params : SimParams)
    (states_bwd : States) (control_bwd : gmap string attr) (tape : nat) : M World unit :=
  let! w := get in
  run! assert (is_None (bwd_update_graph (integrator w))) in
  run! capture_begin in
  run! try_finally
         (sim_update update_params sim_params states_bwd control_bwd)
         (let! g := capture_end in set_update_graph g) in
  run! capture_begin in
  try_finally
    (Tape_backward tape)
    (let! g := capture_end in set_bwd_update_graph g).

Definition forward (update_params : UpdateParams) (sim_params : SimParams)
    (states : States) (control : gmap string attr)
    (states_bwd : States) (control_bwd : gmap string attr)
    (state_tensors_names model_tensors_names control_tensors_names : list string)
    (tensors : list loc) : M World (Ctx * list loc) :=
  let model := model update_params in
  let use_graph_capture := use_graph_capture update_params in
  let synchronize := synchronize update_params in
  let '(state_in, states_mid, state_out) := states in
  let '(state_in_bwd, states_mid_bwd, state_out_bwd) := states_bwd in
  let num_state := length state_tensors_names in
  let num_model := length model_tensors_names in
  let num_control := length control_tensors_names in
  let state_tensors := slice 0 num_state tensors in
  let model_tensors := slice num_state (num_state + num_model) tensors in
  let control_tensors :=
    slice (num_state + num_model) (num_state + num_model + num_control) tensors in
  let mesh_tensors := drop (num_state + num_model + num_control) tensors in
  run! when synchronize synchronize_device in
  let! '(tape, update_params) :=
    match tape update_params with
    | None => let! t := Tape_alloc in ret (t, set_tape t update_params)
    | Some t => ret (t, update_params)
    end in
  let ctx :=
    {| ctx_update_params := update_params; ctx_sim_params := sim_params;
       ctx_states := states; ctx_control := control;
       ctx_states_bwd := states_bwd; ctx_control_bwd := control_bwd;
       ctx_state_tensors_names := state_tensors_names;
       ctx_model_tensors_names := model_tensors_names;
       ctx_control_tensors_names := control_tensors_names;
       ctx_state_tensors := state_tensors; ctx_model_tensors := model_tensors;
       ctx_control_tensors := control_tensors; ctx_mesh_tensors := mesh_tensors |} in
  run! (if use_graph_capture then
          let! w := get in
          run! when (is_None (update_graph (integrator w)))
                 (capture_graphs update_params sim_params states_bwd control_bwd tape) in
          run! lift_mem (assign_tensors state_in state_in_bwd state_tensors_names state_tensors) in
          run! lift_mem (assign_tensors control control_bwd control_tensors_names control_tensors) in
          run! lift_mem (assign_model_tensors model model_tensors_names model_tensors) in
          run! lift_mem (assign_mesh_points (shape_geo_src model) mesh_tensors 0) in
          let! w := get in
          run! capture_launch (update_graph (integrator w)) in
          lift_mem (assign_tensors state_out_bwd state_out [] [])
        else
          sim_update update_params sim_params states control) in
  run! when synchronize synchronize_device in
  let! outputs := lift_mem (
    let! out_state := for_collect state_tensors_names (output_tensor use_graph_capture state_out) in
    let! out_model := for_collect model_tensors_names (output_tensor use_graph_capture (model_vars model)) in
    let! out_control := for_collect control_tensors_names (output_tensor use_graph_capture control) in
    let! out_mesh := for_collect mesh_tensors clone in
    ret (out_state ++ out_model ++ out_control ++ out_mesh)) in
  ret (ctx, outputs).

(** The gradient post-processing switches, local constants of [backward]. *)
Record GradPolicy := {
  rescale_grad : option float;
  clip_grad : option float;
  zero_nans : bool;
}.

(** [rescale_grad = None; clip_grad = None; zero_nans = False]. *)
Definition default_policy : GradPolicy :=
  {| rescale_grad := None; clip_grad := None; zero_nans := false |}.

(** [torch.nan_to_num(x, nan, posinf, neginf)] on one element. *)
Definition nan_to_num (nan posinf neginf x : float) : float :=
  if PrimFloat.is_nan x then nan
  else if PrimFloat.eqb x infinity then posinf
  else if PrimFloat.eqb x neg_infinity then neginf
  else x.

(** [torch.clamp(x, lo, hi)] on one element: [min(max(x, lo), hi)], a NaN
    stays a NaN. *)
Definition clamp (lo hi x : float) : float :=
  if PrimFloat.is_nan x then x
  else
    let y := if PrimFloat.ltb x lo then lo else x in
    if PrimFloat.ltb hi y then hi else y.

(** [tape.gradients[v]]: only arrays are keys of the dictionary. *)
Definition gradients_lookup {S} (tape_gradients : gmap nat nat) (v : attr) : M S loc :=
  match v with
  | AttrArray a =>
      match tape_gradients !! ptr a with
      | Some g => ret g
      | None => raise KeyError
      end
  | AttrOther => raise KeyError
  end.

(** The body of the three loops over names in [backward]'s [try] block,
    after [name] was bound. *)
Definition read_adjoint (policy : GradPolicy) (tape_gradients : gmap nat nat)
    (x : gmap string attr) (name : string) : M memory loc :=
  let! a := getattr x name in
  let! grad := gradients_lookup tape_gradients a in
  let! adj_tensor := clone (to_torch grad) in
  run! match rescale_grad policy with
       | Some r => update_inplace (λ v, v / r)%float adj_tensor
       | None => ret tt
       end in
  match clip_grad policy with
  | Some c =>
      let! adj_tensor := map_new (nan_to_num 0 (- c) c)%float adj_tensor in
      map_new (clamp (- c) c)%float adj_tensor
  | None => ret adj_tensor
  end.

(** [for geo in model.shape_geo_src: if isinstance(geo, wp.sim.Mesh):
    adj_inputs.append(wp.to_torch(geo.mesh.points.grad).clone())]. *)
Fixpoint read_mesh_adjoints (geos : list Geo) : M memory (list loc) :=
  match geos with
  | [] => ret []
  | Mesh points :: geos' =>
      let! g := grad_array points in
      let! adj_tensor := clone (to_torch g) in
      let! rest := read_mesh_adjoints geos' in
      ret (adj_tensor :: rest)
  | OtherGeo :: geos' => read_mesh_adjoints geos'
  end.

(** [backward] up to its [try] block (lines 157 to 233): the adjoints of
    the outputs are pushed and the reverse pass is run or replayed.
    [adj_tensor.contiguous()] changes the layout only, which the store does
    not record.  A [ctx] written by [forward] always holds a tape. *)
Definition backward_reverse (ctx : Ctx) (adj_tensors : list loc) : M World unit :=
  let update_params := ctx_update_params ctx in
  let '(state_in, states_mid, state_out) := ctx_states ctx in
  let control := ctx_control ctx in
  let '(state_in_bwd, states_mid_bwd, state_out_bwd) := ctx_states_bwd ctx in
  let control_bwd := ctx_control_bwd ctx in
  let state_tensors_names := ctx_state_tensors_names ctx in
  let model_tensors_names := ctx_model_tensors_names ctx in
  let control_tensors_names := ctx_control_tensors_names ctx in
  let state_tensors := ctx_state_tensors ctx in
  let model_tensors := ctx_model_tensors ctx in
  let control_tensors := ctx_control_tensors ctx in
  let mesh_tensors := ctx_mesh_tensors ctx in
  let model := model update_params in
  let use_graph_capture := use_graph_capture update_params in
  let synchronize := synchronize update_params in
  let num_state := length state_tensors_names in
  let num_model := length model_tensors_names in
  let num_control := length control_tensors_names in
  let adj_state_tensors := slice 0 num_state adj_tensors in
  let adj_model_tensors := slice num_state (num_state + num_model) adj_tensors in
  let adj_control_tensors :=
    slice (num_state + num_model) (num_state + num_model + num_control) adj_tensors in
  let adj_mesh_tensors := drop (num_state + num_model + num_control) adj_tensors in
  let! tape := match tape update_params with
               | Some t => ret t
               | None => raise AttributeError
               end in
  run! when synchronize synchronize_device in
  run! (if use_graph_capture then
          run! lift_mem (assign_tensors state_in state_in_bwd state_tensors_names state_tensors) in
          run! lift_mem (assign_tensors control control_bwd control_tensors_names control_tensors) in
          run! lift_mem (assign_model_tensors model model_tensors_names model_tensors) in
          run! lift_mem (assign_mesh_points (shape_geo_src model) mesh_tensors 0) in
          let! w := get in
          run! capture_launch (update_graph (integrator w)) in
          run! lift_mem (assign_adjoints state_out_bwd state_tensors_names adj_state_tensors) in
          run! lift_mem (assign_adjoints (model_vars model) model_tensors_names adj_model_tensors) in
          run! lift_mem (assign_adjoints control_bwd control_tensors_names adj_control_tensors) in
          run! lift_mem (assign_mesh_grads (shape_geo_src model) adj_mesh_tensors 0) in
          let! w := get in
          run! capture_launch (bwd_update_graph (integrator w)) in
          let! w := get in
          assert (bool_decide (0 < size (gradients (the_tape w tape))))
        else
          run! lift_mem (assign_adjoints state_out state_tensors_names adj_state_tensors) in
          run! lift_mem (assign_adjoints control control_tensors_names adj_control_tensors) in
          Tape_backward tape) in
  when synchronize synchronize_device.

(** One of the three loops over names of the [try] block; the loop variable
    [name] is the block's local variable, which the handler reads. *)
Definition read_loop (policy : GradPolicy) (tape_gradients : gmap nat nat)
    (x : gmap string attr) (names : list string)
    : M (memory * option string) (list loc) :=
  for_collect names (λ name,
    run! set_local (Some name) in
    lift_outer (read_adjoint policy tape_gradients x name)).

(** The body of the [try] block (lines 236 to 278). *)
Definition try_body (policy : GradPolicy) (tape_gradients : gmap nat nat)
    (state_in : gmap string attr) (model : Model) (control : gmap string attr)
    (state_tensors_names model_tensors_names control_tensors_names : list string)
    : M (memory * option string) (list loc) :=
  let! adj_state := read_loop policy tape_gradients state_in state_tensors_names in
  let! adj_model := read_loop policy tape_gradients (model_vars model) model_tensors_names in
  let! adj_control := read_loop policy tape_gradients control control_tensors_names in
  let! adj_mesh := lift_outer (read_mesh_adjoints (shape_geo_src model)) in
  ret (adj_state ++ adj_model ++ adj_control ++ adj_mesh).

(** The objects [backward] reads the input adjoints from: the shadow
    buffers in graph-capture mode (lines 227 to 229). *)
Definition read_state_in (ctx : Ctx) : gmap string attr :=
  let '(state_in, _, _) := ctx_states ctx in
  let '(state_in_bwd, _, _) := ctx_states_bwd ctx in
  if use_graph_capture (ctx_update_params ctx) then state_in_bwd else state_in.

Definition read_control (ctx : Ctx) : gmap string attr :=
  if use_graph_capture (ctx_update_params ctx) then ctx_control_bwd ctx else ctx_control ctx.

(** [tape.gradients] of the tape of [ctx]. *)
Definition ctx_gradients (ctx : Ctx) (w : World) : gmap nat nat :=
  match tape (ctx_update_params ctx) with
  | Some t => gradients (the_tape w t)
  | None => ∅
  end.

(** The [try] block of [backward] (lines 235 to 282) with its handler. *)
Definition backward_collect (policy : GradPolicy) (ctx : Ctx) : M World (list loc) :=
  let model := model (ctx_update_params ctx) in
  let state_in := read_state_in ctx in
  let control := read_control ctx in
  let! w := get in
  let tape_gradients := ctx_gradients ctx w in
  with_local None (try_except_KeyError
    (lift_mem_local
       (try_body policy tape_gradients state_in model control
          (ctx_state_tensors_names ctx) (ctx_model_tensors_names ctx)
          (ctx_control_tensors_names ctx)))
    (let! name := get_local in
     run! lift_outer (print ("Missing gradient for " +:+ default "" name)) in
     raise KeyError)).

Definition backward_with (policy : GradPolicy) (ctx : Ctx) (adj_tensors : list loc)
    : M World (list (option loc)) :=
  run! backward_reverse ctx adj_tensors in
  let! adj_inputs := backward_collect policy ctx in
  run! match tape (ctx_update_params ctx) with
       | Some t => Tape_zero t
       | None => raise AttributeError
       end in
  run! when (zero_nans policy)
         (lift_mem (for_each adj_inputs (update_inplace (nan_to_num 0 0 0)))) in
  ret (replicate 9 None ++ (Some <$> adj_inputs)).

(** [UpdateFunction.backward] as written: the three switches are off. *)
Definition backward (ctx : Ctx) (adj_tensors : list loc) : M World (list (option loc)) :=
  backward_with default_policy ctx adj_tensors.

(** *** Vocabulary of the statements *)

(** What the three switches do to one element of an adjoint, in the order
    of lines 242 to 246. *)
Definition postprocess (policy : GradPolicy) (v : float) : float :=
  let v := match rescale_grad policy with
           | Some r => (v / r)%float
           | None => v
           end in
  match clip_grad policy with
  | Some c => clamp (- c) c (nan_to_num 0 (- c) c v)
  | None => v
  end.

(** [tape.gradients[getattr(x, name)]] as an outcome. *)
Definition declared_gradient (tape_gradients : gmap nat nat) (x : gmap string attr)
    (name : string) : result loc :=
  match x !! name with
  | None => Raise AttributeError
  | Some (AttrArray a) =>
      match tape_gradients !! ptr a with
      | Some g => Ok g
      | None => Raise KeyError
      end
  | Some AttrOther => Raise KeyError
  end.

(** The declared inputs of a call in the order [backward] reads them, each
    with the object it is read from. *)
Definition declared_inputs (ctx : Ctx) : list (gmap string attr * string) :=
  ((λ n, (read_state_in ctx, n)) <$> ctx_state_tensors_names ctx)
  ++ ((λ n, (model_vars (model (ctx_update_params ctx)), n)) <$> ctx_model_tensors_names ctx)
  ++ ((λ n, (read_control ctx, n)) <$> ctx_control_tensors_names ctx).

(** The mesh geometries of a model, in order. *)
Definition meshes (geos : list Geo) : list wp_array :=
  omap (λ geo, match geo with
               | Mesh points => Some points
               | OtherGeo => None
               end) geos.

(** Every gradient array known to the tape and every mesh gradient is a
    live buffer. *)
Definition gradients_live (ctx : Ctx) (w : World) : Prop :=
  (∀ a g, ctx_gradients ctx w !! a = Some g → is_Some (mem w !! g))
  ∧ (∀ p g, p ∈ meshes (shape_geo_src (model (ctx_update_params ctx))) →
            grad p = Some g → is_Some (mem w !! g)).

(** The body of the three loops over names, on one declared input. *)
Definition read_declared (policy : GradPolicy) (tape_gradients : gmap nat nat)
    (p : gmap string attr * string) : M (memory * option string) loc :=
  run! set_local (Some p.2) in
  lift_outer (read_adjoint policy tape_gradients p.1 p.2).

(** Between the stores [m] and [m'], the buffer [t] was allocated and given
    the contents of [g], mapped by [f]; nothing else was written to it. *)
Definition cloned_from (m m' : memory) (f : float → float)
    (g t : loc) : Prop :=
  ∃ mi v, m ⊆ mi ∧ mi !! g = Some v ∧ mi !! t = None ∧ m' !! t = Some (f <$> v).

(** In the store [m], [t] is another buffer than [src] with the same
    contents. *)
Definition is_clone (m : memory) (src t : loc) : Prop :=
  t ≠ src ∧ is_Some (m !! t) ∧ m !! t = m !! src.

(** [t] is the output tensor of the array [name] of [x]: a view of its
    buffer, or a clone of it in graph-capture mode. *)
Definition is_output (use_graph_capture : bool) (x : gmap string attr)
    (m : memory) (name : string) (t : loc) : Prop :=
  ∃ a, x !! name = Some (AttrArray a)
       ∧ if use_graph_capture then is_clone m (ptr a) t else t = ptr a.

(** [t] is the adjoint returned for the gradient array [g]: a buffer that
    did not exist in the store [m1], the store after the reverse pass, and
    that holds in the final store [m2] exactly what [g] held in [m1]. *)
Definition holds_gradient (m1 m2 : memory) (g t : loc) : Prop :=
  ∃ v, m1 !! g = Some v ∧ m1 !! t = None ∧ m2 !! t = Some v.

(** The adjoint [t] returned for the array [name] of [x]. *)
Definition returned_adjoint (tape_gradients : gmap nat nat) (m1 m2 : memory)
    (x : gmap string attr) (name : string) (t : loc) : Prop :=
  ∃ g, declared_gradient tape_gradients x name = Ok g ∧ holds_gradient m1 m2 g t.

(** The adjoint [t] returned for the mesh whose points are [p]. *)
Definition returned_mesh_adjoint (m1 m2 : memory) (p : wp_array) (t : loc) : Prop :=
  ∃ g, grad p = Some g ∧ holds_gradient m1 m2 g t.


(** One call of the step node by the autodiff engine, and a run of calls
    one after the other on the same world, whatever each call's outcome. *)
Inductive Call :=
| CallForward (update_params : UpdateParams) (sim_params : SimParams)
    (states : States) (control : gmap string attr)
    (states_bwd : States) (control_bwd : gmap string attr)
    (state_tensors_names model_tensors_names control_tensors_names : list string)
    (tensors : list loc)
| CallBackward (ctx : Ctx) (adj_tensors : list loc).

Definition run_call (c : Call) (w : World) : World :=
  match c with
  | CallForward up sp st ctl stb ctlb ns nm nc ts =>
      (forward up sp st ctl stb ctlb ns nm nc ts w).2
  | CallBackward ctx adj => (backward ctx adj w).2
  end.

Definition run_calls (cs : list Call) (w : World) : World :=
  foldl (λ w c, run_call c w) w cs.

(** The number of [wp.capture_begin] calls in a trace. *)
Fixpoint count_captures (evs : list Event) : nat :=
  match evs with
  | [] => 0
  | EvCaptureBegin :: evs' => S (count_captures evs')
  | _ :: evs' => count_captures evs'
  end.

(** Whatever a call does, it leaves the cache as it was without capturing,
    or it found no forward graph, leaves one and has begun at most two
    captures. *)
Definition quiet (w w' : World) : Prop :=
  integrator w' = integrator w
  ∧ count_captures (trace w') = count_captures (trace w).

Definition capture_step (w w' : World) : Prop :=
  quiet w w'
  ∨ (update_graph (integrator w) = None
     ∧ update_graph (integrator w') ≠ None
     ∧ count_captures (trace w') ≤ count_captures (trace w) + 2).

(** The [wp.synchronize_device()] call made when [synchronize] is set. *)
Definition sync_events (synchronize : bool) : list Event :=
  if synchronize then [EvSynchronize] else [].

(** The integrator as [WarpEnv.init_sim] leaves it. *)
Definition Integrator_init : Integrator :=
  {| update_graph := None; bwd_update_graph := None |}.

End UpdateFunction.

End autograd.

(** ** warp_env.py *)

Module warp_env.

(** A State or Control object: its identity, which is what Python's [is]
    compares, and its attribute dictionary. *)
Record Object := {
  oid : nat;
  vars : gmap string autograd.attr;
}.

(** Python values passed to [UpdateFunction]. A torch tensor is named by
    the buffer it views; the integrator of [update_params] is the one
    integrator of the world. *)
Inductive pyval :=
| VNone
| VObject (o : Object)
| VUpdateParams (tape : option nat) (model : autograd.Model)
    (use_graph_capture synchronize : bool)
| VSimParams (p : autograd.SimParams)
| VStates (state_in : option Object) (states_mid : option (list Object))
    (state_out : option Object)
| VNames (names : list string)
| VTensor (t : nat).

Record WarpEnv := {
  no_grad : bool;
  use_graph_capture : bool;
  synchronize : bool;
  sim_substeps : nat;
  sim_dt : float;
  kinematic_fk : bool;
  eval_ik : bool;
  model : autograd.Model;
  tape : option nat;
  state_0 : Object;
  state_1 : Object;
  states_mid : option (list Object);
  control_0 : Object;
  state_0_bwd : Object;
  state_1_bwd : Object;
  states_mid_bwd : list Object;
  control_0_bwd : Object;
  state_tensors_names : list string;
  control_tensors_names : list string;
  state_tensors : option (list nat);
  control_tensors : option (list nat);
  (** the identities of the objects allocated so far *)
  heap : gset nat;
  (** the positional arguments of every call of the update function *)
  calls : list (list pyval);
}.

Definition requires_grad (self : WarpEnv) : bool := negb (no_grad self).

Definition set_heap (h : gset nat) (self : WarpEnv) : WarpEnv :=
  {| no_grad := no_grad self; use_graph_capture := use_graph_capture self;
     synchronize := synchronize self; sim_substeps := sim_substeps self;
     sim_dt := sim_dt self; kinematic_fk := kinematic_fk self; eval_ik := eval_ik self;
     model := model self; tape := tape self;
     state_0 := state_0 self; state_1 := state_1 self; states_mid := states_mid self;
     control_0 := control_0 self; state_0_bwd := state_0_bwd self;
     state_1_bwd := state_1_bwd self; states_mid_bwd := states_mid_bwd self;
     control_0_bwd := control_0_bwd self;
     state_tensors_names := state_tensors_names self;
     control_tensors_names := control_tensors_names self;
     state_tensors := state_tensors self; control_tensors := control_tensors self;
     heap := h; calls := calls self |}.

Definition set_calls (c : list (list pyval)) (self : WarpEnv) : WarpEnv :=
  {| no_grad := no_grad self; use_graph_capture := use_graph_capture self;
     synchronize := synchronize self; sim_substeps := sim_substeps self;
     sim_dt := sim_dt self; kinematic_fk := kinematic_fk self; eval_ik := eval_ik self;
     model := model self; tape := tape self;
     state_0 := state_0 self; state_1 := state_1 self; states_mid := states_mid self;
     control_0 := control_0 self; state_0_bwd := state_0_bwd self;
     state_1_bwd := state_1_bwd self; states_mid_bwd := states_mid_bwd self;
     control_0_bwd := control_0_bwd self;
     state_tensors_names := state_tensors_names self;
     control_tensors_names := control_tensors_names self;
     state_tensors := state_tensors self; control_tensors := control_tensors self;
     heap := heap self; calls := c |}.

(** Lines 457 to 459: [self.state_tensors = ..; self.state_1 = self.state_0;
    self.state_0 = state_1]. *)
Definition set_states (new_state_tensors : list nat) (new_state_1 new_state_0 : Object)
    (self : WarpEnv) : WarpEnv :=
  {| no_grad := no_grad self; use_graph_capture := use_graph_capture self;
     synchronize := synchronize self; sim_substeps := sim_substeps self;
     sim_dt := sim_dt self; kinematic_fk := kinematic_fk self; eval_ik := eval_ik self;
     model := model self; tape := tape self;
     state_0 := new_state_0; state_1 := new_state_1; states_mid := states_mid self;
     control_0 := control_0 self; state_0_bwd := state_0_bwd self;
     state_1_bwd := state_1_bwd self; states_mid_bwd := states_mid_bwd self;
     control_0_bwd := control_0_bwd self;
     state_tensors_names := state_tensors_names self;
     control_tensors_names := control_tensors_names self;
     state_tensors := Some new_state_tensors; control_tensors := control_tensors self;
     heap := heap self; calls := calls self |}.

(** [self.control_0 = ..]. *)
Definition set_control_0 (new_control_0 : Object) (self : WarpEnv) : WarpEnv :=
  {| no_grad := no_grad self; use_graph_capture := use_graph_capture self;
     synchronize := synchronize self; sim_substeps := sim_substeps self;
     sim_dt := sim_dt self; kinematic_fk := kinematic_fk self; eval_ik := eval_ik self;
     model := model self; tape := tape self;
     state_0 := state_0 self; state_1 := state_1 self; states_mid := states_mid self;
     control_0 := new_control_0; state_0_bwd := state_0_bwd self;
     state_1_bwd := state_1_bwd self; states_mid_bwd := states_mid_bwd self;
     control_0_bwd := control_0_bwd self;
     state_tensors_names := state_tensors_names self;
     control_tensors_names := control_tensors_names self;
     state_tensors := state_tensors self; control_tensors := control_tensors self;
     heap := heap self; calls := calls self |}.

(** [self.control_tensors = ..]. *)
Definition set_control_tensors (new_control_tensors : list nat) (self : WarpEnv) : WarpEnv :=
  {| no_grad := no_grad self; use_graph_capture := use_graph_capture self;
     synchronize := synchronize self; sim_substeps := sim_substeps self;
     sim_dt := sim_dt self; kinematic_fk := kinematic_fk self; eval_ik := eval_ik self;
     model := model self; tape := tape self;
     state_0 := state_0 self; state_1 := state_1 self; states_mid := states_mid self;
     control_0 := control_0 self; state_0_bwd := state_0_bwd self;
     state_1_bwd := state_1_bwd self; states_mid_bwd := states_mid_bwd self;
     control_0_bwd := control_0_bwd self;
     state_tensors_names := state_tensors_names self;
     control_tensors_names := control_tensors_names self;
     state_tensors := state_tensors self; control_tensors := Some new_control_tensors;
     heap := heap self; calls := calls self |}.

(** A new object with the attribute dictionary [v]: its identity is one no
    object has yet. *)
Definition new_object (v : gmap string autograd.attr) : M WarpEnv Object :=
  λ self,
    let r := fresh (heap self) in
    (Ok {| oid := r; vars := v |}, set_heap ({[r]} ∪ heap self) self).

Definition record_call (args : list pyval) : M WarpEnv unit :=
  modify (λ self, set_calls (calls self ++ [args]) self).

(** The parameters of [UpdateFunction.forward] after [ctx], before
    [*tensors]. *)
Definition forward_parameters : list string :=
  ["update_params"; "sim_params"; "states"; "control"; "states_bwd"; "control_bwd";
   "state_tensors_names"; "model_tensors_names"; "control_tensors_names"].

(** Python's binding of positional arguments to [forward]'s signature: each
    declared parameter takes the argument at its position, the rest go to
    [*tensors]; a declared parameter left without an argument is a
    [TypeError]. *)
Definition bind_arguments (args : list pyval) : result (list (string * pyval) * list pyval) :=
  let n := length forward_parameters in
  if decide (length args < n) then Raise TypeError
  else Ok (zip forward_parameters (take n args), drop n args).

Definition from_option {S A} (e : exn) (o : option A) : M S A :=
  match o with
  | Some x => ret x
  | None => raise e
  end.

(** The [state_in] and [state_out] objects among the positional arguments
    of a call of the update function ([states] is the third). *)
Definition step_states (args : list pyval) : option (Object * Object) :=
  match args !! 2 with
  | Some (VStates (Some state_in) _ (Some state_out)) => Some (state_in, state_out)
  | _ => None
  end.

(** The tensors among [*tensors]. *)
Definition tensor_locs (tensors : list pyval) : list nat :=
  omap (λ v, match v with
             | VTensor t => Some t
             | _ => None
             end) tensors.

Section do_physics_step.
Context `{R : autograd.Runtime}.

(** What is not in the repository's sources: [model.state(copy="zeros")]
    and [model.control()] ([rewarped/warp/model_monkeypatch.py]), which
    allocate the arrays of a new State or Control object and give its
    attribute dictionary; the size of the first dimension of a torch
    tensor, [None] for a tensor without dimension; and
    [Environment.update] ([rewarped/environment.py]). *)
Variable Model_state : M autograd.World (gmap string autograd.attr).
Variable Model_control : M autograd.World (gmap string autograd.attr).
Variable tensor_len : nat → option nat.

(** The environment and the device world. *)
Definition Sim : Type := WarpEnv * autograd.World.

Variable Environment_update : M Sim unit.

Definition on_env {A} (c : M WarpEnv A) : M Sim A :=
  λ s, let '(r, e) := c s.1 in (r, (e, s.2)).
Definition on_world {A} (c : M autograd.World A) : M Sim A :=
  λ s, let '(r, w) := c s.2 in (r, (s.1, w)).

(** [self.model.state(copy="zeros")] and [self.model.control()]. *)
Definition new_state : M Sim Object :=
  let! v := on_world Model_state in on_env (new_object v).
Definition new_control : M Sim Object :=
  let! v := on_world Model_control in on_env (new_object v).

(** [[self.model.state(copy="zeros") for _ in range(n)]]. *)
Fixpoint new_states (n : nat) : M Sim (list Object) :=
  match n with
  | 0 => ret []
  | S n' => let! o := new_state in let! os := new_states n' in ret (o :: os)
  end.

(** [len(t)] for a torch tensor [t]. *)
Definition len_tensor {S} (t : nat) : M S nat :=
  match tensor_len t with
  | Some n => ret n
  | None => raise TypeError
  end.

(** [assign_tensors(x, x_out, names, tensors)] when [names] is a torch
    tensor with [rows] rows: [name in names] with a string [name] is
    refused by [Tensor.__contains__] with a [RuntimeError], and [getattr]
    with a name that is a tensor is a [TypeError]. *)
Definition assign_tensors_tensor_names (x x_out : gmap string autograd.attr)
    (rows : nat) (tensors : list nat) : M autograd.memory unit :=
  run! for_each (map_to_list x) (λ _, raise RuntimeError) in
  for_each (zip (seq 0 rows) tensors) (λ _, raise TypeError).

(** [for name in names: out_tensor = wp.to_torch(getattr(control, name))]
    when [names] is a torch tensor with [rows] rows. *)
Definition outputs_tensor_names (rows : nat) : M autograd.memory (list nat) :=
  for_collect (seq 0 rows) (λ _, raise TypeError).

(** [UpdateFunction.forward] when [control_tensors_names] is bound to a
    torch tensor: the lines of [autograd.forward], with what Python does
    where the names are used (lines 61, 114 and 144 to 148). Only the
    outputs are given; [ctx] stays with the autodiff engine. *)
Definition forward_tensor_names (update_params : autograd.UpdateParams)
    (sim_params : autograd.SimParams)
    (states : autograd.States) (control : gmap string autograd.attr)
    (states_bwd : autograd.States) (control_bwd : gmap string autograd.attr)
    (state_tensors_names model_tensors_names : list string)
    (control_tensors_names : nat) (tensors : list nat) : M autograd.World (list nat) :=
  let model := autograd.model update_params in
  let use_graph_capture := autograd.use_graph_capture update_params in
  let synchronize := autograd.synchronize update_params in
  let '(state_in, states_mid, state_out) := states in
  let '(state_in_bwd, states_mid_bwd, state_out_bwd) := states_bwd in
  let num_state := length state_tensors_names in
  let num_model := length model_tensors_names in
  let! num_control := len_tensor control_tensors_names in
  let state_tensors := slice 0 num_state tensors in
  let model_tensors := slice num_state (num_state + num_model) tensors in
  let control_tensors :=
    slice (num_state + num_model) (num_state + num_model + num_control) tensors in
  let mesh_tensors := drop (num_state + num_model + num_control) tensors in
  run! when synchronize autograd.synchronize_device in
  let! '(tape, update_params) :=
    match autograd.tape update_params with
    | None => let! t := autograd.Tape_alloc in ret (t, autograd.set_tape t update_params)
    | Some t => ret (t, update_params)
    end in
  run! (if use_graph_capture then
          let! w := get in
          run! when (autograd.is_None (autograd.update_graph (autograd.integrator w)))
                 (autograd.capture_graphs update_params sim_params states_bwd control_bwd
                    tape) in
          run! autograd.lift_mem
                 (autograd.assign_tensors state_in state_in_bwd state_tensors_names
                    state_tensors) in
          run! autograd.lift_mem
                 (assign_tensors_tensor_names control control_bwd num_control
                    control_tensors) in
          run! autograd.lift_mem
                 (autograd.assign_model_tensors model model_tensors_names model_tensors) in
          run! autograd.lift_mem
                 (autograd.assign_mesh_points (autograd.shape_geo_src model) mesh_tensors 0) in
          let! w := get in
          run! autograd.capture_launch (autograd.update_graph (autograd.integrator w)) in
          autograd.lift_mem (autograd.assign_tensors state_out_bwd state_out [] [])
        else
          autograd.sim_update update_params sim_params states control) in
  run! when synchronize autograd.synchronize_device in
  autograd.lift_mem (
    let! out_state :=
      for_collect state_tensors_names (autograd.output_tensor use_graph_capture state_out) in
    let! out_model :=
      for_collect model_tensors_names
        (autograd.output_tensor use_graph_capture (autograd.model_vars model)) in
    let! out_control := outputs_tensor_names num_control in
    let! out_mesh := for_collect mesh_tensors autograd.clone in
    ret (out_state ++ out_model ++ out_control ++ out_mesh)).

(** The states of a [states] tuple as [forward] uses them. The step passes
    [(None, None, None)] and [None] for the shadow objects in eager mode,
    where [forward] does not read them, and [None] for [states_mid] in
    graph-capture mode, where the physics update runs on the shadow
    states. *)
Definition states_vars (state_in : Object) (states_mid : option (list Object))
    (state_out : Object) : autograd.States :=
  (vars state_in, vars <$> default [] states_mid, vars state_out).

(** [forward] on its bound parameters. The step passes the first six
    parameters and the first two name lists with the types [forward]
    expects; what lands on [control_tensors_names] decides how the body
    runs. *)
Definition forward_bound (params : list (string * pyval)) (tensors : list pyval)
    : M autograd.World (list nat) :=
  match params.*2 with
  | [VUpdateParams tape model use_graph_capture synchronize; VSimParams sim_params;
     VStates (Some state_in) states_mid (Some state_out); VObject control;
     states_bwd; control_bwd;
     VNames state_tensors_names; VNames model_tensors_names; control_tensors_names] =>
      let update_params :=
        {| autograd.tape := tape; autograd.model := model;
           autograd.use_graph_capture := use_graph_capture;
           autograd.synchronize := synchronize |} in
      let states := states_vars state_in states_mid state_out in
      let! '(states_bwd, control_bwd) :=
        match states_bwd, control_bwd with
        | VStates (Some state_in_bwd) states_mid_bwd (Some state_out_bwd),
          VObject control_bwd =>
            ret (states_vars state_in_bwd states_mid_bwd state_out_bwd, vars control_bwd)
        | _, _ =>
            if use_graph_capture then raise TypeError
            else ret ((∅, [], ∅) : autograd.States, ∅)
        end in
      match control_tensors_names with
      | VNames control_tensors_names =>
          let! '(_, outputs) :=
            autograd.forward update_params sim_params states (vars control)
              states_bwd control_bwd
              state_tensors_names model_tensors_names control_tensors_names
              (tensor_locs tensors) in
          ret outputs
      | VTensor t =>
          forward_tensor_names update_params sim_params states (vars control)
            states_bwd control_bwd
            state_tensors_names model_tensors_names t (tensor_locs tensors)
      | _ => raise TypeError
      end
  | _ => raise TypeError
  end.

(** [UpdateFunction.apply] and [UpdateFunction.forward(ctx, ..)] on the
    positional arguments [args]. *)
Definition UpdateFunction_call (args : list pyval) : M Sim (list nat) :=
  run! on_env (record_call args) in
  match bind_arguments args with
  | Raise e => raise e
  | Ok (params, tensors) => on_world (forward_bound params tensors)
  end.

(** Lines 401 to 454 of [do_physics_step]: the call of the update
    function; the local [state_1] and the outputs. *)
Definition call_update (self : WarpEnv) : M Sim (Object * list nat) :=
  let tape := tape self in
  let update_params :=
    VUpdateParams tape (model self) (use_graph_capture self) (synchronize self) in
  let sim_params :=
    VSimParams {| autograd.sim_substeps := sim_substeps self;
                  autograd.sim_dt := sim_dt self;
                  autograd.kinematic_fk := kinematic_fk self;
                  autograd.eval_ik := eval_ik self |} in
  let! state_1 := if requires_grad self then new_state else ret (state_1 self) in
  let! '(states_mid, states_bwd, control_bwd) :=
    if use_graph_capture self then
      let states_mid := states_mid self in
      run! assert (negb (autograd.is_None tape)) in
      ret (states_mid,
           VStates (Some (state_0_bwd self)) (Some (states_mid_bwd self))
                   (Some (state_1_bwd self)),
           VObject (control_0_bwd self))
    else
      let! states_mid := new_states (sim_substeps self - 1) in
      ret (Some states_mid, VStates None None None, VNone) in
  let states := VStates (Some (state_0 self)) states_mid (Some state_1) in
  let control := VObject (control_0 self) in
  let! outputs :=
    if requires_grad self then
      let! state_tensors := from_option TypeError (state_tensors self) in
      let! control_tensors := from_option TypeError (control_tensors self) in
      let tensors := state_tensors ++ control_tensors in
      UpdateFunction_call
        ([update_params; sim_params; states; control; states_bwd; control_bwd;
          VNames (state_tensors_names self); VNames (control_tensors_names self)]
         ++ (VTensor <$> tensors))
    else
      let state_tensors_names : list string := [] in
      let control_tensors_names : list string := [] in
      run! UpdateFunction_call
             [update_params; sim_params; states; control; states_bwd; control_bwd;
              VNames state_tensors_names; VNames control_tensors_names] in
      ret [] in
  ret (state_1, outputs).

(** [wp.to_torch(getattr(obj, k))]. *)
Definition view {S} (x : gmap string autograd.attr) (k : string) : M S nat :=
  let! a := autograd.getattr x k in
  let! a := autograd.as_array a in
  ret (autograd.to_torch (autograd.ptr a)).

(** Lines 456 to 462: the hand-off. *)
Definition hand_over (self : WarpEnv) (state_1 : Object) (outputs : list nat) : M Sim unit :=
  let num_state := length (state_tensors_names self) in
  run! on_env (modify (set_states (slice 0 num_state outputs) (state_0 self) state_1)) in
  let! control_0 := new_control in
  run! on_env (modify (set_control_0 control_0)) in
  let! control_tensors := for_collect (control_tensors_names self) (view (vars control_0)) in
  on_env (modify (set_control_tensors control_tensors)).

Definition do_physics_step : M Sim unit :=
  let! self := on_env get in
  if requires_grad self || use_graph_capture self then
    let! '(state_1, outputs) := call_update self in
    hand_over self state_1 outputs
  else
    Environment_update.

(** [n] calls of [do_physics_step] one after the other on the same
    environment, whatever each call's outcome. *)
Fixpoint run_steps (n : nat) (s : Sim) : Sim :=
  match n with
  | 0 => s
  | S n' => run_steps n' (do_physics_step s).2
  end.

(** The call of [do_physics_step] does not line up with the parameters of
    [forward]: there are no gradients (eight arguments for nine
    parameters), or a tensor list is missing or both are empty (the same),
    or the first tensor, which lands on [control_tensors_names], has no
    dimension or at least one row, or a control name, which lands in
    [model_tensors_names], is not the name of an array of the model. *)
Definition misaligned (self : WarpEnv) : Prop :=
  no_grad self = true
  ∨ match state_tensors self, control_tensors self with
    | Some state_tensors, Some control_tensors =>
        match state_tensors ++ control_tensors with
        | [] => True
        | t :: _ =>
            tensor_len t ≠ Some 0
            ∨ ∃ name, name ∈ control_tensors_names self
                      ∧ ∀ a, autograd.model_vars (model self) !! name
                             ≠ Some (autograd.AttrArray a)
        end
    | _, _ => True
    end.

End do_physics_step.

(** [e'] is [e] but for the identities handed out and the calls made. *)
Definition keeps (e e' : WarpEnv) : Prop :=
  e' = set_calls (calls e') (set_heap (heap e') e) ∧ heap e ⊆ heap e'.

(** What a call of the update function made by a step that started from
    the environment [self] passes as states: [state_0] as [state_in] and,
    as [state_out], a new object with gradients, [state_1] without. *)
Definition passes_state_0 (self : WarpEnv) (args : list pyval) : Prop :=
  ∃ out, step_states args = Some (state_0 self, out)
         ∧ if requires_grad self then oid out ∉ heap self else out = state_1 self.

(** Allocations keep the environment and make no call. *)
Definition allocates `{R : autograd.Runtime} (s s' : Sim) : Prop :=
  keeps s.1 s'.1 ∧ calls s'.1 = calls s.1.

(** What comes after lines 457 to 459 leaves the two state objects and
    the calls as they are. *)
Definition same_states `{R : autograd.Runtime} (s s' : Sim) : Prop :=
  state_0 s'.1 = state_0 s.1 ∧ state_1 s'.1 = state_1 s.1 ∧ calls s'.1 = calls s.1.

End warp_env.

(** ** A concrete physics: one buffer copy

    The update reads the array [q] of [state_in] and writes the array [q]
    of [state_out]; its derivative is the identity.  It serves to run the
    step node on concrete worlds. *)

Module copy_physics.
Import autograd.

(** The forward kernel copies [src] into [dst]; its adjoint adds the
    gradient of [dst] to the gradient of [src]. *)
Inductive kernel :=
| Copy (src dst : wp_array)
| CopyAdjoint (src dst : wp_array).

Definition exec (k : kernel) (m : gmap nat (list float)) : gmap nat (list float) :=
  match k with
  | Copy src dst =>
      match m !! ptr src with
      | Some v => <[ptr dst := v]> m
      | None => m
      end
  | CopyAdjoint src dst =>
      match grad src, grad dst with
      | Some gs, Some gd =>
          match m !! gs, m !! gd with
          | Some vs, Some vd => <[gs := zip_with PrimFloat.add vs vd]> m
          | _, _ => m
          end
      | _, _ => m
      end
  end.

(** [tape.backward()] registers the gradient of every array of a recorded
    launch. *)
Definition register (k : kernel) (g : gmap nat nat) : gmap nat nat :=
  match k with
  | Copy src dst | CopyAdjoint src dst =>
      let g := match grad src with
               | Some gs => <[ptr src := gs]> g
               | None => g
               end in
      match grad dst with
      | Some gd => <[ptr dst := gd]> g
      | None => g
      end
  end.

Definition adjoint (k : kernel) : kernel :=
  match k with
  | Copy src dst | CopyAdjoint src dst => CopyAdjoint src dst
  end.

(** The runtime of the copy physics; [sim_raises] and [backward_raises] make
    the physics update, respectively the reverse pass, raise after its
    kernels were put on the stream. *)
Definition runtime (sim_raises backward_raises : option exn) : Runtime :=
  {| Kernel := kernel;
     exec_kernel := exec;
     sim_update_run := λ c t m,
       let '(state_in, _, state_out) := call_states c in
       match state_in !! "q", state_out !! "q" with
       | Some (AttrArray a), Some (AttrArray b) =>
           (sim_raises,
            {| launches := launches t ++ [Copy a b]; gradients := gradients t |},
            [Copy a b])
       | _, _ => (Some AttributeError, t, [])
       end;
     tape_backward_run := λ t m,
       (backward_raises,
        {| launches := launches t;
           gradients := foldr register (gradients t) (launches t) |},
        adjoint <$> reverse (launches t)) |}.

Definition array (p g : nat) : attr := AttrArray {| ptr := p; grad := Some g |}.

Definition state_0 : gmap string attr := {[ "q" := array 0 1 ]}.
Definition state_1 : gmap string attr := {[ "q" := array 2 3 ]}.
Definition state_0_bwd : gmap string attr := {[ "q" := array 4 5 ]}.
Definition state_1_bwd : gmap string attr := {[ "q" := array 6 7 ]}.
Definition control_0 : gmap string attr := ∅.

Definition the_model : Model := {| model_vars := ∅; shape_geo_src := [] |}.

Definition zeros : list float := [0; 0]%float.

(** The buffers of the four states, [state_0.q] holding [1.5, 2.5], and a
    tensor of ones in buffer 8. *)
Definition memory_0 : gmap nat (list float) :=
  list_to_map [(0, [1.5; 2.5]%float); (1, zeros); (2, zeros); (3, zeros);
               (4, zeros); (5, zeros); (6, zeros); (7, zeros);
               (8, [1; 1]%float)].

Definition sim_params_0 : SimParams :=
  {| sim_substeps := 1; sim_dt := 0.5%float; kinematic_fk := false; eval_ik := false |}.

(** The world after [init_sim]: a persistent tape, no graph. *)
Definition world_0 {R : Runtime} : World :=
  {| mem := memory_0; tapes := {[ 0 := Tape_new ]}; integrator := Integrator_init;
     stream_capture := None; trace := []; stdout := [] |}.

Definition update_params_0 (use_graph_capture : bool) : UpdateParams :=
  {| tape := Some 0; model := the_model;
     use_graph_capture := use_graph_capture; synchronize := false |}.

(** [UpdateFunction.apply] on the tensor of [state_0.q], which views
    buffer 0. *)
Definition forward_0 `{R : Runtime} (use_graph_capture : bool)
    : M World (Ctx * list nat) :=
  forward (update_params_0 use_graph_capture) sim_params_0
    (state_0, [], state_1) control_0 (state_0_bwd, [], state_1_bwd) control_0
    ["q"] [] [] [0].

Definition forward_call `{R : Runtime} (use_graph_capture : bool) : Call :=
  CallForward (update_params_0 use_graph_capture) sim_params_0
    (state_0, [], state_1) control_0 (state_0_bwd, [], state_1_bwd) control_0
    ["q"] [] [] [0].

(** What that call stores on [ctx]. *)
Definition ctx_0 (use_graph_capture : bool) : Ctx :=
  {| ctx_update_params := update_params_0 use_graph_capture;
     ctx_sim_params := sim_params_0;
     ctx_states := (state_0, [], state_1); ctx_control := control_0;
     ctx_states_bwd := (state_0_bwd, [], state_1_bwd); ctx_control_bwd := control_0;
     ctx_state_tensors_names := ["q"]; ctx_model_tensors_names := [];
     ctx_control_tensors_names := [];
     ctx_state_tensors := [0]; ctx_model_tensors := [];
     ctx_control_tensors := []; ctx_mesh_tensors := [] |}.

(** The backward call of the autodiff engine; the adjoint of the output is
    the tensor in buffer 8. *)
Definition backward_call `{R : Runtime} (use_graph_capture : bool) : Call :=
  CallBackward (ctx_0 use_graph_capture) [8].

(** The physics update on the shadow buffers, as captured. *)
Definition shadow_call : SimCall :=
  {| call_update_params := update_params_0 true; call_sim_params := sim_params_0;
     call_states := (state_0_bwd, [], state_1_bwd); call_control := control_0 |}.

Definition q_in_bwd : wp_array := {| ptr := 4; grad := Some 5 |}.
Definition q_out_bwd : wp_array := {| ptr := 6; grad := Some 7 |}.

(** A control with one array, [act], that the copy physics never reads. *)
Definition control_act : gmap string attr := {[ "act" := array 9 10 ]}.
Definition memory_act : gmap nat (list float) :=
  <[9 := [0.25; 0.75]%float]> (<[10 := zeros]> memory_0).
Definition world_act {R : Runtime} : World :=
  {| mem := memory_act; tapes := {[ 0 := Tape_new ]}; integrator := Integrator_init;
     stream_capture := None; trace := []; stdout := [] |}.
(** A call declaring the state array [q] and the control array [act]. *)
Definition forward_act `{R : Runtime} : M World (Ctx * list nat) :=
  forward (update_params_0 false) sim_params_0
    (state_0, [], state_1) control_act (state_0_bwd, [], state_1_bwd) control_0
    ["q"] [] ["act"] [0; 9].
Definition ctx_act : Ctx :=
  {| ctx_update_params := update_params_0 false;
     ctx_sim_params := sim_params_0;
     ctx_states := (state_0, [], state_1); ctx_control := control_act;
     ctx_states_bwd := (state_0_bwd, [], state_1_bwd); ctx_control_bwd := control_0;
     ctx_state_tensors_names := ["q"]; ctx_model_tensors_names := [];
     ctx_control_tensors_names := ["act"];
     ctx_state_tensors := [0]; ctx_model_tensors := [];
     ctx_control_tensors := [9]; ctx_mesh_tensors := [] |}.

End copy_physics.

(** ** A concrete environment *)

Module step_example.
Import warp_env.

(** [model.state(copy="zeros")] and [model.control()] for the copy physics:
    a state with one array [q], a control with one array [act], each array
    and its gradient in two new buffers of zeros. *)
Definition Model_state `{R : autograd.Runtime}
    : M autograd.World (gmap string autograd.attr) :=
  autograd.lift_mem
    (let! p := autograd.alloc copy_physics.zeros in
     let! g := autograd.alloc copy_physics.zeros in
     ret {[ "q" := copy_physics.array p g ]}).

Definition Model_control `{R : autograd.Runtime}
    : M autograd.World (gmap string autograd.attr) :=
  autograd.lift_mem
    (let! p := autograd.alloc copy_physics.zeros in
     let! g := autograd.alloc copy_physics.zeros in
     ret {[ "act" := copy_physics.array p g ]}).

(** Every tensor of the example has one dimension, of two entries. *)
Definition tensor_len (t : nat) : option nat := Some 2.

(** An environment that differentiates, in eager mode, with the state
    tensor [q] and the control tensor [act], on a model that has no array
    [act]. *)
Definition env_0 : WarpEnv :=
  {| no_grad := false; use_graph_capture := false; synchronize := false;
     sim_substeps := 1; sim_dt := 0.5%float; kinematic_fk := false; eval_ik := false;
     model := copy_physics.the_model; tape := None;
     state_0 := {| oid := 0; vars := copy_physics.state_0 |};
     state_1 := {| oid := 1; vars := copy_physics.state_1 |};
     states_mid := None;
     control_0 := {| oid := 2; vars := copy_physics.control_act |};
     state_0_bwd := {| oid := 3; vars := copy_physics.state_0_bwd |};
     state_1_bwd := {| oid := 4; vars := copy_physics.state_1_bwd |};
     states_mid_bwd := [];
     control_0_bwd := {| oid := 5; vars := ∅ |};
     state_tensors_names := ["q"]; control_tensors_names := ["act"];
     state_tensors := Some [0]; control_tensors := Some [9];
     heap := list_to_set [0; 1; 2; 3; 4; 5]; calls := [] |}.

(** The same environment on a model that has an array [act], as the model
    of the walker has an array [tet_activations]. *)
Definition model_act : autograd.Model :=
  {| autograd.model_vars := {[ "act" := copy_physics.array 9 10 ]};
     autograd.shape_geo_src := [] |}.

Definition env_act : WarpEnv :=
  {| no_grad := false; use_graph_capture := false; synchronize := false;
     sim_substeps := 1; sim_dt := 0.5%float; kinematic_fk := false; eval_ik := false;
     model := model_act; tape := None;
     state_0 := {| oid := 0; vars := copy_physics.state_0 |};
     state_1 := {| oid := 1; vars := copy_physics.state_1 |};
     states_mid := None;
     control_0 := {| oid := 2; vars := copy_physics.control_act |};
     state_0_bwd := {| oid := 3; vars := copy_physics.state_0_bwd |};
     state_1_bwd := {| oid := 4; vars := copy_physics.state_1_bwd |};
     states_mid_bwd := [];
     control_0_bwd := {| oid := 5; vars := ∅ |};
     state_tensors_names := ["q"]; control_tensors_names := ["act"];
     state_tensors := Some [0]; control_tensors := Some [9];
     heap := list_to_set [0; 1; 2; 3; 4; 5]; calls := [] |}.

(** The step on the example, in the world of the copy physics. *)
Definition step_0 `{R : autograd.Runtime} : M Sim unit :=
  do_physics_step Model_state Model_control tensor_len (ret tt).

End step_example.

(** * Properties *)

(** ** Reasoning about computations *)

Module py_facts.

Lemma wp_run {S A} (c : M S A) Q s r s' : wp c Q s → c s = (r, s') → Q r s'.
Proof. unfold wp. intros H E. by rewrite E in H. Qed.

Lemma wp_intro {S A} (c : M S A) (Q : result A → S → Prop) s :
  (∀ r s', c s = (r, s') → Q r s') → wp c Q s.
Proof. intros H. unfold wp. apply H. by destruct (c s). Qed.

Lemma wp_mono {S A} (c : M S A) (Q Q' : result A → S → Prop) s :
  wp c Q s → (∀ r s', Q r s' → Q' r s') → wp c Q' s.
Proof. unfold wp. auto. Qed.

Lemma wp_ret {S A} (a : A) (Q : result A → S → Prop) s : Q (Ok a) s → wp (ret a) Q s.
Proof. done. Qed.

Lemma wp_raise {S A} e (Q : result A → S → Prop) s : Q (Raise e) s → wp (raise e) Q s.
Proof. done. Qed.

Lemma wp_bind {S A B} (m : M S A) (k : A → M S B) (Q : result B → S → Prop) s :
  wp m (λ r s1, match r with
                | Ok a => wp (k a) Q s1
                | Raise e => Q (Raise e) s1
                end) s →
  wp (bind m k) Q s.
Proof. unfold wp, bind. by destruct (m s) as [[a|e] s1]. Qed.

Lemma wp_get {S} (Q : result S → S → Prop) s : Q (Ok s) s → wp get Q s.
Proof. done. Qed.

Lemma wp_modify {S} (f : S → S) (Q : result unit → S → Prop) s :
  Q (Ok tt) (f s) → wp (modify f) Q s.
Proof. done. Qed.

Lemma wp_assert {S} (c : bool) (Q : result unit → S → Prop) s :
  (c = true → Q (Ok tt) s) → (c = false → Q (Raise AssertionError) s) →
  wp (assert c) Q s.
Proof.
  intros Ht Hf. destruct c; unfold assert.
  - by apply wp_ret, Ht.
  - by apply wp_raise, Hf.
Qed.

Lemma wp_when {S} (c : bool) (body : M S unit) (Q : result unit → S → Prop) s :
  (c = true → wp body Q s) → (c = false → Q (Ok tt) s) → wp (when c body) Q s.
Proof.
  intros Ht Hf. destruct c; unfold when.
  - by apply Ht.
  - by apply wp_ret, Hf.
Qed.

Lemma wp_try_finally {S A} (body : M S A) (fin : M S unit) (Q : result A → S → Prop) s :
  wp body (λ r s1, wp fin (λ r2 s2, match r2 with
                                    | Ok _ => Q r s2
                                    | Raise e => Q (Raise e) s2
                                    end) s1) s →
  wp (try_finally body fin) Q s.
Proof.
  unfold wp, try_finally. destruct (body s) as [r s1]; cbn.
  by destruct (fin s1) as [[[]|e] s2].
Qed.

Lemma wp_for_each {S A} (I : S → Prop) (l : list A) (body : A → M S unit)
    (Q : result unit → S → Prop) s :
  I s →
  (∀ x s1, x ∈ l → I s1 →
     wp (body x) (λ r s2, match r with
                          | Ok _ => I s2
                          | Raise e => Q (Raise e) s2
                          end) s1) →
  (∀ s1, I s1 → Q (Ok tt) s1) →
  wp (for_each l body) Q s.
Proof.
  revert s. induction l as [|x l IH]; intros s Hs Hbody Hend; cbn.
  - by apply wp_ret, Hend.
  - apply wp_bind. eapply wp_mono; [apply (Hbody x s); [left|done]|].
    intros [[]|e] s1; cbn; [|done]. intros Hs1.
    apply IH; [done| |done]. intros y s2 Hy. apply Hbody. by right.
Qed.

(** A computation that never returns a value. *)
Definition fails {S A} (c : M S A) : Prop := ∀ s, is_Ok (c s).1 = false.

(** A computation respects a preorder on states when every run relates the
    state it starts from to the state it ends in. *)
Definition respects {S A} (R : S → S → Prop) (c : M S A) : Prop :=
  ∀ s, wp c (λ _ s', R s s') s.

Section respects.
Context {S : Type} (R : S → S → Prop) `{!PreOrder R}.

Lemma respects_ret {A} (a : A) : respects R (ret a).
Proof. intros s. by apply wp_ret. Qed.

Lemma respects_raise {A} e : respects R (@raise S A e).
Proof. intros s. by apply wp_raise. Qed.

Lemma respects_get : respects R get.
Proof. intros s. by apply wp_get. Qed.

Lemma respects_bind {A B} (m : M S A) (k : A → M S B) :
  respects R m → (∀ a, respects R (k a)) → respects R (bind m k).
Proof.
  intros Hm Hk s. apply wp_bind. eapply wp_mono; [apply Hm|].
  intros [a|e] s1 H1; [|done].
  eapply wp_mono; [apply Hk|]. intros r s2 H2. cbn in *. by etrans.
Qed.

Lemma respects_when (c : bool) (body : M S unit) :
  respects R body → respects R (when c body).
Proof. intros H. destruct c; [done|apply respects_ret]. Qed.

Lemma respects_assert (c : bool) : respects R (assert c).
Proof. destruct c; [apply respects_ret|apply respects_raise]. Qed.

Lemma wp_respects {A} (c : M S A) (Q : result A → S → Prop) s :
  respects R c → (∀ r s', R s s' → Q r s') → wp c Q s.
Proof. intros Hc HQ. eapply wp_mono; [apply Hc|]. auto. Qed.

End respects.

(** Inversion of a run. *)
Lemma bind_inv {S A B} (m : M S A) (k : A → M S B) s r s' :
  bind m k s = (r, s') →
  (∃ a s1, m s = (Ok a, s1) ∧ k a s1 = (r, s')) ∨
  (∃ e, m s = (Raise e, s') ∧ r = Raise e).
Proof.
  unfold bind. destruct (m s) as [[a|e] s1]; intros E.
  - left. eauto.
  - right. exists e. by inversion E.
Qed.

Lemma bind_inv_Ok {S A B} (m : M S A) (k : A → M S B) s b s' :
  bind m k s = (Ok b, s') → ∃ a s1, m s = (Ok a, s1) ∧ k a s1 = (Ok b, s').
Proof. intros [H|[e [_ H]]]%bind_inv; [done|discriminate]. Qed.

(** A run is its outcome and its final state. *)
Lemma run_eta {S A} (c : M S A) s r : (c s).1 = r → c s = (r, (c s).2).
Proof. destruct (c s). cbn. by intros ->. Qed.

End py_facts.

(** ** warp_mpm_sga/sim/materials.py *)

Module materials_facts.
Import materials.

Lemma get_lame_defined (E nu : float) :
  PrimFloat.eqb (2 * (1 + nu)) 0 = false →
  PrimFloat.eqb ((1 + nu) * (1 - 2 * nu)) 0 = false →
  get_lame (Some E) (Some nu)
  = Ok ((E / (2 * (1 + nu)))%float, (E * nu / ((1 + nu) * (1 - 2 * nu)))%float).
Proof. intros H1 H2. unfold get_lame, truediv. by rewrite H1, H2. Qed.

Lemma eqb_neq (a b : string) : a ≠ b → String.eqb a b = false.
Proof. intros H. by apply String.eqb_neq. Qed.

(** C10.  [get_material] raises [ValueError] for every name other than
    ["plasticine"] and ["water"], whatever the other arguments.  For floats
    [E] and [nu] whose two Lamé denominators are not zero, ["plasticine"]
    gives the material with name [MATL_PLASTICINE], the given [E], [nu] and
    [yield_stress], [mu = E / (2 (1 + nu))] and
    [lam = E nu / ((1 + nu) (1 - 2 nu))]; ["water"] gives the material with
    name [MATL_WATER], the same [E], [nu], [mu] and [lam], and
    [yield_stress] left unset. *)
Theorem get_material_cases (name : string) (oE onu ys : option float) (E nu : float) :
  (name ≠ "plasticine" → name ≠ "water" →
   get_material name oE onu ys = Raise ValueError)
  ∧ (PrimFloat.eqb (2 * (1 + nu)) 0 = false →
     PrimFloat.eqb ((1 + nu) * (1 - 2 * nu)) 0 = false →
     get_material "plasticine" (Some E) (Some nu) ys
     = Ok {| materials.name := MATL_PLASTICINE;
             materials.E := Some E; materials.nu := Some nu;
             yield_stress := ys;
             mu := Some (E / (2 * (1 + nu)))%float;
             lam := Some (E * nu / ((1 + nu) * (1 - 2 * nu)))%float |}
     ∧ get_material "water" (Some E) (Some nu) ys
       = Ok {| materials.name := MATL_WATER;
               materials.E := Some E; materials.nu := Some nu;
               yield_stress := None;
               mu := Some (E / (2 * (1 + nu)))%float;
               lam := Some (E * nu / ((1 + nu) * (1 - 2 * nu)))%float |}).
Proof.
  split.
  - intros H1 H2. unfold get_material.
    by rewrite (eqb_neq _ _ H1), (eqb_neq _ _ H2).
  - intros H1 H2. unfold get_material; cbn [String.eqb Ascii.eqb Bool.eqb].
    rewrite (get_lame_defined E nu H1 H2). by split.
Qed.

(** The water preset of the configuration ([E = 1e5], [nu = 0.25] here),
    plasticine with a yield stress, and an unknown name. *)
Lemma get_material_cases_witness :
  get_material "sand" (Some 100000%float) None None = Raise ValueError
  ∧ (get_material "plasticine" (Some 100000%float) (Some 0.25%float) (Some 1000%float)
     = Ok {| materials.name := 0; materials.E := Some 100000%float;
             materials.nu := Some 0.25%float; yield_stress := Some 1000%float;
             mu := Some 40000%float; lam := Some 40000%float |}
     ∧ get_material "water" (Some 100000%float) (Some 0.25%float) (Some 1000%float)
       = Ok {| materials.name := 1; materials.E := Some 100000%float;
               materials.nu := Some 0.25%float; yield_stress := None;
               mu := Some 40000%float; lam := Some 40000%float |}).
Proof.
  split.
  - apply (get_material_cases "sand" (Some 100000%float) None None 0%float 0%float);
      discriminate.
  - apply (get_material_cases "sand" None None (Some 1000%float) 100000%float 0.25%float);
      reflexivity.
Defined.

End materials_facts.

(** ** autograd.py: the graph cache and the trace of runtime calls *)

Module autograd_facts.
Import py_facts autograd.

Section world.
Context `{R : Runtime}.

Lemma wp_lift_mem {A} (c : M memory A) (Q : result A → World → Prop) w :
  (∀ r m, c (mem w) = (r, m) → Q r (set_mem m w)) → wp (lift_mem c) Q w.
Proof.
  intros H. unfold wp, lift_mem. destruct (c (mem w)) as [r m] eqn:E. by apply H.
Qed.

Lemma trace_issue ks w : trace (issue ks w) = trace w.
Proof. unfold issue. by destruct (stream_capture w). Qed.
Lemma integrator_issue ks w : integrator (issue ks w) = integrator w.
Proof. unfold issue. by destruct (stream_capture w). Qed.
Lemma tapes_issue ks w : tapes (issue ks w) = tapes w.
Proof. unfold issue. by destruct (stream_capture w). Qed.
Lemma stdout_issue ks w : stdout (issue ks w) = stdout w.
Proof. unfold issue. by destruct (stream_capture w). Qed.

Lemma count_captures_app evs1 evs2 :
  count_captures (evs1 ++ evs2) = count_captures evs1 + count_captures evs2.
Proof. induction evs1 as [|[] evs1 IH]; cbn; lia. Qed.

Lemma wp_sim_update up sp st ctl (Q : result unit → World → Prop) w :
  (∀ t, tape up = Some t →
     let c := {| call_update_params := up; call_sim_params := sp;
                 call_states := st; call_control := ctl |} in
     let run := sim_update_run c (the_tape w t) (mem w) in
     Q (outcome run.1.1)
       (issue run.2 (set_tapes (<[t := run.1.2]> (tapes w)) (log (EvSimUpdate c) w)))) →
  (tape up = None → Q (Raise AttributeError) w) →
  wp (sim_update up sp st ctl) Q w.
Proof.
  intros Hs Hn. unfold sim_update. destruct (tape up) as [t|]; [|by apply Hn].
  specialize (Hs t eq_refl). unfold wp. cbn in *.
  by destruct (sim_update_run _ _ _) as [[err tp] ks].
Qed.

Lemma wp_Tape_backward t (Q : result unit → World → Prop) w :
  (let run := tape_backward_run (the_tape w t) (mem w) in
   Q (outcome run.1.1)
     (issue run.2 (set_tapes (<[t := run.1.2]> (tapes w)) (log (EvTapeBackward t) w)))) →
  wp (Tape_backward t) Q w.
Proof.
  intros H. unfold wp, Tape_backward. cbn in *.
  by destruct (tape_backward_run _ _) as [[err tp] ks].
Qed.

Lemma wp_capture_end (Q : result Graph → World → Prop) w :
  Q (Ok (default [] (stream_capture w))) (set_stream_capture None (log EvCaptureEnd w)) →
  wp capture_end Q w.
Proof. done. Qed.

Lemma wp_Tape_alloc (Q : result nat → World → Prop) w :
  (let t := fresh (dom (tapes w)) in Q (Ok t) (set_tapes (<[t := Tape_new]> (tapes w)) w)) →
  wp Tape_alloc Q w.
Proof. done. Qed.

Lemma wp_Tape_zero t (Q : result unit → World → Prop) w :
  (∀ r m, Q r (set_mem m w)) → wp (Tape_zero t) Q w.
Proof. intros H. unfold Tape_zero. apply wp_lift_mem. auto. Qed.

(** The [try] block touches the store and the standard output only. *)
Lemma wp_backward_collect policy ctx (Q : result (list loc) → World → Prop) w :
  (∀ r m out, Q r (set_stdout out (set_mem m w))) →
  wp (backward_collect policy ctx) Q w.
Proof.
  intros H. unfold wp, backward_collect, bind, get, with_local, try_except_KeyError,
    lift_mem_local. cbn.
  destruct (try_body _ _ _ _ _ _ _ _ _) as [[ts|e] [m l]]; cbn.
  - apply (H _ m (stdout w)).
  - destruct e; cbn; try apply (H _ m (stdout w)).
    apply (H _ m (stdout w ++ _)).
Qed.

End world.

Ltac wp_step :=
  lazymatch goal with
  | |- wp (bind _ _) _ _ => apply wp_bind
  | |- wp (ret _) _ _ => apply wp_ret
  | |- wp (raise _) _ _ => apply wp_raise
  | |- wp get _ _ => apply wp_get
  | |- wp (modify _) _ _ => apply wp_modify
  | |- wp (when true _) _ _ => unfold when at 1
  | |- wp (when false _) _ _ => unfold when at 1
  | |- wp (assert true) _ _ => unfold assert at 1
  | |- wp (assert false) _ _ => unfold assert at 1
  | |- wp (lift_mem _) _ _ => apply wp_lift_mem; intros [?|?] ? ?
  | |- wp (try_finally _ _) _ _ => apply wp_try_finally
  | |- wp synchronize_device _ _ => unfold synchronize_device
  | |- wp capture_begin _ _ => unfold capture_begin
  | |- wp capture_end _ _ => apply wp_capture_end
  | |- wp (set_update_graph _) _ _ => unfold set_update_graph
  | |- wp (set_bwd_update_graph _) _ _ => unfold set_bwd_update_graph
  | |- wp (capture_launch (Some _)) _ _ => unfold capture_launch
  | |- wp (capture_launch None) _ _ => unfold capture_launch
  | |- wp Tape_alloc _ _ => apply wp_Tape_alloc
  | |- wp (Tape_zero _) _ _ => apply wp_Tape_zero; intros [?|?] ?
  | |- wp (backward_collect _ _) _ _ => apply wp_backward_collect; intros [?|?] ? ?
  | |- wp (match ?x with (_, _) => _ end) _ _ => destruct x
  end; cbn beta iota zeta.

Ltac wp_to_when :=
  repeat (lazymatch goal with
          | |- wp (bind (when _ _) _) _ _ => fail
          | |- _ => wp_step
          end).

Ltac wp_cbn :=
  cbn [integrator trace tapes stdout mem stream_capture set_mem set_tapes
       set_integrator set_stream_capture set_stdout log update_graph
       bwd_update_graph fst snd outcome is_None].

Ltac wp_simpl_goal :=
  wp_cbn; rewrite ?trace_issue, ?integrator_issue, ?tapes_issue, ?stdout_issue; wp_cbn.

Section graph_cache.
Context `{R : Runtime}.

(** A forward call that finds a stored forward graph replays it. *)
Lemma forward_ready up sp st ctl stb ctlb ns nm nc ts w g :
  use_graph_capture up = true →
  update_graph (integrator w) = Some g →
  wp (forward up sp st ctl stb ctlb ns nm nc ts)
     (λ r w', integrator w' = integrator w
              ∧ (∀ x, r = Ok x →
                 trace w' = trace w ++ sync_events (synchronize up)
                            ++ [EvCaptureLaunch g] ++ sync_events (synchronize up))) w.
Proof.
  intros Hcap Hg. unfold forward. destruct st as [[state_in states_mid] state_out].
  destruct stb as [[state_in_bwd states_mid_bwd] state_out_bwd].
  rewrite Hcap.
  destruct (synchronize up), (tape up) as [t|]; cbn [when sync_events].
  all: repeat first [wp_step | progress (wp_simpl_goal; rewrite ?Hg)].
  all: split; [done|]; intros; try discriminate.
  all: repeat (progress wp_simpl_goal); rewrite <- ?app_assoc, ?app_nil_r; cbn [app]; done.
Qed.

Lemma capture_graphs_run up sp stb ctlb t w :
  tape up = Some t →
  bwd_update_graph (integrator w) = None →
  let c := {| call_update_params := up; call_sim_params := sp;
              call_states := stb; call_control := ctlb |} in
  let run1 := sim_update_run c (the_tape w t) (mem w) in
  let run2 := tape_backward_run run1.1.2 (mem w) in
  let first := [EvCaptureBegin; EvSimUpdate c; EvCaptureEnd] in
  wp (capture_graphs up sp stb ctlb t)
     (λ r w',
        match run1.1.1 with
        | Some e =>
            r = Raise e
            ∧ integrator w' = {| update_graph := Some run1.2; bwd_update_graph := None |}
            ∧ trace w' = trace w ++ first
        | None =>
            r = outcome run2.1.1
            ∧ integrator w'
              = {| update_graph := Some run1.2; bwd_update_graph := Some run2.2 |}
            ∧ trace w' = (trace w ++ first)
                         ++ [EvCaptureBegin; EvTapeBackward t; EvCaptureEnd]
        end) w.
Proof.
  intros Ht Hb c run1 run2 first. unfold capture_graphs.
  wp_step. wp_step. rewrite Hb. cbn [is_None].
  repeat wp_step.
  apply wp_sim_update; [|by rewrite Ht]; intros t' Ht';
    assert (t' = t) as -> by congruence; cbn zeta.
  unfold the_tape, issue; wp_simpl_goal; fold (the_tape w t); fold c; fold run1.
  repeat wp_step. wp_simpl_goal. cbn [default from_option id app].
  destruct (run1.1.1) as [e|] eqn:E1; cbn [outcome].
  { rewrite Hb. repeat split; try done. by rewrite <- ?app_assoc. }
  repeat wp_step.
  apply wp_Tape_backward; cbn zeta.
  unfold the_tape, issue; wp_simpl_goal; rewrite lookup_insert_eq.
  cbn [default from_option id app]; fold run2.
  repeat wp_step. wp_simpl_goal. cbn [default from_option id app].
  destruct (run2.1.1) as [e|]; cbn [outcome].
  all: repeat split; try done; by rewrite <- ?app_assoc.
Qed.

Lemma forward_first up sp st ctl stb ctlb ns nm nc ts w t :
  use_graph_capture up = true →
  tape up = Some t →
  update_graph (integrator w) = None →
  bwd_update_graph (integrator w) = None →
  let c := {| call_update_params := up; call_sim_params := sp;
              call_states := stb; call_control := ctlb |} in
  let run1 := sim_update_run c (the_tape w t) (mem w) in
  let run2 := tape_backward_run run1.1.2 (mem w) in
  let pre := trace w ++ sync_events (synchronize up)
             ++ [EvCaptureBegin; EvSimUpdate c; EvCaptureEnd] in
  wp (forward up sp st ctl stb ctlb ns nm nc ts)
     (λ r w',
        match run1.1.1 with
        | Some e =>
            r = Raise e
            ∧ integrator w' = {| update_graph := Some run1.2; bwd_update_graph := None |}
            ∧ trace w' = pre
        | None =>
            integrator w'
            = {| update_graph := Some run1.2; bwd_update_graph := Some run2.2 |}
            ∧ match run2.1.1 with
              | Some e =>
                  r = Raise e
                  ∧ trace w' = pre ++ [EvCaptureBegin; EvTapeBackward t; EvCaptureEnd]
              | None =>
                  ∀ x, r = Ok x →
                  trace w' = pre ++ [EvCaptureBegin; EvTapeBackward t; EvCaptureEnd;
                                     EvCaptureLaunch run1.2]
                             ++ sync_events (synchronize up)
              end
        end) w.
Proof.
  intros Hcap Ht Hg Hb c run1 run2 pre. unfold forward.
  destruct st as [[state_in states_mid] state_out].
  rewrite Hcap, Ht.
  assert (∀ w1, mem w1 = mem w → tapes w1 = tapes w → integrator w1 = integrator w →
    trace w1 = trace w ++ sync_events (synchronize up) →
    wp (capture_graphs up sp stb ctlb t)
       (λ r w',
        match run1.1.1 with
        | Some e =>
            r = Raise e
            ∧ integrator w' = {| update_graph := Some run1.2; bwd_update_graph := None |}
            ∧ trace w' = pre
        | None =>
            r = outcome run2.1.1
            ∧ integrator w'
              = {| update_graph := Some run1.2; bwd_update_graph := Some run2.2 |}
            ∧ trace w' = pre ++ [EvCaptureBegin; EvTapeBackward t; EvCaptureEnd]
        end) w1) as Hblock.
  { intros w1 Hm Htp Hi Htr.
    eapply wp_mono; [apply capture_graphs_run; [done|by rewrite Hi]|].
    cbn zeta. unfold the_tape. rewrite Hm, Htp, Htr. fold (the_tape w t).
    fold c. fold run1. fold run2. subst pre.
    intros r w'. by rewrite <- !app_assoc. }
  destruct stb as [[state_in_bwd states_mid_bwd] state_out_bwd].
  wp_step.
  destruct (synchronize up); cbn [when sync_events] in *.
  all: wp_step; wp_to_when; wp_step; wp_simpl_goal; rewrite Hg; cbn [is_None when].
  all: (eapply wp_mono; [by apply Hblock; wp_simpl_goal; rewrite ?app_nil_r|]);
    clear Hblock.
  all: intros r1 w1; destruct (run1.1.1) as [e1|]; [by intros (-> & ? & ?)|].
  all: intros (-> & Hi1 & Htr1); destruct (run2.1.1) as [e2|]; cbn [outcome]; [done|].
  all: repeat first [wp_step | progress (wp_simpl_goal; rewrite ?Hi1, ?Htr1)].
  all: split; [done|]; intros; try done; subst pre; by rewrite <- ?app_assoc.
Qed.

#[local] Instance quiet_preorder : PreOrder quiet.
Proof.
  split.
  - by intros w.
  - intros w1 w2 w3 [H1 H2] [H3 H4]. split; congruence.
Qed.

#[local] Instance capture_step_preorder : PreOrder capture_step.
Proof.
  split.
  - intros w. by left.
  - intros w1 w2 w3 [[H1 H2]|(H1 & H2 & H3)] [[H4 H5]|(H4 & H5 & H6)].
    + left. split; congruence.
    + right. repeat split; [congruence|done|lia].
    + right. repeat split; [done|congruence|lia].
    + done.
Qed.

Lemma respects_lift_mem {A} (R' : World → World → Prop) (c : M memory A) :
  (∀ w m, R' w (set_mem m w)) → respects R' (lift_mem c).
Proof. intros H w. apply wp_lift_mem. auto. Qed.

Ltac count_simpl :=
  repeat (progress (wp_simpl_goal; rewrite ?count_captures_app;
                    cbn [count_captures app])).

Ltac close_quiet :=
  intros; unfold quiet; count_simpl; split; [done|lia].

Lemma respects_synchronize_device : respects quiet synchronize_device.
Proof. intros w. apply wp_modify. close_quiet. Qed.

Lemma respects_capture_launch g : respects quiet (capture_launch g).
Proof. intros w. destruct g; [apply wp_modify|apply wp_raise]; close_quiet. Qed.

Lemma respects_sim_update up sp st ctl : respects quiet (sim_update up sp st ctl).
Proof. intros w. apply wp_sim_update; close_quiet. Qed.

Lemma respects_Tape_backward t : respects quiet (Tape_backward t).
Proof. intros w. apply wp_Tape_backward. close_quiet. Qed.

Lemma respects_Tape_alloc : respects quiet Tape_alloc.
Proof. intros w. apply wp_Tape_alloc. close_quiet. Qed.

Lemma respects_Tape_zero t : respects quiet (Tape_zero t).
Proof. intros w. apply wp_Tape_zero. close_quiet. Qed.

Lemma respects_backward_collect policy ctx : respects quiet (backward_collect policy ctx).
Proof. intros w. apply wp_backward_collect. close_quiet. Qed.

Lemma respects_quiet_lift_mem {A} (c : M memory A) : respects quiet (lift_mem c).
Proof. apply respects_lift_mem. close_quiet. Qed.

Ltac solve_quiet :=
  repeat first
    [ apply respects_quiet_lift_mem
    | apply respects_synchronize_device
    | apply respects_capture_launch
    | apply respects_sim_update
    | apply respects_Tape_backward
    | apply respects_Tape_alloc
    | apply respects_Tape_zero
    | apply respects_backward_collect
    | apply respects_ret; [apply _]
    | apply respects_raise; [apply _]
    | apply respects_get; [apply _]
    | apply respects_when; [apply _|]
    | apply respects_assert; [apply _]
    | apply respects_bind; [apply _| |intros ?]
    | match goal with
      | |- respects _ (match ?x with (_, _) => _ end) => destruct x
      | |- respects _ (match ?x with Some _ => _ | None => _ end) => destruct x
      | |- respects _ (if ?x then _ else _) => destruct x
      end ].

Lemma respects_backward policy ctx adj : respects quiet (backward_with policy ctx adj).
Proof.
  unfold backward_with, backward_reverse.
  destruct (ctx_states ctx) as [[state_in states_mid] state_out].
  destruct (ctx_states_bwd ctx) as [[state_in_bwd states_mid_bwd] state_out_bwd].
  solve_quiet.
Qed.

Lemma capture_graphs_step up sp stb ctlb t w :
  update_graph (integrator w) = None →
  wp (capture_graphs up sp stb ctlb t) (λ _ w', capture_step w w') w.
Proof.
  intros Hg. unfold capture_graphs.
  wp_step. wp_step. wp_step. apply wp_assert; intros _; [|by left].
  repeat wp_step.
  apply wp_sim_update; [intros t' Ht'; cbn zeta|intros Ht'].
  all: repeat wp_step; wp_simpl_goal.
  - destruct (sim_update_run _ _ _) as [[[e|] tp] ks]; cbn [outcome fst snd].
    + right. count_simpl. repeat split; [done|done|lia].
    + repeat wp_step.
      apply wp_Tape_backward; cbn zeta.
      repeat wp_step; wp_simpl_goal.
      destruct (tape_backward_run _ _) as [[[e|] tp2] ks2]; cbn [outcome fst snd].
      all: right; count_simpl; repeat split; [done|done|lia].
  - right. count_simpl. repeat split; [done|done|lia].
Qed.

Lemma respects_weaken {A} (R1 R2 : World → World → Prop) (c : M World A) :
  (∀ w w', R1 w w' → R2 w w') → respects R1 c → respects R2 c.
Proof. intros H Hc w. eapply wp_mono; [apply Hc|]. cbn. auto. Qed.

Ltac quiet_step :=
  apply (respects_weaken quiet capture_step); [by left|solve_quiet].

Lemma forward_capture_step up sp st ctl stb ctlb ns nm nc ts :
  respects capture_step (forward up sp st ctl stb ctlb ns nm nc ts).
Proof.
  unfold forward. destruct st as [[state_in states_mid] state_out].
  destruct stb as [[state_in_bwd states_mid_bwd] state_out_bwd].
  apply respects_bind; [apply _|quiet_step|intros _].
  apply respects_bind; [apply _|quiet_step|intros [t up']].
  apply respects_bind; [apply _| |intros _; quiet_step].
  destruct (use_graph_capture up); [|quiet_step].
  intros w. wp_step. wp_step. wp_step.
  destruct (update_graph (integrator w)) as [g|] eqn:Hg; cbn [is_None when].
  - wp_step. apply (wp_respects capture_step); [quiet_step|done].
  - eapply wp_mono; [by apply capture_graphs_step|]. cbn beta.
    intros [[]|e] w1 H1; [|done].
    apply (wp_respects capture_step); [quiet_step|].
    intros r w2 H2. by etrans.
Qed.
(** A backward call in graph-capture mode replays the two stored graphs. *)
Lemma backward_reverse_ready ctx adj w g1 g2 :
  use_graph_capture (ctx_update_params ctx) = true →
  update_graph (integrator w) = Some g1 →
  bwd_update_graph (integrator w) = Some g2 →
  wp (backward_reverse ctx adj)
     (λ r w', ∀ x, r = Ok x →
        trace w' = trace w ++ sync_events (synchronize (ctx_update_params ctx))
                   ++ [EvCaptureLaunch g1; EvCaptureLaunch g2]
                   ++ sync_events (synchronize (ctx_update_params ctx))) w.
Proof.
  intros Hcap Hg Hb. unfold backward_reverse.
  destruct (ctx_states ctx) as [[state_in states_mid] state_out].
  destruct (ctx_states_bwd ctx) as [[state_in_bwd states_mid_bwd] state_out_bwd].
  rewrite Hcap.
  destruct (tape (ctx_update_params ctx)) as [t|];
    [|repeat wp_step; intros; discriminate].
  destruct (synchronize (ctx_update_params ctx)); cbn [when sync_events].
  all: repeat first [wp_step | progress (wp_simpl_goal; rewrite ?Hg, ?Hb)
                    | apply wp_assert; intros _].
  all: intros; try discriminate.
  all: repeat (progress wp_simpl_goal); rewrite <- ?app_assoc, ?app_nil_r; cbn [app]; done.
Qed.

(** What follows the reverse pass makes no runtime call. *)
Lemma backward_trace policy ctx adj w :
  wp (backward_with policy ctx adj)
     (λ r w', ∀ x, r = Ok x →
        ∃ w1, backward_reverse ctx adj w = (Ok tt, w1) ∧ trace w' = trace w1) w.
Proof.
  unfold backward_with. apply wp_bind, wp_intro. intros [[]|e] w1 E1; [|done].
  destruct (tape (ctx_update_params ctx)) as [t|], (zero_nans policy); cbn [when].
  all: repeat first [wp_step | progress wp_simpl_goal].
  all: intros; try discriminate; by exists w1.
Qed.

Lemma backward_ready policy ctx adj w g1 g2 :
  use_graph_capture (ctx_update_params ctx) = true →
  update_graph (integrator w) = Some g1 →
  bwd_update_graph (integrator w) = Some g2 →
  wp (backward_with policy ctx adj)
     (λ r w', ∀ x, r = Ok x →
        trace w' = trace w ++ sync_events (synchronize (ctx_update_params ctx))
                   ++ [EvCaptureLaunch g1; EvCaptureLaunch g2]
                   ++ sync_events (synchronize (ctx_update_params ctx))) w.
Proof.
  intros Hcap Hg Hb. eapply wp_mono; [apply backward_trace|]. cbn beta.
  intros r w' H x ->. destruct (H x eq_refl) as (w1 & E1 & ->).
  by eapply (wp_run _ _ _ _ _ (backward_reverse_ready ctx adj w g1 g2 Hcap Hg Hb) E1).
Qed.


Lemma run_call_capture_step c w : capture_step w (run_call c w).
Proof.
  destruct c as [up sp st ctl stb ctlb ns nm nc ts|ctx adj]; cbn [run_call].
  - apply forward_capture_step.
  - left. apply (respects_backward default_policy ctx adj w).
Qed.

Lemma run_calls_captures cs w n :
  (update_graph (integrator w) = None ∧ count_captures (trace w) = n)
  ∨ (update_graph (integrator w) ≠ None ∧ count_captures (trace w) ≤ n + 2) →
  count_captures (trace (run_calls cs w)) ≤ n + 2.
Proof.
  revert w. induction cs as [|c cs IH]; intros w Hinv; cbn [run_calls foldl].
  - destruct Hinv as [[_ ->]|[_ H]]; lia.
  - apply IH. destruct (run_call_capture_step c w) as [[Hi Hc]|(Hn & Hs & Hc)].
    + rewrite Hi, Hc. done.
    + right. split; [done|]. destruct Hinv as [[_ <-]|[H _]]; [lia|done].
Qed.

(** C1 (as amended).  In graph-capture mode, with a tape and the integrator
    as [init_sim] leaves it, a first forward call that returns has captured
    exactly two graphs in order, the physics update on the shadow buffers
    under the tape as [update_graph] and then the tape's reverse pass as
    [bwd_update_graph], and has replayed the forward graph.  A forward call
    that finds a stored forward graph leaves the integrator as it is and
    only replays that graph.  A backward call that finds the two stored
    graphs leaves the integrator as it is and replays the forward graph and
    then the backward graph, capturing nothing.  Along every sequence of
    forward and backward calls from the initial integrator, whatever their
    arguments and outcomes, at most two captures are begun: capture happens
    at most once. *)
Theorem capture_happens_once :
  (∀ up sp st ctl stb ctlb ns nm nc ts w t x w',
     use_graph_capture up = true → tape up = Some t →
     integrator w = Integrator_init →
     forward up sp st ctl stb ctlb ns nm nc ts w = (Ok x, w') →
     let c := {| call_update_params := up; call_sim_params := sp;
                 call_states := stb; call_control := ctlb |} in
     let run1 := sim_update_run c (the_tape w t) (mem w) in
     let run2 := tape_backward_run run1.1.2 (mem w) in
     integrator w' = {| update_graph := Some run1.2; bwd_update_graph := Some run2.2 |}
     ∧ trace w' = trace w ++ sync_events (synchronize up)
                  ++ [EvCaptureBegin; EvSimUpdate c; EvCaptureEnd;
                      EvCaptureBegin; EvTapeBackward t; EvCaptureEnd;
                      EvCaptureLaunch run1.2]
                  ++ sync_events (synchronize up))
  ∧ (∀ up sp st ctl stb ctlb ns nm nc ts w g x w',
       use_graph_capture up = true →
       update_graph (integrator w) = Some g →
       forward up sp st ctl stb ctlb ns nm nc ts w = (Ok x, w') →
       integrator w' = integrator w
       ∧ trace w' = trace w ++ sync_events (synchronize up)
                    ++ [EvCaptureLaunch g] ++ sync_events (synchronize up))
  ∧ (∀ ctx adj w g1 g2 x w',
       use_graph_capture (ctx_update_params ctx) = true →
       update_graph (integrator w) = Some g1 →
       bwd_update_graph (integrator w) = Some g2 →
       backward ctx adj w = (Ok x, w') →
       integrator w' = integrator w
       ∧ trace w' = trace w ++ sync_events (synchronize (ctx_update_params ctx))
                    ++ [EvCaptureLaunch g1; EvCaptureLaunch g2]
                    ++ sync_events (synchronize (ctx_update_params ctx)))
  ∧ (∀ cs w,
       integrator w = Integrator_init →
       count_captures (trace (run_calls cs w)) ≤ count_captures (trace w) + 2).
Proof.
  split; [|split; [|split]].
  - intros up sp st ctl stb ctlb ns nm nc ts w t x w' Hcap Ht Hi Hrun c run1 run2.
    pose proof (forward_first up sp st ctl stb ctlb ns nm nc ts w t Hcap Ht) as Hf.
    rewrite Hi in Hf. specialize (Hf eq_refl eq_refl). cbn zeta in Hf.
    fold c run1 run2 in Hf.
    pose proof (wp_run _ _ _ _ _ Hf Hrun) as H. cbn beta in H.
    destruct (run1.1.1); [by destruct H|]. destruct H as [H1 H2]. split; [done|].
    destruct (run2.1.1); [by destruct H2|].
    rewrite (H2 x eq_refl). by rewrite <- !app_assoc.
  - intros up sp st ctl stb ctlb ns nm nc ts w g x w' Hcap Hg Hrun.
    pose proof (wp_run _ _ _ _ _
      (forward_ready up sp st ctl stb ctlb ns nm nc ts w g Hcap Hg) Hrun) as [H1 H2].
    split; [done|]. by apply (H2 x).
  - intros ctx adj w g1 g2 x w' Hcap Hg Hb Hrun. split.
    + by pose proof (wp_run _ _ _ _ _
        (respects_backward default_policy ctx adj w) Hrun) as [H _].
    + by apply (wp_run _ _ _ _ _
        (backward_ready default_policy ctx adj w g1 g2 Hcap Hg Hb) Hrun x).
  - intros cs w Hi. apply run_calls_captures. left. by rewrite Hi.
Qed.

(** C3 (as amended).  In graph-capture mode, on the first forward call: if
    the physics update raises during the first capture, [forward] raises
    that exception having launched no graph, the [finally] clause has stored
    what was recorded as [update_graph], and [bwd_update_graph] is still
    unset; if the tape's reverse pass raises during the second capture,
    [forward] raises that exception having launched no graph, and both
    graphs are stored. *)
Theorem capture_failure_stores_graph up sp st ctl stb ctlb ns nm nc ts w t e :
  use_graph_capture up = true → tape up = Some t →
  integrator w = Integrator_init →
  let c := {| call_update_params := up; call_sim_params := sp;
              call_states := stb; call_control := ctlb |} in
  let run1 := sim_update_run c (the_tape w t) (mem w) in
  let run2 := tape_backward_run run1.1.2 (mem w) in
  let first := trace w ++ sync_events (synchronize up)
               ++ [EvCaptureBegin; EvSimUpdate c; EvCaptureEnd] in
  (run1.1.1 = Some e →
   ∃ w', forward up sp st ctl stb ctlb ns nm nc ts w = (Raise e, w')
         ∧ integrator w' = {| update_graph := Some run1.2; bwd_update_graph := None |}
         ∧ trace w' = first)
  ∧ (run1.1.1 = None → run2.1.1 = Some e →
     ∃ w', forward up sp st ctl stb ctlb ns nm nc ts w = (Raise e, w')
           ∧ integrator w'
             = {| update_graph := Some run1.2; bwd_update_graph := Some run2.2 |}
           ∧ trace w' = first ++ [EvCaptureBegin; EvTapeBackward t; EvCaptureEnd]).
Proof.
  intros Hcap Ht Hi c run1 run2 first.
  pose proof (forward_first up sp st ctl stb ctlb ns nm nc ts w t Hcap Ht) as Hf.
  rewrite Hi in Hf. specialize (Hf eq_refl eq_refl). cbn zeta in Hf.
  fold c run1 run2 first in Hf. unfold wp in Hf.
  destruct (forward up sp st ctl stb ctlb ns nm nc ts w) as [r w'].
  cbn [fst snd] in Hf. split.
  - intros E1. rewrite E1 in Hf. destruct Hf as (-> & ? & ?). by exists w'.
  - intros E1 E2. rewrite E1, E2 in Hf. destruct Hf as (? & -> & ?). by exists w'.
Qed.

End graph_cache.

(** *** The store *)

Section store.
Implicit Types (m : gmap nat (list float)) (G : gmap nat nat).

Lemma fresh_None m : m !! fresh (dom m) = None.
Proof. apply not_elem_of_dom, is_fresh. Qed.

Lemma clone_run t m :
  clone t m = match m !! t with
              | Some v => (Ok (fresh (dom m)), <[fresh (dom m) := v]> m)
              | None => (Raise RuntimeError, m)
              end.
Proof. unfold clone, bind, read, alloc. by destruct (m !! t). Qed.

Lemma map_new_run f t m :
  map_new f t m = match m !! t with
                  | Some v => (Ok (fresh (dom m)), <[fresh (dom m) := f <$> v]> m)
                  | None => (Raise RuntimeError, m)
                  end.
Proof. unfold map_new, bind, read, alloc. by destruct (m !! t). Qed.

Lemma update_inplace_run f t m :
  update_inplace f t m = match m !! t with
                         | Some v => (Ok tt, <[t := f <$> v]> m)
                         | None => (Raise RuntimeError, m)
                         end.
Proof.
  unfold update_inplace, bind, read, write. destruct (m !! t) eqn:E; [|done].
  by rewrite E.
Qed.

Lemma insert_fresh_subseteq m v : m ⊆ <[fresh (dom m) := v]> m.
Proof. apply insert_subseteq, fresh_None. Qed.

Lemma declared_gradient_Ok G x name g :
  declared_gradient G x name = Ok g → ∃ a, G !! a = Some g.
Proof.
  unfold declared_gradient. destruct (x !! name) as [[a|]|]; [|done..].
  destruct (G !! ptr a) as [g'|] eqn:E; [|done]. intros [= <-]. eauto.
Qed.

(** One read of the [try] block, by the outcome of the dictionary lookup. *)
Lemma read_adjoint_run policy G x name m :
  match declared_gradient G x name with
  | Raise e => read_adjoint policy G x name m = (Raise e, m)
  | Ok g =>
      match m !! g with
      | None => read_adjoint policy G x name m = (Raise RuntimeError, m)
      | Some v => ∃ t m', read_adjoint policy G x name m = (Ok t, m')
                          ∧ m ⊆ m' ∧ m !! t = None
                          ∧ m' !! t = Some (postprocess policy <$> v)
      end
  end.
Proof.
  unfold declared_gradient, read_adjoint, getattr, gradients_lookup, postprocess.
  destruct (x !! name) as [[a|]|]; [|reflexivity..]. cbn.
  destruct (G !! ptr a) as [g|]; [|reflexivity]. cbn.
  destruct (m !! g) as [v|] eqn:Hg;
    unfold bind at 1, to_torch; rewrite clone_run, Hg; [|reflexivity].
  set (t1 := fresh (dom m)). set (m1 := <[t1 := v]> m).
  assert (m ⊆ m1) as H1 by apply insert_fresh_subseteq.
  assert (m !! t1 = None) as Ht1 by apply fresh_None.
  destruct (rescale_grad policy) as [r|], (clip_grad policy) as [c|]; cbn.
  - unfold bind at 1. rewrite update_inplace_run. unfold m1 at 1. rewrite lookup_insert_eq.
    set (m2 := <[t1 := _]> m1).
    unfold bind. rewrite map_new_run. unfold m2 at 1. rewrite lookup_insert_eq.
    set (t3 := fresh (dom m2)). set (m3 := <[t3 := _]> m2).
    rewrite map_new_run. unfold m3 at 1. rewrite lookup_insert_eq.
    set (t4 := fresh (dom m3)).
    assert (m ⊆ m2) as H2.
    { unfold m2, m1. rewrite insert_insert_eq. by apply insert_subseteq. }
    assert (m2 ⊆ m3) as H3 by apply insert_fresh_subseteq.
    eexists _, _. split; [done|]. split; [|split].
    + etrans; [exact H2|]. etrans; [exact H3|]. apply insert_fresh_subseteq.
    + eapply lookup_weaken_None; [apply (fresh_None m3)|]. by etrans.
    + rewrite lookup_insert_eq. by rewrite <- !list_fmap_compose.
  - unfold bind at 1. rewrite update_inplace_run. unfold m1 at 1. rewrite lookup_insert_eq.
    eexists _, _. split; [done|]. split; [|split; [done|]].
    + unfold m1. rewrite insert_insert_eq. by apply insert_subseteq.
    + by rewrite lookup_insert_eq.
  - unfold bind. rewrite map_new_run. unfold m1 at 1. rewrite lookup_insert_eq.
    set (t3 := fresh (dom m1)). set (m3 := <[t3 := _]> m1).
    rewrite map_new_run. unfold m3 at 1. rewrite lookup_insert_eq.
    assert (m1 ⊆ m3) as H3 by apply insert_fresh_subseteq.
    eexists _, _. split; [done|]. split; [|split].
    + etrans; [exact H1|]. etrans; [exact H3|]. apply insert_fresh_subseteq.
    + eapply lookup_weaken_None; [apply (fresh_None m3)|]. by etrans.
    + rewrite lookup_insert_eq. by rewrite <- !list_fmap_compose.
  - eexists _, _. split; [done|]. split; [done|]. split; [done|].
    unfold m1. rewrite lookup_insert_eq. by rewrite list_fmap_id.
Qed.

End store.

(** *** The loops of the [try] block *)

Section read_loops.
Implicit Types (m : gmap nat (list float)) (G : gmap nat nat).

Lemma cloned_from_weaken m0 m m' m'' f g t :
  m0 ⊆ m → m' ⊆ m'' → cloned_from m m' f g t → cloned_from m0 m'' f g t.
Proof.
  intros H0 H1 (mi & v & Hi & Hg & Ht & Hv). exists mi, v.
  split; [by etrans|]. split; [done|]. split; [done|].
  by eapply lookup_weaken.
Qed.

Lemma cloned_from_live m m' f g t v :
  m !! g = Some v → cloned_from m m' f g t →
  m !! t = None ∧ m' !! t = Some (f <$> v).
Proof.
  intros Hg (mi & v' & Hi & Hg' & Ht & Hv).
  rewrite (lookup_weaken _ _ _ _ Hg Hi) in Hg'. injection Hg' as <-.
  split; [|done]. by eapply lookup_weaken_None.
Qed.

Lemma for_collect_app_run {S A B} (l1 l2 : list A) (body : A → M S B) s :
  for_collect (l1 ++ l2) body s
  = match for_collect l1 body s with
    | (Ok a, s1) =>
        match for_collect l2 body s1 with
        | (Ok b, s2) => (Ok (a ++ b), s2)
        | (Raise e, s2) => (Raise e, s2)
        end
    | (Raise e, s1) => (Raise e, s1)
    end.
Proof.
  revert s. induction l1 as [|x l1 IH]; intros s; cbn.
  - by destruct (for_collect l2 body s) as [[b|e] s2].
  - unfold bind at 1 3. destruct (body x s) as [[y|e] s1]; [|done].
    unfold bind. rewrite IH. destruct (for_collect l1 body s1) as [[a|e] s2]; [|done].
    unfold ret. by destruct (for_collect l2 body s2) as [[b|e] s3].
Qed.

Lemma for_collect_fmap_run {S A A' B} (f : A' → A) (l : list A') (body : A → M S B) s :
  for_collect (f <$> l) body s = for_collect l (λ x, body (f x)) s.
Proof.
  revert s. induction l as [|x l IH]; intros s; cbn; [done|].
  unfold bind. destruct (body (f x) s) as [[y|e] s1]; [|done]. by rewrite IH.
Qed.

Lemma read_declared_run policy G p m l :
  read_declared policy G p (m, l)
  = ((read_adjoint policy G p.1 p.2 m).1, ((read_adjoint policy G p.1 p.2 m).2, Some p.2)).
Proof.
  unfold read_declared, bind, set_local, modify, lift_outer.
  by destruct (read_adjoint _ _ _ _ _).
Qed.

(** The [try] block is one pass over the declared inputs followed by the
    pass over the meshes. *)
Lemma try_body_flat policy G state_in model control ns nm nc s :
  try_body policy G state_in model control ns nm nc s
  = (let! named := for_collect (((λ n, (state_in, n)) <$> ns)
                                ++ ((λ n, (model_vars model, n)) <$> nm)
                                ++ ((λ n, (control, n)) <$> nc))
                     (read_declared policy G) in
     let! mesh := lift_outer (read_mesh_adjoints (shape_geo_src model)) in
     ret (named ++ mesh)) s.
Proof.
  unfold try_body, read_loop, bind.
  rewrite for_collect_app_run, for_collect_fmap_run. unfold read_declared at 1. cbn [fst snd].
  destruct (for_collect ns _ s) as [[a|e] s1]; [|done].
  rewrite for_collect_app_run, for_collect_fmap_run. unfold read_declared at 1. cbn [fst snd].
  destruct (for_collect nm _ s1) as [[b|e] s2]; [|done].
  rewrite for_collect_fmap_run. unfold read_declared at 1. cbn [fst snd].
  destruct (for_collect nc _ s2) as [[c|e] s3]; [|done].
  destruct (lift_outer _ s3) as [[d|e] s4]; [|done].
  cbn. by rewrite !app_assoc.
Qed.

(** A pass over declared inputs only allocates; when it completes, every
    input had a gradient array and its adjoint is the post-processed clone;
    when it stops, the local [name] is the input it stopped at. *)
Lemma read_declared_loop policy G ps m l :
  match for_collect ps (read_declared policy G) (m, l) with
  | (Ok ts, (m', _)) =>
      m ⊆ m'
      ∧ Forall2 (λ p t, ∃ g, declared_gradient G p.1 p.2 = Ok g
                             ∧ cloned_from m m' (postprocess policy) g t) ps ts
  | (Raise e, (m', l')) =>
      m ⊆ m'
      ∧ ∃ p, p ∈ ps ∧ l' = Some p.2
             ∧ (e = KeyError → declared_gradient G p.1 p.2 = Raise KeyError)
  end.
Proof.
  revert m l. induction ps as [|p ps IH]; intros m l; cbn; [by split|].
  unfold bind at 1. rewrite read_declared_run.
  pose proof (read_adjoint_run policy G p.1 p.2 m) as Hr.
  destruct (declared_gradient G p.1 p.2) as [g|e] eqn:Hd.
  - destruct (m !! g) as [v|] eqn:Hg.
    + destruct Hr as (t & m1 & -> & H1 & Ht & Hv). cbn [fst snd].
      unfold bind. specialize (IH m1 (Some p.2)).
      destruct (for_collect ps _ _) as [[ts|e] [m' l']].
      * destruct IH as [H2 IH]. split; [by etrans|]. constructor.
        -- exists g. split; [done|]. exists m, v. split; [done|]. split; [done|].
           split; [done|]. by eapply lookup_weaken.
        -- eapply Forall2_impl; [exact IH|]. intros q t' (g' & Hq & Hc).
           exists g'. split; [done|].
           eapply cloned_from_weaken; [exact H1|reflexivity|exact Hc].
      * destruct IH as [H2 (q & Hq & Hl & He)]. split; [by etrans|].
        exists q. split; [by right|]. done.
    + rewrite Hr. cbn. split; [done|]. exists p. split; [left|]. split; [done|]. done.
  - rewrite Hr. cbn. split; [done|]. exists p. split; [left|]. split; [done|].
    by intros ->.
Qed.

(** The first declared input without a gradient array stops the pass with
    its error, [name] being that input. *)
Lemma read_declared_missing policy G pre p post e m l :
  (∀ a g, G !! a = Some g → is_Some (m !! g)) →
  Forall (λ q, is_Ok (declared_gradient G q.1 q.2) = true) pre →
  declared_gradient G p.1 p.2 = Raise e →
  ∃ m', for_collect (pre ++ p :: post) (read_declared policy G) (m, l)
        = (Raise e, (m', Some p.2)) ∧ m ⊆ m'.
Proof.
  intros Hlive Hpre Hp. revert m l Hlive.
  induction Hpre as [|q pre Hq Hpre IH]; intros m l Hlive; cbn.
  - unfold bind. rewrite read_declared_run.
    pose proof (read_adjoint_run policy G p.1 p.2 m) as Hr. rewrite Hp in Hr.
    rewrite Hr. cbn. by exists m.
  - unfold bind at 1. rewrite read_declared_run.
    pose proof (read_adjoint_run policy G q.1 q.2 m) as Hr.
    destruct (declared_gradient G q.1 q.2) as [g|] eqn:Hd; [|done].
    destruct (declared_gradient_Ok _ _ _ _ Hd) as [a Ha].
    destruct (Hlive a g Ha) as [v Hv]. rewrite Hv in Hr.
    destruct Hr as (t & m1 & -> & H1 & _). cbn [fst snd].
    destruct (IH m1 (Some q.2)) as (m' & Hrun & H2).
    { intros a' g' Hg'. destruct (Hlive a' g' Hg') as [v' Hv'].
      exists v'. by eapply lookup_weaken. }
    unfold bind. rewrite Hrun. exists m'. split; [done|]. by etrans.
Qed.

(** The pass over the meshes only allocates and never raises [KeyError]. *)
Lemma read_mesh_adjoints_run geos m :
  match read_mesh_adjoints geos m with
  | (Ok ts, m') =>
      m ⊆ m'
      ∧ Forall2 (λ p t, ∃ g, grad p = Some g ∧ cloned_from m m' id g t) (meshes geos) ts
  | (Raise e, m') => m ⊆ m' ∧ e ≠ KeyError
  end.
Proof.
  revert m. induction geos as [|[p|] geos IH]; intros m; cbn; [by split| |apply IH].
  unfold grad_array. destruct (grad p) as [g|] eqn:Hp; cbn; [|by split].
  unfold bind at 1, to_torch. rewrite clone_run.
  destruct (m !! g) as [v|] eqn:Hg; [|by split].
  set (t := fresh (dom m)). set (m1 := <[t := v]> m).
  assert (m ⊆ m1) as H1 by apply insert_fresh_subseteq.
  unfold bind. specialize (IH m1).
  destruct (read_mesh_adjoints geos m1) as [[ts|e] m'].
  - destruct IH as [H2 IH]. split; [by etrans|]. constructor.
    + exists g. split; [done|]. exists m, v. split; [done|]. split; [done|].
      split; [apply fresh_None|]. rewrite list_fmap_id.
      eapply lookup_weaken; [|exact H2]. apply lookup_insert_eq.
    + eapply Forall2_impl; [exact IH|]. intros q t' (g' & Hq & Hc).
      exists g'. split; [done|].
           eapply cloned_from_weaken; [exact H1|reflexivity|exact Hc].
  - destruct IH as [H2 He]. split; [by etrans|done].
Qed.

End read_loops.

(** *** The [try] block and its handler *)

Section try_block.
Context `{R : Runtime}.
Implicit Types (w : World) (ctx : Ctx).

Lemma backward_with_run policy ctx adj w w1 :
  backward_reverse ctx adj w = (Ok tt, w1) →
  backward_with policy ctx adj w
  = (let! adj_inputs := backward_collect policy ctx in
     run! match tape (ctx_update_params ctx) with
          | Some t => Tape_zero t
          | None => raise AttributeError
          end in
     run! when (zero_nans policy)
            (lift_mem (for_each adj_inputs (update_inplace (nan_to_num 0 0 0)))) in
     ret (replicate 9 None ++ (Some <$> adj_inputs))) w1.
Proof. intros H. unfold backward_with. unfold bind at 1. by rewrite H. Qed.

Lemma backward_with_Ok_inv policy ctx adj w res w2 :
  backward_with policy ctx adj w = (Ok res, w2) →
  ∃ w1, backward_reverse ctx adj w = (Ok tt, w1).
Proof.
  unfold backward_with. intros ([] & w1 & H & _)%bind_inv_Ok. eauto.
Qed.

(** The [try] block with its handler, in terms of the run of its body. *)
Lemma backward_collect_run policy ctx w :
  backward_collect policy ctx w
  = match try_body policy (ctx_gradients ctx w) (read_state_in ctx)
            (model (ctx_update_params ctx)) (read_control ctx)
            (ctx_state_tensors_names ctx) (ctx_model_tensors_names ctx)
            (ctx_control_tensors_names ctx) (mem w, None) with
    | (Ok ts, (m, _)) => (Ok ts, set_mem m w)
    | (Raise KeyError, (m, l)) =>
        (Raise KeyError,
         set_stdout (stdout w ++ ["Missing gradient for " +:+ default "" l]) (set_mem m w))
    | (Raise e, (m, _)) => (Raise e, set_mem m w)
    end.
Proof.
  unfold backward_collect, bind, get, with_local, try_except_KeyError, lift_mem_local.
  cbn. destruct (try_body _ _ _ _ _ _ _ _ _) as [[ts|e] [m l]]; [done|].
  by destruct e.
Qed.

Lemma backward_collect_spec policy ctx w :
  match backward_collect policy ctx w with
  | (Ok ts, w') =>
      ∃ m' named mesh,
        w' = set_mem m' w ∧ mem w ⊆ m' ∧ ts = named ++ mesh
        ∧ Forall2 (λ p t, ∃ g, declared_gradient (ctx_gradients ctx w) p.1 p.2 = Ok g
                               ∧ cloned_from (mem w) m' (postprocess policy) g t)
            (declared_inputs ctx) named
        ∧ Forall2 (λ p t, ∃ g, grad p = Some g ∧ cloned_from (mem w) m' id g t)
            (meshes (shape_geo_src (model (ctx_update_params ctx)))) mesh
  | (Raise e, w') =>
      ∃ m' out,
        w' = set_stdout out (set_mem m' w) ∧ mem w ⊆ m'
        ∧ (e ≠ KeyError → out = stdout w)
        ∧ (e = KeyError →
           ∃ p, p ∈ declared_inputs ctx
                ∧ declared_gradient (ctx_gradients ctx w) p.1 p.2 = Raise KeyError
                ∧ out = stdout w ++ ["Missing gradient for " +:+ p.2])
  end.
Proof.
  rewrite backward_collect_run, try_body_flat. unfold bind.
  fold (declared_inputs ctx).
  pose proof (read_declared_loop policy (ctx_gradients ctx w) (declared_inputs ctx)
                (mem w) None) as H1.
  destruct (for_collect _ _ _) as [[named|e] [m1 l1]]; cbv beta iota in H1.
  - destruct H1 as [Hm1 Hnamed]. unfold lift_outer.
    pose proof (read_mesh_adjoints_run
                  (shape_geo_src (model (ctx_update_params ctx))) m1) as H2.
    destruct (read_mesh_adjoints _ m1) as [[mesh|e] m2]; cbv beta iota in H2.
    + destruct H2 as [Hm2 Hmesh]. cbn. exists m2, named, mesh.
      split; [done|]. split; [by etrans|]. split; [done|]. split.
      * eapply Forall2_impl; [exact Hnamed|]. intros p t (g & Hg & Hc).
        exists g. split; [done|].
        eapply cloned_from_weaken; [reflexivity|exact Hm2|exact Hc].
      * eapply Forall2_impl; [exact Hmesh|]. intros p t (g & Hg & Hc).
        exists g. split; [done|].
        eapply cloned_from_weaken; [exact Hm1|reflexivity|exact Hc].
    + destruct H2 as [Hm2 He]. assert (mem w ⊆ m2) by (by etrans).
      destruct e; try done; cbn; exists m2, (stdout w); by repeat split.
  - destruct H1 as [Hm1 (p & Hp & -> & He)].
    destruct (decide (e = KeyError)) as [->|Hne].
    + cbn. exists m1, (stdout w ++ ["Missing gradient for " +:+ p.2]).
      split; [done|]. split; [done|]. split; [done|]. intros _. exists p. auto.
    + destruct e; try done; cbn; exists m1, (stdout w); by repeat split.
Qed.

(** The first declared input without a gradient makes the [try] block
    print its name and raise [KeyError]. *)
Lemma backward_collect_missing policy ctx w pre p post :
  (∀ a g, ctx_gradients ctx w !! a = Some g → is_Some (mem w !! g)) →
  declared_inputs ctx = pre ++ p :: post →
  Forall (λ q, is_Ok (declared_gradient (ctx_gradients ctx w) q.1 q.2) = true) pre →
  declared_gradient (ctx_gradients ctx w) p.1 p.2 = Raise KeyError →
  ∃ m', backward_collect policy ctx w
        = (Raise KeyError,
           set_stdout (stdout w ++ ["Missing gradient for " +:+ p.2]) (set_mem m' w))
        ∧ mem w ⊆ m'.
Proof.
  intros Hlive Hin Hpre Hp.
  rewrite backward_collect_run, try_body_flat. unfold bind.
  fold (declared_inputs ctx). rewrite Hin.
  destruct (read_declared_missing policy _ pre p post KeyError (mem w) None Hlive Hpre Hp)
    as (m' & -> & Hm'). by exists m'.
Qed.

End try_block.

(** *** In-place passes *)

Section update_loops.
Implicit Types (m : gmap nat (list float)).

Lemma for_each_snd {S A B} (l : list (A * B)) (body : B → M S unit) s :
  for_each l (λ '(_, g), body g) s = for_each l.*2 body s.
Proof.
  revert s. induction l as [|[a g] l IH]; intros s; cbn; [done|].
  unfold bind. destruct (body g s) as [[[]|e] s1]; [|done]. apply IH.
Qed.

(** A pass of in-place updates leaves every other buffer alone. *)
Lemma update_loop_frame f (ls : list nat) m r m' l :
  for_each ls (update_inplace f) m = (r, m') → l ∉ ls → m' !! l = m !! l.
Proof.
  revert m. induction ls as [|g ls IH]; intros m; cbn.
  - by intros [= _ <-].
  - intros Hrun [Hne Hl]%not_elem_of_cons. revert Hrun.
    unfold bind. rewrite update_inplace_run. destruct (m !! g) as [v|].
    + intros Hrun. rewrite (IH _ Hrun Hl). by apply lookup_insert_ne.
    + by intros [= _ <-].
Qed.

(** It keeps a property of buffer contents that the update preserves. *)
Lemma update_loop_keeps (P : list float → Prop) f (ls : list nat) m r m' l v :
  (∀ v, P v → P (f <$> v)) →
  for_each ls (update_inplace f) m = (r, m') →
  m !! l = Some v → P v → ∃ v', m' !! l = Some v' ∧ P v'.
Proof.
  intros Hf. revert m v. induction ls as [|g ls IH]; intros m v; cbn.
  - intros [= _ <-]. eauto.
  - unfold bind. rewrite update_inplace_run. destruct (m !! g) as [vg|] eqn:Hg.
    + intros Hrun Hl Hv. destruct (decide (l = g)) as [->|Hne].
      * eapply (IH _ _ Hrun); [apply lookup_insert_eq|].
        rewrite Hg in Hl. injection Hl as ->. by apply Hf.
      * eapply (IH _ _ Hrun); [|exact Hv]. by rewrite lookup_insert_ne.
    + intros [= _ <-]. eauto.
Qed.

(** When it completes, every buffer of the pass was updated. *)
Lemma update_loop_done (P : list float → Prop) f (ls : list nat) m m' l :
  (∀ v, P (f <$> v)) →
  for_each ls (update_inplace f) m = (Ok tt, m') →
  l ∈ ls → ∃ v', m' !! l = Some v' ∧ P v'.
Proof.
  intros Hf. revert m. induction ls as [|g ls IH]; intros m; cbn.
  - by intros _ ?%elem_of_nil.
  - unfold bind. rewrite update_inplace_run. destruct (m !! g) as [vg|] eqn:Hg; [|done].
    intros Hrun [->|Hl]%elem_of_cons.
    + eapply (update_loop_keeps P f ls _ _ _ g); [auto|exact Hrun|apply lookup_insert_eq|auto].
    + by eapply IH.
Qed.

(** It completes when every buffer of the pass is live. *)
Lemma update_loop_live f (ls : list nat) m :
  (∀ l, l ∈ ls → is_Some (m !! l)) →
  ∃ m', for_each ls (update_inplace f) m = (Ok tt, m').
Proof.
  revert m. induction ls as [|g ls IH]; intros m Hlive; cbn; [by eexists|].
  unfold bind. rewrite update_inplace_run.
  destruct (Hlive g) as [v ->]; [left|].
  apply IH. intros l Hl. destruct (Hlive l) as [vl Hvl]; [by right|].
  destruct (decide (l = g)) as [->|Hne].
  - rewrite lookup_insert_eq. eauto.
  - rewrite lookup_insert_ne by done. eauto.
Qed.

Lemma read_declared_all policy G ps m l :
  (∀ a g, G !! a = Some g → is_Some (m !! g)) →
  Forall (λ q, is_Ok (declared_gradient G q.1 q.2) = true) ps →
  ∃ ts s', for_collect ps (read_declared policy G) (m, l) = (Ok ts, s').
Proof.
  intros Hlive Hps. revert m l Hlive.
  induction Hps as [|q ps Hq Hps IH]; intros m l Hlive; cbn; [by eexists _, _|].
  unfold bind at 1. rewrite read_declared_run.
  pose proof (read_adjoint_run policy G q.1 q.2 m) as Hr.
  destruct (declared_gradient G q.1 q.2) as [g|] eqn:Hd; [|done].
  destruct (declared_gradient_Ok _ _ _ _ Hd) as [a Ha].
  destruct (Hlive a g Ha) as [v Hv]. rewrite Hv in Hr.
  destruct Hr as (t & m1 & -> & H1 & _). cbn [fst snd].
  destruct (IH m1 (Some q.2)) as (ts & s' & Hrun).
  { intros a' g' Hg'. destruct (Hlive a' g' Hg') as [v' Hv'].
    exists v'. by eapply lookup_weaken. }
  unfold bind. rewrite Hrun. by eexists _, _.
Qed.

Lemma read_mesh_adjoints_all geos m :
  (∀ p, p ∈ meshes geos → ∃ g, grad p = Some g ∧ is_Some (m !! g)) →
  ∃ ts m', read_mesh_adjoints geos m = (Ok ts, m').
Proof.
  revert m. induction geos as [|[p|] geos IH]; intros m Hlive; cbn.
  - by eexists _, _.
  - destruct (Hlive p) as (g & Hg & v & Hv); [cbn; left|].
    unfold grad_array. rewrite Hg. cbn. unfold bind at 1, to_torch.
    rewrite clone_run, Hv.
    destruct (IH (<[fresh (dom m) := v]> m)) as (ts & m' & Hrun).
    { intros q Hq. destruct (Hlive q) as (g' & Hg' & v' & Hv'); [cbn; by right|].
      exists g'. split; [done|]. exists v'.
      eapply lookup_weaken; [exact Hv'|apply insert_fresh_subseteq]. }
    unfold bind. rewrite Hrun. by eexists _, _.
  - apply IH. intros q Hq. apply Hlive. by cbn.
Qed.

End update_loops.

(** *** [tape.zero()] and the runs of [backward] *)

Section tape_zero.
Context `{R : Runtime}.
Implicit Types (w : World) (ctx : Ctx).

Lemma update_loop_raises f (ls : list nat) (m : gmap nat (list float)) e m' :
  for_each ls (update_inplace f) m = (Raise e, m') → e = RuntimeError.
Proof.
  revert m. induction ls as [|g ls IH]; intros m; cbn; [done|].
  unfold bind. rewrite update_inplace_run. destruct (m !! g) as [v|].
  - apply IH.
  - by intros [= <- _].
Qed.

Lemma elem_of_gradient_buffers (G : gmap nat nat) l :
  l ∈ (map_to_list G).*2 ↔ ∃ a, G !! a = Some l.
Proof.
  rewrite list_elem_of_fmap. split.
  - intros ([a g] & -> & H%elem_of_map_to_list). eauto.
  - intros [a H]. exists (a, l). split; [done|]. by apply elem_of_map_to_list.
Qed.

(** [tape.zero()] is a pass of in-place updates over the gradient arrays. *)
Lemma Tape_zero_run t w :
  Tape_zero t w
  = ((for_each (map_to_list (gradients (the_tape w t))).*2
        (update_inplace (λ _, 0%float)) (mem w)).1,
     set_mem (for_each (map_to_list (gradients (the_tape w t))).*2
                (update_inplace (λ _, 0%float)) (mem w)).2 w).
Proof.
  unfold Tape_zero, lift_mem. rewrite for_each_snd. by destruct (for_each _ _ _).
Qed.

Lemma backward_reverse_tape ctx adj w w1 :
  backward_reverse ctx adj w = (Ok tt, w1) → ∃ t, tape (ctx_update_params ctx) = Some t.
Proof.
  unfold backward_reverse.
  destruct (ctx_states ctx) as [[? ?] ?], (ctx_states_bwd ctx) as [[? ?] ?].
  destruct (tape (ctx_update_params ctx)) as [t|]; [eauto|].
  unfold bind at 1. cbn. discriminate.
Qed.

(** What a run of [backward] that raised [KeyError] after the reverse pass
    went through. *)
Lemma backward_KeyError_inv policy ctx adj w w1 w2 :
  backward_reverse ctx adj w = (Ok tt, w1) →
  backward_with policy ctx adj w = (Raise KeyError, w2) →
  backward_collect policy ctx w1 = (Raise KeyError, w2).
Proof.
  intros Hrev. rewrite (backward_with_run _ _ _ _ _ Hrev).
  intros [(ts & wc & Hc & Hrest)|(e & Hc & [= <-])]%bind_inv; [exfalso|done].
  apply bind_inv in Hrest as [([] & wz & Hz & Hrest)|(e & Hz & [= <-])].
  - apply bind_inv in Hrest as [([] & wn & Hn & Hrest)|(e & Hn & [= <-])]; [done|].
    destruct (zero_nans policy); [|done]. cbn in Hn. unfold lift_mem in Hn.
    destruct (for_each _ _ _) as [[[]|e] mn] eqn:Hloop; [done|].
    apply update_loop_raises in Hloop. by injection Hn as -> _.
  - destruct (tape (ctx_update_params ctx)) as [t|]; [|done].
    rewrite Tape_zero_run in Hz.
    destruct (for_each _ _ _) as [[[]|e] mz] eqn:Hloop; [done|].
    apply update_loop_raises in Hloop. by injection Hz as -> _.
Qed.

(** What a run of [backward] that returned went through. *)
Lemma backward_Ok_inv policy ctx adj w w1 res w2 :
  backward_reverse ctx adj w = (Ok tt, w1) →
  backward_with policy ctx adj w = (Ok res, w2) →
  ∃ ts wc t mz,
    backward_collect policy ctx w1 = (Ok ts, wc)
    ∧ tape (ctx_update_params ctx) = Some t
    ∧ for_each (map_to_list (gradients (the_tape wc t))).*2
        (update_inplace (λ _, 0%float)) (mem wc) = (Ok tt, mz)
    ∧ when (zero_nans policy)
        (lift_mem (for_each ts (update_inplace (nan_to_num 0 0 0)))) (set_mem mz wc)
      = (Ok tt, w2)
    ∧ res = replicate 9 None ++ (Some <$> ts).
Proof.
  intros Hrev. rewrite (backward_with_run _ _ _ _ _ Hrev).
  intros (ts & wc & Hc & Hrest)%bind_inv_Ok.
  apply bind_inv_Ok in Hrest as ([] & wz & Hz & Hrest).
  apply bind_inv_Ok in Hrest as ([] & wn & Hn & [= <- <-]).
  destruct (tape (ctx_update_params ctx)) as [t|]; [|done].
  rewrite Tape_zero_run in Hz.
  destruct (for_each _ _ _) as [[[]|e] mz] eqn:Hloop; [|done].
  injection Hz as <-. exists ts, wc, t, mz. done.
Qed.

Lemma backward_collect_succeeds policy ctx w :
  gradients_live ctx w →
  Forall (λ p, is_Ok (declared_gradient (ctx_gradients ctx w) p.1 p.2) = true)
    (declared_inputs ctx) →
  Forall (λ p, is_Some (grad p)) (meshes (shape_geo_src (model (ctx_update_params ctx)))) →
  ∃ ts w', backward_collect policy ctx w = (Ok ts, w').
Proof.
  intros [Hlive Hmlive] Hin Hmesh.
  rewrite backward_collect_run, try_body_flat. unfold bind.
  fold (declared_inputs ctx).
  pose proof (read_declared_loop policy (ctx_gradients ctx w) (declared_inputs ctx)
                (mem w) None) as H1.
  destruct (read_declared_all policy _ _ (mem w) None Hlive Hin) as (ts & [m1 l1] & Hrun).
  rewrite Hrun in *. destruct H1 as [Hm1 _]. unfold lift_outer.
  destruct (read_mesh_adjoints_all
              (shape_geo_src (model (ctx_update_params ctx))) m1) as (ts2 & m2 & ->).
  { intros p Hp. rewrite Forall_forall in Hmesh. destruct (Hmesh p Hp) as [g Hg].
    exists g. split; [done|]. destruct (Hmlive p g Hp Hg) as [v Hv].
    exists v. by eapply lookup_weaken. }
  cbn. eauto.
Qed.

End tape_zero.

(** *** The adjoints [backward] returns *)

Section adjoints.
Context `{R : Runtime}.
Implicit Types (w : World) (ctx : Ctx).

(** C2.  Let the reverse pass of a backward call have gone through, leaving
    the world [w1], whatever the three post-processing switches.
    (1) If the gradient arrays known to the tape are live buffers and [p] is
    the first declared input (state names, then model names, then control
    names) whose array has no entry in [tape.gradients], the call prints
    [Missing gradient for] followed by the name of [p] and raises
    [KeyError].  (2) If any declared input has no gradient array, the call
    does not return.  (3) A call that raises [KeyError] has printed the
    name of a declared input whose array has no entry in
    [tape.gradients]. *)
Theorem missing_gradient_is_named policy ctx adj w w1 :
  backward_reverse ctx adj w = (Ok tt, w1) →
  (∀ pre p post,
     (∀ a g, ctx_gradients ctx w1 !! a = Some g → is_Some (mem w1 !! g)) →
     declared_inputs ctx = pre ++ p :: post →
     Forall (λ q, is_Ok (declared_gradient (ctx_gradients ctx w1) q.1 q.2) = true) pre →
     declared_gradient (ctx_gradients ctx w1) p.1 p.2 = Raise KeyError →
     ∃ w2, backward_with policy ctx adj w = (Raise KeyError, w2)
           ∧ stdout w2 = stdout w1 ++ ["Missing gradient for " +:+ p.2])
  ∧ (∀ p res w2,
       p ∈ declared_inputs ctx →
       is_Ok (declared_gradient (ctx_gradients ctx w1) p.1 p.2) = false →
       backward_with policy ctx adj w ≠ (Ok res, w2))
  ∧ (∀ w2,
       backward_with policy ctx adj w = (Raise KeyError, w2) →
       ∃ p, p ∈ declared_inputs ctx
            ∧ declared_gradient (ctx_gradients ctx w1) p.1 p.2 = Raise KeyError
            ∧ stdout w2 = stdout w1 ++ ["Missing gradient for " +:+ p.2]).
Proof.
  intros Hrev. split; [|split].
  - intros pre p post Hlive Hin Hpre Hp.
    destruct (backward_collect_missing policy ctx w1 pre p post Hlive Hin Hpre Hp)
      as (m' & Hc & _).
    eexists. rewrite (backward_with_run _ _ _ _ _ Hrev). unfold bind at 1.
    rewrite Hc. done.
  - intros p res w2 Hp Hmiss Hrun.
    destruct (backward_Ok_inv _ _ _ _ _ _ _ Hrev Hrun) as (ts & wc & _ & _ & Hc & _).
    pose proof (backward_collect_spec policy ctx w1) as Hspec. rewrite Hc in Hspec.
    destruct Hspec as (m' & named & mesh & _ & _ & _ & Hnamed & _).
    apply list_elem_of_lookup in Hp as [i Hi].
    destruct (Forall2_lookup_l _ _ _ _ _ Hnamed Hi) as (t & _ & g & Hg & _).
    by rewrite Hg in Hmiss.
  - intros w2 Hrun.
    pose proof (backward_KeyError_inv _ _ _ _ _ _ Hrev Hrun) as Hc.
    pose proof (backward_collect_spec policy ctx w1) as Hspec. rewrite Hc in Hspec.
    destruct Hspec as (m' & out & -> & _ & _ & Hkey).
    destruct (Hkey eq_refl) as (p & Hp & Hmiss & ->). by exists p.
Qed.

(** C7.  The three switches of [backward] are off.  Let the reverse pass of
    a backward call have gone through, leaving the world [w1] in which the
    gradient arrays are live buffers, let every declared input have an
    entry in [tape.gradients] and every mesh a gradient array.  Then the
    call returns nine [None] followed by one adjoint for each declared
    input and each mesh, in order; each adjoint is a buffer that did not
    exist in [w1] and it holds, when the call returns, exactly what the
    gradient array held in [w1]. *)
Theorem default_backward_returns_clones ctx adj w w1 :
  backward_reverse ctx adj w = (Ok tt, w1) →
  gradients_live ctx w1 →
  Forall (λ p, is_Ok (declared_gradient (ctx_gradients ctx w1) p.1 p.2) = true)
    (declared_inputs ctx) →
  Forall (λ p, is_Some (grad p)) (meshes (shape_geo_src (model (ctx_update_params ctx)))) →
  default_policy = {| rescale_grad := None; clip_grad := None; zero_nans := false |}
  ∧ ∃ named mesh w2,
      backward ctx adj w = (Ok (replicate 9 None ++ (Some <$> named ++ mesh)), w2)
      ∧ Forall2 (λ p t, ∃ g v, declared_gradient (ctx_gradients ctx w1) p.1 p.2 = Ok g
                               ∧ mem w1 !! g = Some v
                               ∧ mem w1 !! t = None ∧ mem w2 !! t = Some v)
          (declared_inputs ctx) named
      ∧ Forall2 (λ p t, ∃ g v, grad p = Some g
                               ∧ mem w1 !! g = Some v
                               ∧ mem w1 !! t = None ∧ mem w2 !! t = Some v)
          (meshes (shape_geo_src (model (ctx_update_params ctx)))) mesh.
Proof.
  intros Hrev Hlive Hin Hmesh. split; [done|].
  destruct (backward_collect_succeeds default_policy ctx w1 Hlive Hin Hmesh)
    as (ts & wc & Hc).
  pose proof (backward_collect_spec default_policy ctx w1) as Hspec. rewrite Hc in Hspec.
  destruct Hspec as (m' & named & mesh & -> & Hm' & -> & Hnamed & Hmeshes).
  destruct (backward_reverse_tape _ _ _ _ Hrev) as [t Ht].
  destruct Hlive as [Hlive Hmlive].
  assert (ctx_gradients ctx w1 = gradients (the_tape w1 t)) as HG.
  { unfold ctx_gradients. by rewrite Ht. }
  destruct (update_loop_live (λ _, 0%float) (map_to_list (gradients (the_tape w1 t))).*2 m')
    as [mz Hz].
  { intros l [a Ha]%elem_of_gradient_buffers. rewrite <- HG in Ha.
    destruct (Hlive a l Ha) as [v Hv]. exists v. by eapply lookup_weaken. }
  assert (∀ l, mem w1 !! l = None → mz !! l = m' !! l) as Hframe.
  { intros l Hl. eapply update_loop_frame; [exact Hz|].
    intros [a Ha]%elem_of_gradient_buffers. rewrite <- HG in Ha.
    destruct (Hlive a l Ha) as [v Hv]. by rewrite Hv in Hl. }
  exists named, mesh, (set_mem mz (set_mem m' w1)). split; [|split].
  - unfold backward. rewrite (backward_with_run _ _ _ _ _ Hrev). unfold bind at 1.
    rewrite Hc. unfold bind at 1. rewrite Ht, Tape_zero_run.
    change (the_tape (set_mem m' w1) t) with (the_tape w1 t).
    change (mem (set_mem m' w1)) with m'. rewrite Hz. done.
  - eapply Forall2_impl; [exact Hnamed|]. intros p a (g & Hg & Hcl).
    destruct (declared_gradient_Ok _ _ _ _ Hg) as [a' Ha'].
    destruct (Hlive a' g Ha') as [v Hv].
    destruct (cloned_from_live _ _ _ _ _ _ Hv Hcl) as [Hnew Hval].
    exists g, v. split; [done|]. split; [done|]. split; [done|].
    cbn [mem set_mem]. rewrite (Hframe _ Hnew), Hval. f_equal. apply list_fmap_id.
  - rewrite Forall2_same_length_lookup in Hmeshes. destruct Hmeshes as [Hlen Hmeshes].
    apply Forall2_same_length_lookup. split; [done|]. intros i p a Hp Ha.
    destruct (Hmeshes i p a Hp Ha) as (g & Hg & Hcl).
    destruct (Hmlive p g) as [v Hv]; [by eapply list_elem_of_lookup_2|done|].
    destruct (cloned_from_live _ _ _ _ _ _ Hv Hcl) as [Hnew Hval].
    exists g, v. split; [done|]. split; [done|]. split; [done|].
    cbn [mem set_mem]. rewrite (Hframe _ Hnew), Hval. f_equal. apply list_fmap_id.
Qed.

(** C8.  Let the reverse pass of a backward call have gone through, leaving
    the world [w1].  If the call then raises [KeyError], the tapes are as in
    [w1] and every buffer of [w1], the gradient arrays among them, holds
    what it held in [w1]: nothing was zeroed.  If the call returns, every
    gradient array known to the tape holds zeros. *)
Theorem missing_gradient_keeps_tape policy ctx adj w w1 :
  backward_reverse ctx adj w = (Ok tt, w1) →
  (∀ w2, backward_with policy ctx adj w = (Raise KeyError, w2) →
         tapes w2 = tapes w1 ∧ mem w1 ⊆ mem w2)
  ∧ (∀ res w2, backward_with policy ctx adj w = (Ok res, w2) →
       ∀ a g, ctx_gradients ctx w1 !! a = Some g →
              ∃ v, mem w2 !! g = Some v ∧ Forall (λ x, x = 0%float) v).
Proof.
  intros Hrev. split.
  - intros w2 Hrun.
    pose proof (backward_KeyError_inv _ _ _ _ _ _ Hrev Hrun) as Hc.
    pose proof (backward_collect_spec policy ctx w1) as Hspec. rewrite Hc in Hspec.
    by destruct Hspec as (m' & out & -> & Hm' & _).
  - intros res w2 Hrun a g Ha.
    destruct (backward_Ok_inv _ _ _ _ _ _ _ Hrev Hrun)
      as (ts & wc & t & mz & Hc & Ht & Hz & Hn & _).
    pose proof (backward_collect_spec policy ctx w1) as Hspec. rewrite Hc in Hspec.
    destruct Hspec as (m' & named & mesh & -> & _).
    unfold ctx_gradients in Ha. rewrite Ht in Ha.
    assert (∀ v : list float,
              Forall (λ x, x = 0%float) ((λ _ : float, 0%float) <$> v)) as Hzero.
    { intros v. apply Forall_fmap, Forall_true. done. }
    destruct (update_loop_done _ _ _ _ _ g Hzero Hz) as (v & Hv & Hv0).
    { apply elem_of_gradient_buffers. by exists a. }
    destruct (zero_nans policy); cbn in Hn.
    + unfold lift_mem in Hn. cbn [mem set_mem] in Hn.
      destruct (for_each ts _ mz) as [r mn] eqn:Hloop. injection Hn as -> <-.
      cbn [mem set_mem].
      eapply (update_loop_keeps (Forall (λ x, x = 0%float))); [|exact Hloop|exact Hv|exact Hv0].
      intros v' Hv'. apply Forall_fmap. eapply Forall_impl; [exact Hv'|].
      by intros x ->.
    + injection Hn as <-. by exists v.
Qed.

End adjoints.

(** *** What a returning [backward] gives back *)

Section returned.
Context `{R : Runtime}.
Implicit Types (w : World) (ctx : Ctx).

(** A call of [backward] that returns: what it returns and what the
    returned buffers hold. *)
Lemma backward_Ok_contents ctx adj w w1 res w2 :
  backward_reverse ctx adj w = (Ok tt, w1) →
  gradients_live ctx w1 →
  backward ctx adj w = (Ok res, w2) →
  ∃ named mesh,
    res = replicate 9 None ++ (Some <$> named ++ mesh)
    ∧ Forall2 (λ p t, returned_adjoint (ctx_gradients ctx w1) (mem w1) (mem w2) p.1 p.2 t)
        (declared_inputs ctx) named
    ∧ Forall2 (returned_mesh_adjoint (mem w1) (mem w2))
        (meshes (shape_geo_src (model (ctx_update_params ctx)))) mesh.
Proof.
  intros Hrev [Hlive Hmlive] Hrun. unfold backward in Hrun.
  destruct (backward_Ok_inv _ _ _ _ _ _ _ Hrev Hrun) as (ts & wc & t & mz & Hc & Ht & Hz & Hn & ->).
  pose proof (backward_collect_spec default_policy ctx w1) as Hspec. rewrite Hc in Hspec.
  destruct Hspec as (m' & named & mesh & -> & Hm' & -> & Hnamed & Hmeshes).
  cbn in Hn. injection Hn as <-.
  change (the_tape (set_mem m' w1) t) with (the_tape w1 t) in Hz.
  change (mem (set_mem m' w1)) with m' in Hz.
  assert (ctx_gradients ctx w1 = gradients (the_tape w1 t)) as HG.
  { unfold ctx_gradients. by rewrite Ht. }
  assert (∀ l, mem w1 !! l = None → mz !! l = m' !! l) as Hframe.
  { intros l Hl. eapply update_loop_frame; [exact Hz|].
    intros [a Ha]%elem_of_gradient_buffers. rewrite <- HG in Ha.
    destruct (Hlive a l Ha) as [v Hv]. by rewrite Hv in Hl. }
  exists named, mesh. split; [done|]. split.
  - eapply Forall2_impl; [exact Hnamed|]. intros p a (g & Hg & Hcl).
    destruct (declared_gradient_Ok _ _ _ _ Hg) as [a' Ha'].
    destruct (Hlive a' g Ha') as [v Hv].
    destruct (cloned_from_live _ _ _ _ _ _ Hv Hcl) as [Hnew Hval].
    exists g. split; [done|]. exists v. split; [done|]. split; [done|].
    cbn [mem set_mem]. rewrite (Hframe _ Hnew), Hval. f_equal. apply list_fmap_id.
  - rewrite Forall2_same_length_lookup in Hmeshes. destruct Hmeshes as [Hlen Hmeshes].
    apply Forall2_same_length_lookup. split; [done|]. intros i p a Hp Ha.
    destruct (Hmeshes i p a Hp Ha) as (g & Hg & Hcl).
    destruct (Hmlive p g) as [v Hv]; [by eapply list_elem_of_lookup_2|done|].
    destruct (cloned_from_live _ _ _ _ _ _ Hv Hcl) as [Hnew Hval].
    exists g. split; [done|]. exists v. split; [done|]. split; [done|].
    cbn [mem set_mem]. rewrite (Hframe _ Hnew), Hval. f_equal. apply list_fmap_id.
Qed.

End returned.

(** *** The outputs of [forward] *)

Section outputs.
Implicit Types (m : gmap nat (list float)).

Lemma is_clone_weaken m m' src t : m ⊆ m' → is_clone m src t → is_clone m' src t.
Proof.
  intros Hm (Hne & [v Hv] & Heq). rewrite Hv in Heq.
  split; [done|]. rewrite (lookup_weaken _ _ _ _ Hv Hm).
  split; [done|]. symmetry. by eapply lookup_weaken.
Qed.

Lemma is_output_weaken ugc x m m' name t :
  m ⊆ m' → is_output ugc x m name t → is_output ugc x m' name t.
Proof.
  intros Hm (a & Ha & H). exists a. split; [done|].
  destruct ugc; [|done]. by eapply is_clone_weaken.
Qed.

Lemma clone_is_clone src m :
  match clone src m with
  | (Ok t, m') => m ⊆ m' ∧ is_clone m' src t
  | (Raise _, m') => m ⊆ m'
  end.
Proof.
  rewrite clone_run. destruct (m !! src) as [v|] eqn:Hv; [|done].
  split; [apply insert_fresh_subseteq|].
  assert (fresh (dom m) ≠ src) as Hne.
  { intros E. pose proof (fresh_None m) as Hf. rewrite E, Hv in Hf. done. }
  split; [done|]. rewrite lookup_insert_eq, lookup_insert_ne by done. by split.
Qed.

Lemma output_tensor_run ugc x name m :
  match output_tensor ugc x name m with
  | (Ok t, m') => m ⊆ m' ∧ is_output ugc x m' name t
  | (Raise _, m') => m ⊆ m'
  end.
Proof.
  unfold output_tensor, getattr, is_output, to_torch.
  destruct (x !! name) as [[a|]|]; cbn; [|done..].
  destruct ugc.
  - pose proof (clone_is_clone (ptr a) m) as H.
    destruct (clone (ptr a) m) as [[t|e] m']; [|done].
    destruct H as [Hm Hc]. split; [done|]. by exists a.
  - cbn. split; [done|]. by exists a.
Qed.

(** A loop whose body only allocates. *)
Lemma for_collect_alloc {A} (P : gmap nat (list float) → A → nat → Prop)
    (body : A → M (gmap nat (list float)) nat) (l : list A) m :
  (∀ m m' x t, m ⊆ m' → P m x t → P m' x t) →
  (∀ x m, match body x m with
          | (Ok t, m') => m ⊆ m' ∧ P m' x t
          | (Raise _, m') => m ⊆ m'
          end) →
  match for_collect l body m with
  | (Ok ts, m') => m ⊆ m' ∧ Forall2 (P m') l ts
  | (Raise _, m') => m ⊆ m'
  end.
Proof.
  intros Hmono Hbody. revert m. induction l as [|x l IH]; intros m; cbn; [by split|].
  unfold bind at 1. specialize (Hbody x m).
  destruct (body x m) as [[t|e] m1]; [|done]. destruct Hbody as [H1 Hx].
  unfold bind. specialize (IH m1).
  destruct (for_collect l body m1) as [[ts|e] m2]; cbn.
  - destruct IH as [H2 IH]. split; [by etrans|]. constructor; [|done].
    by eapply Hmono.
  - by etrans.
Qed.

(** Lines 133 to 152 of [forward]. *)
Lemma forward_outputs_run ugc state_out model control ns nm nc mesh_tensors m outs m' :
  (let! out_state := for_collect ns (output_tensor ugc state_out) in
   let! out_model := for_collect nm (output_tensor ugc (model_vars model)) in
   let! out_control := for_collect nc (output_tensor ugc control) in
   let! out_mesh := for_collect mesh_tensors clone in
   ret (out_state ++ out_model ++ out_control ++ out_mesh)) m = (Ok outs, m') →
  ∃ out_state out_model out_control out_mesh,
    outs = out_state ++ out_model ++ out_control ++ out_mesh
    ∧ Forall2 (is_output ugc state_out m') ns out_state
    ∧ Forall2 (is_output ugc (model_vars model) m') nm out_model
    ∧ Forall2 (is_output ugc control m') nc out_control
    ∧ Forall2 (is_clone m') mesh_tensors out_mesh.
Proof.
  intros (o1 & m1 & H1 & H)%bind_inv_Ok.
  apply bind_inv_Ok in H as (o2 & m2 & H2 & H).
  apply bind_inv_Ok in H as (o3 & m3 & H3 & H).
  apply bind_inv_Ok in H as (o4 & m4 & H4 & [= <- <-]).
  pose proof (for_collect_alloc (λ m, is_output ugc state_out m) _ ns m
                (λ m m' x t, is_output_weaken ugc state_out m m' x t)
                (output_tensor_run ugc state_out)) as S1.
  pose proof (for_collect_alloc (λ m, is_output ugc (model_vars model) m) _ nm m1
                (λ m m' x t, is_output_weaken ugc _ m m' x t)
                (output_tensor_run ugc _)) as S2.
  pose proof (for_collect_alloc (λ m, is_output ugc control m) _ nc m2
                (λ m m' x t, is_output_weaken ugc _ m m' x t)
                (output_tensor_run ugc _)) as S3.
  pose proof (for_collect_alloc is_clone _ mesh_tensors m3
                is_clone_weaken clone_is_clone) as S4.
  rewrite H1 in S1. rewrite H2 in S2. rewrite H3 in S3. rewrite H4 in S4.
  destruct S1 as [L1 S1], S2 as [L2 S2], S3 as [L3 S3], S4 as [L4 S4].
  exists o1, o2, o3, o4. split; [done|]. split; [|split; [|split; [|done]]].
  - eapply Forall2_impl; [exact S1|]. intros n t. apply is_output_weaken.
    etrans; [exact L2|]. by etrans.
  - eapply Forall2_impl; [exact S2|]. intros n t. apply is_output_weaken. by etrans.
  - eapply Forall2_impl; [exact S3|]. intros n t. by apply is_output_weaken.
Qed.

End outputs.

Section forward_outputs.
Context `{R : Runtime}.

Lemma forward_Ok_inv up sp st ctl stb ctlb ns nm nc ts w ctx outs w' :
  forward up sp st ctl stb ctlb ns nm nc ts w = (Ok (ctx, outs), w') →
  ctx_state_tensors_names ctx = ns
  ∧ ctx_model_tensors_names ctx = nm
  ∧ ctx_control_tensors_names ctx = nc
  ∧ ∃ m,
      (let! out_state := for_collect ns (output_tensor (use_graph_capture up) st.2) in
       let! out_model :=
         for_collect nm (output_tensor (use_graph_capture up) (model_vars (model up))) in
       let! out_control := for_collect nc (output_tensor (use_graph_capture up) ctl) in
       let! out_mesh := for_collect (drop (length ns + length nm + length nc) ts) clone in
       ret (out_state ++ out_model ++ out_control ++ out_mesh)) m = (Ok outs, mem w').
Proof.
  unfold forward. destruct st as [[state_in states_mid] state_out].
  destruct stb as [[state_in_bwd states_mid_bwd] state_out_bwd].
  intros ([] & w1 & _ & H)%bind_inv_Ok.
  apply bind_inv_Ok in H as ([t up'] & w2 & _ & H).
  apply bind_inv_Ok in H as ([] & w3 & _ & H).
  apply bind_inv_Ok in H as ([] & w4 & _ & H).
  apply bind_inv_Ok in H as (o & w5 & H & [= <- <- <-]).
  cbn [ctx_state_tensors_names ctx_model_tensors_names ctx_control_tensors_names].
  split; [done|]. split; [done|]. split; [done|].
  exists (mem w4). unfold lift_mem in H.
  destruct (bind _ _ (mem w4)) as [r m5]. by injection H as -> <-.
Qed.

End forward_outputs.

Section call_order.
Context `{R : Runtime}.

(** C9 (as amended).  A forward call that returns gives its outputs in four
    consecutive groups: one tensor for each name of [state_tensors_names],
    in the order of the list, each the output tensor of that array of
    [state_out]; then the same for [model_tensors_names] on the model and
    for [control_tensors_names] on [control]; then one clone for each
    tensor after the named ones.  The name lists are stored on [ctx]
    unchanged.  A backward call that returns, the gradient arrays being
    live buffers after the reverse pass, gives exactly nine [None] followed
    by four groups: one adjoint for each state name, in the order of the
    list, read from [state_in] (the shadow [state_in] in graph-capture
    mode), one for each model name, one for each control name, and one for
    each mesh geometry of the model, in the order of
    [model.shape_geo_src].  Each adjoint is a buffer that did not exist
    after the reverse pass and holds, when the call returns, exactly what
    the gradient array at its position held after the reverse pass.  The
    last group of [backward] follows the meshes of the model, not the
    tensors [forward] cloned. *)
Theorem outputs_follow_declared_order :
  (∀ up sp st ctl stb ctlb ns nm nc ts (w : World) ctx outs w',
     forward up sp st ctl stb ctlb ns nm nc ts w = (Ok (ctx, outs), w') →
     ctx_state_tensors_names ctx = ns
     ∧ ctx_model_tensors_names ctx = nm
     ∧ ctx_control_tensors_names ctx = nc
     ∧ ∃ out_state out_model out_control out_mesh,
         outs = out_state ++ out_model ++ out_control ++ out_mesh
         ∧ Forall2 (is_output (use_graph_capture up) st.2 (mem w')) ns out_state
         ∧ Forall2 (is_output (use_graph_capture up) (model_vars (model up)) (mem w'))
             nm out_model
         ∧ Forall2 (is_output (use_graph_capture up) ctl (mem w')) nc out_control
         ∧ Forall2 (is_clone (mem w'))
             (drop (length ns + length nm + length nc) ts) out_mesh)
  ∧ (∀ ctx adj (w : World) w1 res w2,
       backward_reverse ctx adj w = (Ok tt, w1) →
       gradients_live ctx w1 →
       backward ctx adj w = (Ok res, w2) →
       ∃ adj_state adj_model adj_control adj_mesh,
         res = replicate 9 None
               ++ (Some <$> adj_state ++ adj_model ++ adj_control ++ adj_mesh)
         ∧ Forall2 (returned_adjoint (ctx_gradients ctx w1) (mem w1) (mem w2)
                      (read_state_in ctx))
             (ctx_state_tensors_names ctx) adj_state
         ∧ Forall2 (returned_adjoint (ctx_gradients ctx w1) (mem w1) (mem w2)
                      (model_vars (model (ctx_update_params ctx))))
             (ctx_model_tensors_names ctx) adj_model
         ∧ Forall2 (returned_adjoint (ctx_gradients ctx w1) (mem w1) (mem w2)
                      (read_control ctx))
             (ctx_control_tensors_names ctx) adj_control
         ∧ Forall2 (returned_mesh_adjoint (mem w1) (mem w2))
             (meshes (shape_geo_src (model (ctx_update_params ctx)))) adj_mesh).
Proof.
  split.
  - intros up sp st ctl stb ctlb ns nm nc ts w ctx outs w' Hrun.
    destruct (forward_Ok_inv _ _ _ _ _ _ _ _ _ _ _ _ _ _ Hrun)
      as (Hns & Hnm & Hnc & m & Hout).
    split; [done|]. split; [done|]. split; [done|].
    by apply forward_outputs_run in Hout.
  - intros ctx adj w w1 res w2 Hrev Hlive Hrun.
    destruct (backward_Ok_contents _ _ _ _ _ _ Hrev Hlive Hrun)
      as (named & mesh & -> & Hnamed & Hmesh).
    unfold declared_inputs in Hnamed.
    apply Forall2_app_inv_l in Hnamed as (a1 & rest & H1 & Hrest & ->).
    apply Forall2_app_inv_l in Hrest as (a2 & a3 & H2 & H3 & ->).
    apply Forall2_fmap_l in H1, H2, H3.
    exists a1, a2, a3, mesh. split; [by rewrite <- !app_assoc|]. done.
Qed.


End call_order.

(** *** The tensor list and the clamp *)

Section partition.
Context `{R : Runtime}.




End partition.

(** The clamp of lines 244 to 246 is not reachable, [clip_grad] being the
    constant [None].  Were it enabled as in the commented-out line 180
    ([clip_grad = 1.0]), the adjoint read for a declared input would be the
    clone of its gradient mapped elementwise by [postprocess], which sends
    [+inf] to [-1], [-inf] to [1] and NaN to [0]: line 245 passes
    [posinf=-clip_grad] and [neginf=clip_grad]. *)
Lemma disabled_clamp_swaps_sentinels :
  let policy := {| rescale_grad := None; clip_grad := Some 1%float; zero_nans := true |} in
  (∀ G x name g (m : gmap nat (list float)) v,
     declared_gradient G x name = Ok g → m !! g = Some v →
     ∃ t m', read_adjoint policy G x name m = (Ok t, m')
             ∧ m' !! t = Some (postprocess policy <$> v))
  ∧ postprocess policy infinity = (-1)%float
  ∧ postprocess policy neg_infinity = 1%float
  ∧ postprocess policy nan = 0%float
  ∧ nan_to_num 0 0 0 <$> [nan; infinity; neg_infinity] = [0; 0; 0]%float.
Proof.
  intros policy. split.
  - intros G x name g m v Hd Hg.
    pose proof (read_adjoint_run policy G x name m) as H. rewrite Hd, Hg in H.
    destruct H as (t & m' & H & _ & _ & Hv). by exists t, m'.
  - repeat split; vm_compute; reflexivity.
Qed.

End autograd_facts.

(** ** warp_env.py: the call of the update function *)

Module warp_env_facts.
Import py_facts warp_env.

Lemma fails_raise {S A} e : fails (@raise S A e).
Proof. done. Qed.

Lemma fails_bind_l {S A B} (m : M S A) (k : A → M S B) : fails m → fails (bind m k).
Proof.
  intros H s. unfold bind. specialize (H s). by destruct (m s) as [[a|e] s1].
Qed.

Lemma fails_bind_r {S A B} (m : M S A) (k : A → M S B) :
  (∀ a, fails (k a)) → fails (bind m k).
Proof.
  intros H s. unfold bind. destruct (m s) as [[a|e] s1]; [apply H|done].
Qed.

Lemma fails_bind_ret {S A B} (a : A) (k : A → M S B) : fails (k a) → fails (bind (ret a) k).
Proof. intros H s. apply H. Qed.

Lemma fails_for_collect {S A B} (l : list A) (body : A → M S B) x :
  x ∈ l → fails (body x) → fails (for_collect l body).
Proof.
  intros Hin Hx. induction l as [|y l IH]; [by apply elem_of_nil in Hin|].
  cbn. apply elem_of_cons in Hin as [<-|Hin].
  - by apply fails_bind_l.
  - apply fails_bind_r. intros b. apply fails_bind_l. by apply IH.
Qed.

Lemma fails_lift_mem `{R : autograd.Runtime} {A} (c : M autograd.memory A) :
  fails c → fails (autograd.lift_mem c).
Proof.
  intros H w. unfold autograd.lift_mem. specialize (H (autograd.mem w)).
  by destruct (c (autograd.mem w)) as [[a|e] m].
Qed.

Lemma fails_output_tensor ugc (x : gmap string autograd.attr) name :
  (∀ a, x !! name ≠ Some (autograd.AttrArray a)) →
  fails (autograd.output_tensor ugc x name).
Proof.
  intros H m. unfold autograd.output_tensor, autograd.getattr, bind.
  destruct (x !! name) as [[a|]|] eqn:E; cbn; [|done..]. by destruct (H a).
Qed.

Lemma bind_arguments_short args :
  length args < 9 → bind_arguments args = Raise TypeError.
Proof. intros H. unfold bind_arguments. by destruct (decide _) as [_|[]]. Qed.

(** The call in the branch with gradients passes the two name lists and
    then the tensors: [forward] receives the control names as
    [model_tensors_names] and the first tensor as [control_tensors_names]. *)
Lemma grad_call_binds_shifted up sp st c sb cb ns nc t rest :
  bind_arguments ([up; sp; st; c; sb; cb; VNames ns; VNames nc] ++ t :: rest)
  = Ok ([("update_params", up); ("sim_params", sp); ("states", st); ("control", c);
         ("states_bwd", sb); ("control_bwd", cb); ("state_tensors_names", VNames ns);
         ("model_tensors_names", VNames nc); ("control_tensors_names", t)], rest).
Proof.
  unfold bind_arguments. destruct (decide _) as [H|_]; [cbn in H; lia|]. reflexivity.
Qed.

Section step.
Context `{R : autograd.Runtime}.
Variable Model_state : M autograd.World (gmap string autograd.attr).
Variable Model_control : M autograd.World (gmap string autograd.attr).
Variable tensor_len : nat → option nat.
Variable Environment_update : M Sim unit.

#[local] Abbreviation forward_tensor_names := (forward_tensor_names tensor_len).
#[local] Abbreviation forward_bound := (forward_bound tensor_len).
#[local] Abbreviation UpdateFunction_call := (UpdateFunction_call tensor_len).
#[local] Abbreviation call_update := (call_update Model_state tensor_len).
#[local] Abbreviation do_physics_step :=
  (do_physics_step Model_state Model_control tensor_len Environment_update).
#[local] Abbreviation run_steps := (run_steps Model_state Model_control tensor_len Environment_update).
#[local] Abbreviation misaligned := (misaligned tensor_len).

(** With a tensor for [control_tensors_names], [forward] returns only if
    the tensor has a first dimension of size 0 and every name it was given
    as model name is an array of the model. *)
Lemma forward_tensor_names_fails up sp st ctl stb ctlb ns nm t ts :
  tensor_len t ≠ Some 0
  ∨ (∃ name, name ∈ nm ∧ ∀ a, autograd.model_vars (autograd.model up) !! name
                              ≠ Some (autograd.AttrArray a)) →
  fails (forward_tensor_names up sp st ctl stb ctlb ns nm t ts).
Proof.
  intros H. unfold warp_env.forward_tensor_names.
  destruct st as [[state_in states_mid] state_out].
  destruct stb as [[state_in_bwd states_mid_bwd] state_out_bwd].
  unfold len_tensor. destruct (tensor_len t) as [n|] eqn:Hn; [|by apply fails_bind_l].
  apply fails_bind_ret. apply fails_bind_r. intros [].
  apply fails_bind_r. intros [tp up']. apply fails_bind_r. intros [].
  apply fails_bind_r. intros []. apply fails_lift_mem.
  apply fails_bind_r. intros out_state.
  destruct H as [H|(name & Hin & Hname)].
  - apply fails_bind_r. intros out_model. apply fails_bind_l.
    destruct n as [|n]; [done|]. unfold outputs_tensor_names.
    apply (fails_for_collect _ _ 0); [|done]. cbn. left.
  - apply fails_bind_l. eapply fails_for_collect; [exact Hin|].
    by apply fails_output_tensor.
Qed.

Lemma keeps_refl e : keeps e e.
Proof. split; [by destruct e|done]. Qed.

Lemma keeps_trans e1 e2 e3 : keeps e1 e2 → keeps e2 e3 → keeps e1 e3.
Proof.
  intros [H1 S1] [H2 S2]. split; [|by etrans].
  rewrite H2 at 1. rewrite H1 at 1. done.
Qed.

Lemma keeps_set_heap e h : heap e ⊆ h → keeps e (set_heap h e).
Proof. intros H. split; [by destruct e|done]. Qed.

Lemma keeps_set_calls e c : keeps e (set_calls c e).
Proof. split; [by destruct e|done]. Qed.

#[local] Instance allocates_preorder : PreOrder allocates.
Proof.
  split.
  - intros s. split; [apply keeps_refl|done].
  - intros s1 s2 s3 [K1 C1] [K2 C2]. split; [by eapply keeps_trans|congruence].
Qed.

Lemma respects_on_world {A} (c : M autograd.World A) : respects allocates (on_world c).
Proof.
  intros [e w]. unfold wp, on_world. cbn. destruct (c w) as [r w']. cbn.
  split; [apply keeps_refl|done].
Qed.

Lemma respects_new_object v : respects allocates (on_env (new_object v)).
Proof.
  intros [e w]. unfold wp, on_env, new_object. cbn. split; [|done].
  apply keeps_set_heap, union_subseteq_r.
Qed.

Lemma respects_new_state : respects allocates (new_state Model_state).
Proof.
  apply (respects_bind allocates); [apply respects_on_world|].
  intros v. apply respects_new_object.
Qed.

Lemma respects_new_states n : respects allocates (new_states Model_state n).
Proof.
  induction n as [|n IH]; cbn [new_states]; [by apply (respects_ret allocates)|].
  apply (respects_bind allocates); [apply respects_new_state|]. intros o.
  apply (respects_bind allocates); [exact IH|]. intros os. by apply (respects_ret allocates).
Qed.

Lemma new_state_fresh s o s' :
  new_state Model_state s = (Ok o, s') → oid o ∉ heap s.1.
Proof.
  unfold new_state. intros (v & s1 & H1 & H)%bind_inv_Ok.
  unfold on_world in H1. destruct (Model_state s.2) as [[v'|e] w']; [|done].
  injection H1 as <- <-. unfold on_env, new_object in H. cbn in H.
  injection H as <- _. cbn. apply is_fresh.
Qed.

Lemma misaligned_keeps e e' : keeps e e' → misaligned e → misaligned e'.
Proof. intros [-> _]. by destruct e. Qed.

Lemma passes_state_0_keeps e e' args :
  keeps e' e → passes_state_0 e args → passes_state_0 e' args.
Proof.
  intros [He Hsub] (out & Hs & Hout). exists out. rewrite He in Hs, Hout.
  split; [exact Hs|]. unfold requires_grad in *. cbn in Hout.
  destruct (no_grad e'); [done|]. cbn in *. intros Hin. apply Hout.
  rewrite He in Hsub. cbn in Hsub. by apply Hsub.
Qed.

(** The call of the update function with the arguments of the step. *)
Lemma UpdateFunction_call_fails (self : WarpEnv) up sp st c sb cb tensors :
  match tensors with
  | [] => True
  | t :: _ =>
      ∃ tape model ugc sync p s_in mid s_out ctl,
        up = VUpdateParams tape model ugc sync ∧ sp = VSimParams p
        ∧ st = VStates (Some s_in) mid (Some s_out) ∧ c = VObject ctl
        ∧ (tensor_len t ≠ Some 0
           ∨ ∃ name, name ∈ control_tensors_names self
                     ∧ ∀ a, autograd.model_vars model !! name ≠ Some (autograd.AttrArray a))
  end →
  fails (UpdateFunction_call
           ([up; sp; st; c; sb; cb; VNames (state_tensors_names self);
             VNames (control_tensors_names self)] ++ (VTensor <$> tensors))).
Proof.
  intros H. unfold warp_env.UpdateFunction_call. apply fails_bind_r. intros [].
  destruct tensors as [|t rest]; [done|].
  rewrite fmap_cons, grad_call_binds_shifted.
  destruct H as (tape & model & ugc & sync & p & s_in & mid & s_out & ctl
                 & -> & -> & -> & -> & H).
  intros s. unfold on_world. cbn [snd].
  assert (fails (forward_bound
                   [("update_params", VUpdateParams tape model ugc sync);
                    ("sim_params", VSimParams p);
                    ("states", VStates (Some s_in) mid (Some s_out));
                    ("control", VObject ctl); ("states_bwd", sb); ("control_bwd", cb);
                    ("state_tensors_names", VNames (state_tensors_names self));
                    ("model_tensors_names", VNames (control_tensors_names self));
                    ("control_tensors_names", VTensor t)] (VTensor <$> rest))) as Hf.
  { unfold warp_env.forward_bound. cbn [fmap list_fmap snd].
    apply fails_bind_r. intros [stb ctlb]. by apply forward_tensor_names_fails. }
  specialize (Hf s.2). by destruct (forward_bound _ _ s.2) as [[o|e] w'].
Qed.

Lemma UpdateFunction_call_run args e w :
  ∃ r w', UpdateFunction_call args (e, w) = (r, (set_calls (calls e ++ [args]) e, w'))
          ∧ (length args < 9 → r = Raise TypeError).
Proof.
  unfold warp_env.UpdateFunction_call, bind, on_env, record_call, modify. cbn.
  destruct (decide (length args < 9)) as [Hlen|Hlen].
  - rewrite (bind_arguments_short _ Hlen). cbn. by do 2 eexists.
  - destruct (bind_arguments args) as [[params ts]|ex]; cbn.
    + unfold on_world. cbn. destruct (forward_bound params ts w) as [rc wc].
      do 2 eexists. split; [done|]. intros ?. lia.
    + do 2 eexists. split; [done|]. intros ?. lia.
Qed.

(** Lines 401 to 454: the environment keeps its state objects and tensors,
    at most one call of the update function is made, with [state_0] as
    [state_in]; the lines return only with gradients, after a call that
    passed the returned object as [state_out]; and they raise on a
    misaligned environment. *)
Lemma call_update_spec (self : WarpEnv) (w : autograd.World) r e' w' :
  requires_grad self || use_graph_capture self = true →
  call_update self (self, w) = (r, (e', w')) →
  keeps self e'
  ∧ (calls e' = calls self
     ∨ ∃ args, calls e' = calls self ++ [args] ∧ passes_state_0 self args)
  ∧ (∀ out outputs, r = Ok (out, outputs) →
       requires_grad self = true
       ∧ ∃ args, calls e' = calls self ++ [args]
                 ∧ step_states args = Some (state_0 self, out))
  ∧ (misaligned self → is_Ok r = false).
Proof.
  intros Hflag Hrun. unfold warp_env.call_update in Hrun. unfold passes_state_0.
  unfold requires_grad in *. destruct (no_grad self) eqn:Hg; cbn [negb] in *.
  - (* without gradients: eight arguments *)
    cbn in Hflag. rewrite Hflag in Hrun. unfold bind at 1 in Hrun. cbn [ret] in Hrun.
    apply bind_inv in Hrun as [([[mid sb] cb] & s2 & H2 & Hrun)|(ex & H2 & ->)]; cycle 1.
    { apply bind_inv in H2 as [([] & s2 & Ha & [=])|(ex' & Ha & _)].
      unfold assert in Ha. destruct (negb _); [done|]. unfold raise in Ha. simplify_eq/=.
      split; [apply keeps_refl|]. split; [by left|]. done. }
    apply bind_inv in H2 as [([] & s2' & Ha & [= <- <- <- <-])|(ex' & Ha & [=])].
    unfold assert in Ha. destruct (negb _); [|done]. injection Ha as <-.
    apply bind_inv in Hrun as [(o & s3 & H3 & _)|(ex & H3 & ->)].
    + apply bind_inv in H3 as [(o' & s3' & Hc & _)|(ex & Hc & [=])].
      match type of Hc with
      | warp_env.UpdateFunction_call _ ?args _ = _ =>
          destruct (UpdateFunction_call_run args self w) as (rc & wc & Hc' & Hlen)
      end.
      rewrite Hc' in Hc. rewrite Hlen in Hc; [done|cbn; lia].
    + apply bind_inv in H3 as [(o' & s3' & Hc & [=])|(ex' & Hc & _)].
      match type of Hc with
      | warp_env.UpdateFunction_call _ ?args _ = _ =>
          destruct (UpdateFunction_call_run args self w) as (rc & wc & Hc' & Hlen)
      end.
      rewrite Hc' in Hc. simplify_eq/=.
      split; [apply keeps_set_calls|]. split; [|done]. right. eexists.
      split; [done|]. by eexists.
  - (* with gradients *)
    apply bind_inv in Hrun as [(out & [e1 w1] & Hout & Hrun)|(ex & Hout & ->)]; cycle 1.
    { pose proof (respects_new_state (self, w)) as Hnew. unfold wp in Hnew.
      rewrite Hout in Hnew. destruct Hnew as [K C]. split; [done|]. split; [by left|].
      done. }
    pose proof (respects_new_state (self, w)) as Hnew. unfold wp in Hnew.
    rewrite Hout in Hnew. destruct Hnew as [K1 C1]. cbn in K1, C1.
    apply new_state_fresh in Hout. cbn in Hout.
    assert (∀ r2 e2 w2,
              (if use_graph_capture self
               then
                 let states_mid := states_mid self in
                 run! assert (negb (autograd.is_None (tape self))) in
                 ret (states_mid,
                      VStates (Some (state_0_bwd self)) (Some (states_mid_bwd self))
                        (Some (state_1_bwd self)),
                      VObject (control_0_bwd self))
               else
                 let! states_mid := new_states Model_state (sim_substeps self - 1) in
                 ret (Some states_mid, VStates None None None, VNone)) (e1, w1)
              = (r2, (e2, w2))
              → keeps e1 e2 ∧ calls e2 = calls e1) as Hmid.
    { intros r2 e2 w2. destruct (use_graph_capture self).
      - destruct (tape self); cbn; intros [= _ <- _]; (split; [apply keeps_refl|done]).
      - pose proof (respects_new_states (sim_substeps self - 1) (e1, w1)) as Hn.
        unfold wp in Hn. unfold bind.
        destruct (new_states Model_state _ (e1, w1)) as [[mids|ex] [e2' w2']];
          intros [= _ <- _]; exact Hn. }
    apply bind_inv in Hrun as [([[mid sb] cb] & [e2 w2] & H2 & Hrun)|(ex & H2 & ->)];
      cycle 1.
    { destruct (Hmid _ _ _ H2) as [K2 C2]. split; [by eapply keeps_trans|].
      split; [left; congruence|]. done. }
    destruct (Hmid _ _ _ H2) as [K2 C2]. clear Hmid H2.
    pose proof (keeps_trans _ _ _ K1 K2) as K.
    destruct (state_tensors self) as [st|] eqn:Hst; cycle 1.
    { cbn in Hrun. injection Hrun as <- <- <-. split; [done|].
      split; [left; congruence|]. done. }
    destruct (control_tensors self) as [ct|] eqn:Hct; cycle 1.
    { cbn in Hrun. injection Hrun as <- <- <-. split; [done|].
      split; [left; congruence|]. done. }
    cbn [from_option] in Hrun.
    assert (∀ rc sc,
              (let! state_tensors := ret st in
               let! control_tensors := ret ct in
               UpdateFunction_call
                 ([VUpdateParams (tape self) (model self) (use_graph_capture self)
                     (synchronize self);
                   VSimParams {| autograd.sim_substeps := sim_substeps self;
                                 autograd.sim_dt := sim_dt self;
                                 autograd.kinematic_fk := kinematic_fk self;
                                 autograd.eval_ik := eval_ik self |};
                   VStates (Some (state_0 self)) mid (Some out);
                   VObject (control_0 self); sb; cb;
                   VNames (state_tensors_names self);
                   VNames (control_tensors_names self)]
                  ++ (VTensor <$> state_tensors ++ control_tensors))) (e2, w2)
              = (rc, sc) →
              (∃ args, calls sc.1 = calls self ++ [args]
                       ∧ step_states args = Some (state_0 self, out))
              ∧ keeps self sc.1
              ∧ (misaligned self → is_Ok rc = false)) as Hcall.
    { intros rc sc H3. unfold bind at 1 in H3. cbn [ret] in H3. unfold bind at 1 in H3.
      cbn [ret] in H3.
      match type of H3 with
      | warp_env.UpdateFunction_call _ ?args ?s = _ =>
          destruct (UpdateFunction_call_run args e2 w2) as (rc' & wc & Hc & _);
          assert (misaligned self → fails (UpdateFunction_call args)) as Hfa
      end.
      { intros [Hmis|Hmis]; [congruence|]. rewrite Hst, Hct in Hmis.
        apply UpdateFunction_call_fails. destruct (st ++ ct) as [|t rest]; [done|].
        by exists (tape self), (model self), (use_graph_capture self), (synchronize self),
             {| autograd.sim_substeps := sim_substeps self;
                autograd.sim_dt := sim_dt self;
                autograd.kinematic_fk := kinematic_fk self;
                autograd.eval_ik := eval_ik self |},
             (state_0 self), mid, out, (control_0 self). }
      split; [|split].
      - rewrite Hc in H3. simplify_eq/=. eexists. split; [by rewrite C2, C1|done].
      - rewrite Hc in H3. simplify_eq/=.
        eapply keeps_trans; [exact K|apply keeps_set_calls].
      - intros Hmis. specialize (Hfa Hmis (e2, w2)). by rewrite H3 in Hfa. }
    apply bind_inv in Hrun as [(o & s3 & H3 & Hrun)|(ex & H3 & ->)].
    + destruct (Hcall _ _ H3) as ((args & Hargs & Hst') & K3 & Hmis).
      unfold ret in Hrun. simplify_eq/=.
      split; [done|]. split; [|split].
      * right. exists args. split; [done|]. by exists out.
      * intros out' outputs [= <- <-]. split; [done|]. by exists args.
      * intros H. by specialize (Hmis H).
    + destruct (Hcall _ _ H3) as ((args & Hargs & Hst') & K3 & Hmis). cbn in *.
      split; [done|]. split; [|done].
      right. exists args. split; [done|]. by exists out.
Qed.

Lemma do_physics_step_raises (s : Sim) r s' :
  requires_grad s.1 || use_graph_capture s.1 = true →
  misaligned s.1 →
  do_physics_step s = (r, s') →
  is_Ok r = false
  ∧ keeps s.1 s'.1
  ∧ (calls s'.1 = calls s.1
     ∨ ∃ args, calls s'.1 = calls s.1 ++ [args] ∧ passes_state_0 s.1 args).
Proof.
  intros Hflag Hmis. destruct s as [self w], s' as [e' w'].
  unfold warp_env.do_physics_step. unfold bind at 1. cbn [on_env get fst snd].
  cbn [fst] in Hflag, Hmis. rewrite Hflag.
  intros [([out outputs] & [e1 w1] & H1 & _)|(ex & H1 & ->)]%bind_inv.
  - destruct (call_update_spec _ _ _ _ _ Hflag H1) as (_ & _ & _ & H). by specialize (H Hmis).
  - by destruct (call_update_spec _ _ _ _ _ Hflag H1) as (? & ? & _).
Qed.

Lemma keeps_flags e e' :
  keeps e e' →
  requires_grad e' = requires_grad e ∧ use_graph_capture e' = use_graph_capture e
  ∧ state_0 e' = state_0 e ∧ state_1 e' = state_1 e.
Proof. intros [-> _]. by destruct e. Qed.

#[local] Instance same_states_preorder : PreOrder same_states.
Proof.
  split; [done|]. intros s1 s2 s3 (A1 & B1 & C1) (A2 & B2 & C2).
  repeat split; congruence.
Qed.

Lemma respects_same_states_alloc {A} (c : M Sim A) :
  respects allocates c → respects same_states c.
Proof.
  intros H s. specialize (H s). unfold wp in *. destruct H as [K C].
  destruct (keeps_flags _ _ K) as (_ & _ & S0 & S1). done.
Qed.

Lemma respects_new_control : respects allocates (new_control Model_control).
Proof.
  apply (respects_bind allocates); [apply respects_on_world|].
  intros v. apply respects_new_object.
Qed.

Lemma for_collect_pure {S A B} (l : list A) (body : A → M S B) s :
  (∀ x s, (body x s).2 = s) → (for_collect l body s).2 = s.
Proof.
  intros H. revert s. induction l as [|x l IH]; intros s; cbn; [done|].
  unfold bind at 1. specialize (H x s). destruct (body x s) as [[b|e] s1]; cbn in *.
  - subst s1. unfold bind. specialize (IH s). by destruct (for_collect l body s) as [[bs|e] s2].
  - done.
Qed.

Lemma view_pure {S} (x : gmap string autograd.attr) (k : string) (s : S) :
  (view x k s).2 = s.
Proof.
  unfold view, autograd.getattr, autograd.as_array, bind.
  by destruct (x !! k) as [[a|]|].
Qed.

(** A step that returns has handed the state objects over: the call it made
    lined up, [state_0] is now the object it passed as [state_out] and
    [state_1] the object it passed as [state_in]. *)
Lemma completed_step_hands_over (s s' : Sim) :
  requires_grad s.1 || use_graph_capture s.1 = true →
  do_physics_step s = (Ok tt, s') →
  ¬ misaligned s.1
  ∧ ∃ args out,
      calls s'.1 = calls s.1 ++ [args]
      ∧ step_states args = Some (state_0 s.1, out)
      ∧ state_0 s'.1 = out ∧ state_1 s'.1 = state_0 s.1.
Proof.
  intros Hflag Hrun. split.
  { intros Hmis. by destruct (do_physics_step_raises _ _ _ Hflag Hmis Hrun) as [? _]. }
  destruct s as [self w]. cbn [fst] in *.
  unfold warp_env.do_physics_step in Hrun. unfold bind at 1 in Hrun.
  cbn [on_env get fst snd] in Hrun. rewrite Hflag in Hrun.
  apply bind_inv_Ok in Hrun as ([out outputs] & [e1 w1] & H1 & Hrun).
  destruct (call_update_spec _ _ _ _ _ Hflag H1) as (K & _ & Hok & _).
  destruct (Hok _ _ eq_refl) as (_ & args & Hcalls & Hstates).
  destruct (keeps_flags _ _ K) as (_ & _ & S0 & S1).
  exists args, out. unfold hand_over in Hrun.
  apply bind_inv_Ok in Hrun as ([] & s2 & H2 & Hrun).
  unfold on_env, modify in H2. cbn in H2. injection H2 as <-.
  assert (respects same_states
            (let! control_0 := new_control Model_control in
             run! on_env (modify (set_control_0 control_0)) in
             let! control_tensors :=
               for_collect (control_tensors_names self) (view (vars control_0)) in
             on_env (modify (set_control_tensors control_tensors)))) as Hrest.
  { apply (respects_bind same_states).
    { apply respects_same_states_alloc, respects_new_control. }
    intros c0. apply (respects_bind same_states); [by intros [e ww]|]. intros _.
    apply (respects_bind same_states).
    { intros ss. unfold wp. rewrite for_collect_pure; [done|]. intros. apply view_pure. }
    intros cts. by intros [e ww]. }
  specialize (Hrest (set_states (slice 0 (length (state_tensors_names self)) outputs)
                       (state_0 self) out e1, w1)).
  unfold wp in Hrest. rewrite Hrun in Hrest. destruct Hrest as (A & B & C).
  cbn in A, B, C. by rewrite C, A, B.
Qed.

(** The call does not pass [model_tensors_names], so that an environment
    without gradients cannot make it at all. *)
Lemma do_physics_step_without_grad_raises (s : Sim) t :
  no_grad s.1 = true → use_graph_capture s.1 = true → tape s.1 = Some t →
  ∃ s', do_physics_step s = (Raise TypeError, s').
Proof.
  intros Hg Hc Ht. destruct s as [self w]. cbn [fst] in *.
  unfold warp_env.do_physics_step, bind at 1. cbn [on_env get fst snd].
  unfold requires_grad. rewrite Hg, Hc. cbn [negb orb].
  unfold bind at 1. unfold warp_env.call_update, requires_grad. rewrite Hg, Hc, Ht.
  cbn. by eexists.
Qed.

(** C5.  Let the call of [do_physics_step] not line up with the parameters
    of [forward], in the branch of the update function.  Then, however
    many times the step is called on the environment, the next call of the
    step raises; [state_0] and [state_1] are still the objects they were at
    the start; and every call of the update function made so far, at most
    one for each step, passed the same object, the first [state_0], as
    [state_in], and as [state_out] an object whose identity none of the
    objects of the start has (with gradients) or [state_1] (without).  So,
    with gradients and a [state_0] that is one of the objects of the start,
    the [state_out] of a step is never the [state_in] of the one after
    it. *)
Theorem step_raises_before_handoff (s : Sim) (n : nat) :
  requires_grad s.1 || use_graph_capture s.1 = true →
  misaligned s.1 →
  let s_n := run_steps n s in
  is_Ok (do_physics_step s_n).1 = false
  ∧ (state_0 s_n.1, state_1 s_n.1) = (state_0 s.1, state_1 s.1)
  ∧ ∃ made, calls s_n.1 = calls s.1 ++ made
            ∧ length made ≤ n
            ∧ Forall (passes_state_0 s.1) made.
Proof.
  revert s. induction n as [|n IH]; intros s Hflag Hmis; cbn [warp_env.run_steps].
  - split; [|split; [done|]].
    + destruct (do_physics_step s) as [r s'] eqn:Hrun.
      by destruct (do_physics_step_raises _ _ _ Hflag Hmis Hrun) as [? _].
    + exists []. by rewrite app_nil_r.
  - destruct (do_physics_step s) as [r s1] eqn:Hrun. cbn [snd].
    destruct (do_physics_step_raises _ _ _ Hflag Hmis Hrun) as (_ & K & Hcalls).
    destruct (keeps_flags _ _ K) as (G & C & S0 & S1).
    destruct (IH s1) as (Hfail & Hst & made & Hmade & Hlen & Hall).
    { by rewrite G, C. }
    { by eapply misaligned_keeps. }
    split; [exact Hfail|]. split; [by rewrite Hst, S0, S1|].
    assert (Forall (passes_state_0 s.1) made) as Hall'.
    { eapply Forall_impl; [exact Hall|]. intros args.
      by apply passes_state_0_keeps. }
    destruct Hcalls as [Hc|(args & Hc & Hargs)].
    + exists made. rewrite Hmade, Hc. split; [done|]. split; [lia|done].
    + exists (args :: made). rewrite Hmade, Hc, <- app_assoc. split; [done|].
      split; [cbn; lia|]. by constructor.
Qed.

End step.
End warp_env_facts.

(** ** autograd.py on the copy physics *)

Module autograd_examples.
Import py_facts autograd autograd_facts copy_physics.

(** C1, witness: the first forward call, a second one, a backward call and
    a run of four calls on the copy physics. *)
Lemma capture_happens_once_witness :
  let R := runtime None None in
  let w1 := (forward_0 true world_0).2 in
  integrator w1 = {| update_graph := Some [Copy q_in_bwd q_out_bwd];
                     bwd_update_graph := Some [CopyAdjoint q_in_bwd q_out_bwd] |}
  ∧ trace (forward_0 true w1).2
    = trace w1 ++ [EvCaptureLaunch [Copy q_in_bwd q_out_bwd]]
  ∧ trace (backward (ctx_0 true) [8] w1).2
    = trace w1 ++ [EvCaptureLaunch [Copy q_in_bwd q_out_bwd];
                   EvCaptureLaunch [CopyAdjoint q_in_bwd q_out_bwd]]
  ∧ count_captures (trace (run_calls [forward_call true; backward_call true;
                                      forward_call true; backward_call true] world_0))
    ≤ 2.
Proof.
  intros R w1.
  destruct (capture_happens_once (R := R)) as (HA & HB & HC & HD).
  assert (integrator w1
          = {| update_graph := Some [Copy q_in_bwd q_out_bwd];
               bwd_update_graph := Some [CopyAdjoint q_in_bwd q_out_bwd] |}) as Hi.
  { assert (is_Ok (forward_0 true world_0).1 = true) as Hok by (vm_compute; reflexivity).
    subst w1. destruct (forward_0 true world_0) as [[x|e] w1] eqn:Hx; [|discriminate Hok].
    pose proof (HA (update_params_0 true) sim_params_0 (state_0, [], state_1) control_0
                (state_0_bwd, [], state_1_bwd) control_0 ["q"] [] [] [0] world_0 0 x w1
                eq_refl eq_refl eq_refl Hx) as [Hi _].
    cbn [snd]. rewrite Hi. vm_compute. reflexivity. }
  split; [exact Hi|]. split; [|split].
  - assert (is_Ok (forward_0 true w1).1 = true) as Hok by (vm_compute; reflexivity).
    destruct (forward_0 true w1) as [[x|e] w2] eqn:Hx; [|discriminate Hok].
    cbn [snd]. by destruct (HB (update_params_0 true) sim_params_0 (state_0, [], state_1) control_0
                   (state_0_bwd, [], state_1_bwd) control_0 ["q"] [] [] [0] w1
                   [Copy q_in_bwd q_out_bwd] x w2 eq_refl
                   (f_equal update_graph Hi) Hx) as [_ ->].
  - assert (is_Ok (backward (ctx_0 true) [8] w1).1 = true) as Hok
      by (vm_compute; reflexivity).
    destruct (backward (ctx_0 true) [8] w1) as [[x|e] w2] eqn:Hx; [|discriminate Hok].
    cbn [snd]. by destruct (HC (ctx_0 true) [8] w1 [Copy q_in_bwd q_out_bwd]
                   [CopyAdjoint q_in_bwd q_out_bwd] x w2 eq_refl
                   (f_equal update_graph Hi) (f_equal bwd_update_graph Hi) Hx)
      as [_ ->].
  - apply (HD _ world_0 eq_refl).
Defined.

(** C1, counterexample: after the first forward call, the backward call
    returns and has launched the stored forward graph before the stored
    backward graph, not the backward graph alone. *)
Lemma backward_replays_forward_graph_first :
  let R := runtime None None in
  let w1 := (forward_0 true world_0).2 in
  let r := backward (ctx_0 true) [8] w1 in
  is_Ok r.1 = true
  ∧ bwd_update_graph (integrator w1) = Some [CopyAdjoint q_in_bwd q_out_bwd]
  ∧ trace r.2 = trace w1 ++ [EvCaptureLaunch [Copy q_in_bwd q_out_bwd];
                             EvCaptureLaunch [CopyAdjoint q_in_bwd q_out_bwd]]
  ∧ trace r.2 ≠ trace w1 ++ [EvCaptureLaunch [CopyAdjoint q_in_bwd q_out_bwd]].
Proof.
  intros R w1 r.
  assert (trace r.2 = trace w1 ++ [EvCaptureLaunch [Copy q_in_bwd q_out_bwd];
                                   EvCaptureLaunch [CopyAdjoint q_in_bwd q_out_bwd]])
    as Ht by (vm_compute; reflexivity).
  split; [vm_compute; reflexivity|]. split; [vm_compute; reflexivity|].
  split; [exact Ht|]. rewrite Ht. intros H%app_inv_head. discriminate H.
Qed.

(** C3, witness: the physics update raises during the first capture. *)
Lemma capture_failure_stores_graph_witness :
  let R := runtime (Some RuntimeError) None in
  ∃ w', forward_0 true world_0 = (Raise RuntimeError, w')
        ∧ integrator w' = {| update_graph := Some [Copy q_in_bwd q_out_bwd];
                             bwd_update_graph := None |}
        ∧ trace w' = [EvCaptureBegin; EvSimUpdate shadow_call; EvCaptureEnd].
Proof.
  intros R.
  destruct (capture_failure_stores_graph (R := R)
              (update_params_0 true) sim_params_0 (state_0, [], state_1) control_0
              (state_0_bwd, [], state_1_bwd) control_0 ["q"] [] [] [0] world_0 0
              RuntimeError eq_refl eq_refl eq_refl) as [H _].
  destruct H as (w' & Hrun & Hi & Ht); [vm_compute; reflexivity|].
  exists w'. split; [exact Hrun|]. split.
  - rewrite Hi. vm_compute. reflexivity.
  - rewrite Ht. reflexivity.
Defined.

(** C3, counterexample: the physics update raises during the first capture
    and [forward] raises; the integrator nevertheless holds a forward graph,
    and the next forward call returns having replayed it without capturing. *)
Lemma failed_capture_is_replayed :
  let R := runtime (Some RuntimeError) None in
  let r1 := forward_0 true world_0 in
  let r2 := forward_0 true r1.2 in
  is_Ok r1.1 = false
  ∧ update_graph (integrator r1.2) = Some [Copy q_in_bwd q_out_bwd]
  ∧ is_Ok r2.1 = true
  ∧ trace r2.2 = trace r1.2 ++ [EvCaptureLaunch [Copy q_in_bwd q_out_bwd]].
Proof. intros R r1 r2. repeat split; vm_compute; reflexivity. Qed.

(** Closed goals are settled by evaluation. *)
Ltac by_compute := vm_compute; reflexivity.
Ltac decide_by_compute := apply (bool_decide_unpack _); vm_compute; exact I.

(** C2, witness: an eager call declaring the state array [q] and the
    control array [act], which the copy physics never reads. *)
Lemma missing_gradient_is_named_witness :
  let R := runtime None None in
  let w := (forward_act world_act).2 in
  let w1 := (backward_reverse ctx_act [8; 8] w).2 in
  ∃ w2, backward ctx_act [8; 8] w = (Raise KeyError, w2)
        ∧ stdout w2 = stdout w1 ++ ["Missing gradient for act"].
Proof.
  intros R w w1.
  destruct (missing_gradient_is_named (R := R) default_policy ctx_act [8; 8] w w1) as [H _].
  { apply run_eta. by_compute. }
  apply (H [(state_0, "q")] (control_act, "act") []).
  - change (map_Forall (λ _ g, is_Some (mem w1 !! g)) (ctx_gradients ctx_act w1)).
    decide_by_compute.
  - by_compute.
  - constructor; [by_compute|constructor].
  - by_compute.
Defined.

(** C8, witness: the same call, which raises [KeyError]. *)
Lemma missing_gradient_keeps_tape_witness :
  let R := runtime None None in
  let w := (forward_act world_act).2 in
  let w1 := (backward_reverse ctx_act [8; 8] w).2 in
  let w2 := (backward ctx_act [8; 8] w).2 in
  tapes w2 = tapes w1 ∧ mem w1 ⊆ mem w2.
Proof.
  intros R w w1 w2.
  destruct (missing_gradient_keeps_tape (R := R) default_policy ctx_act [8; 8] w w1) as [H _].
  { apply run_eta. by_compute. }
  apply H. apply run_eta. by_compute.
Defined.

(** C7, witness: the eager call on [q]; the adjoint of the output is the
    tensor of ones. *)
Lemma default_backward_returns_clones_witness :
  let R := runtime None None in
  let w := (forward_0 false world_0).2 in
  let w1 := (backward_reverse (ctx_0 false) [8] w).2 in
  ∃ named mesh w2,
    backward (ctx_0 false) [8] w = (Ok (replicate 9 None ++ (Some <$> named ++ mesh)), w2)
    ∧ Forall2 (λ p t, ∃ g v, declared_gradient (ctx_gradients (ctx_0 false) w1) p.1 p.2 = Ok g
                             ∧ mem w1 !! g = Some v
                             ∧ mem w1 !! t = None ∧ mem w2 !! t = Some v)
        (declared_inputs (ctx_0 false)) named
    ∧ Forall2 (λ p t, ∃ g v, grad p = Some g
                             ∧ mem w1 !! g = Some v
                             ∧ mem w1 !! t = None ∧ mem w2 !! t = Some v)
        (meshes (shape_geo_src (model (ctx_update_params (ctx_0 false))))) mesh.
Proof.
  intros R w w1.
  destruct (default_backward_returns_clones (R := R) (ctx_0 false) [8] w w1) as [_ H].
  - apply run_eta. by_compute.
  - split.
    + change (map_Forall (λ _ g, is_Some (mem w1 !! g)) (ctx_gradients (ctx_0 false) w1)).
      decide_by_compute.
    + intros p g Hp. by apply elem_of_nil in Hp.
  - decide_by_compute.
  - constructor.
  - exact H.
Defined.

(** C9, witness: the eager call on [q] and its backward call; the adjoint
    of the output is the tensor of ones. *)
Lemma outputs_follow_declared_order_witness :
  let R := runtime None None in
  let w := (forward_0 false world_0).2 in
  let w1 := (backward_reverse (ctx_0 false) [8] w).2 in
  let r := backward (ctx_0 false) [8] w in
  (∃ out_state out_model out_control out_mesh,
     (forward_0 false world_0).1 = Ok (ctx_0 false, out_state ++ out_model ++ out_control ++ out_mesh)
     ∧ Forall2 (is_output false state_1 (mem w)) ["q"] out_state)
  ∧ ∃ adj_state adj_model adj_control adj_mesh,
      r.1 = Ok (replicate 9 None
                ++ (Some <$> adj_state ++ adj_model ++ adj_control ++ adj_mesh))
      ∧ Forall2 (returned_adjoint (ctx_gradients (ctx_0 false) w1) (mem w1) (mem r.2) state_0)
          ["q"] adj_state.
Proof.
  intros R w w1 r.
  destruct (outputs_follow_declared_order (R := R)) as [HF HB]. split.
  - assert ((forward_0 false world_0).1 = Ok (ctx_0 false, [2])) as Hres by by_compute.
    pose proof (run_eta _ _ _ Hres) as Hrun. fold w in Hrun.
    destruct (HF _ _ _ _ _ _ _ _ _ _ _ _ _ _ Hrun)
      as (_ & _ & _ & o1 & o2 & o3 & o4 & Ho & H1 & _).
    exists o1, o2, o3, o4. rewrite Hres, Ho. split; [done|exact H1].
  - assert (is_Ok r.1 = true) as Hok by by_compute.
    subst r. destruct (backward (ctx_0 false) [8] w) as [[res|e] w2] eqn:Hrun;
      [|discriminate Hok].
    destruct (HB (ctx_0 false) [8] w w1 res w2) as (a1 & a2 & a3 & a4 & -> & H1 & _).
    + apply run_eta. by_compute.
    + split.
      * change (map_Forall (λ _ g, is_Some (mem w1 !! g)) (ctx_gradients (ctx_0 false) w1)).
        decide_by_compute.
      * intros p g Hp. by apply elem_of_nil in Hp.
    + exact Hrun.
    + exists a1, a2, a3, a4. split; [done|exact H1].
Defined.

(** C9, counterexample: an eager call with one declared state array and
    one more tensor, on a model without mesh.  [forward] returns two
    tensors, the second a clone of the extra tensor; [backward] returns
    nine [None] and one adjoint only. *)
Lemma backward_returns_no_adjoint_for_cloned_tensor :
  let R := runtime None None in
  let r := forward (update_params_0 false) sim_params_0 (state_0, [], state_1) control_0
             (state_0_bwd, [], state_1_bwd) control_0 ["q"] [] [] [0; 8] world_0 in
  ∃ ctx out_q out_extra,
    r.1 = Ok (ctx, [out_q; out_extra])
    ∧ ctx_mesh_tensors ctx = [8]
    ∧ is_clone (mem r.2) 8 out_extra
    ∧ meshes (shape_geo_src (model (ctx_update_params ctx))) = []
    ∧ ∃ t, (backward ctx [8; 8] r.2).1 = Ok (replicate 9 None ++ [Some t]).
Proof.
  intros R r.
  exists {| ctx_update_params := update_params_0 false;
            ctx_sim_params := sim_params_0;
            ctx_states := (state_0, [], state_1); ctx_control := control_0;
            ctx_states_bwd := (state_0_bwd, [], state_1_bwd); ctx_control_bwd := control_0;
            ctx_state_tensors_names := ["q"]; ctx_model_tensors_names := [];
            ctx_control_tensors_names := [];
            ctx_state_tensors := [0]; ctx_model_tensors := [];
            ctx_control_tensors := []; ctx_mesh_tensors := [8] |}, 2, 9.
  split; [by_compute|]. split; [done|]. split.
  - split; [done|]. split; [|by_compute]. apply (bool_decide_unpack _). by_compute.
  - split; [done|]. exists 10. by_compute.
Qed.




End autograd_examples.

(** ** warp_env.py on a concrete environment *)

Module warp_env_examples.
Import py_facts warp_env warp_env_facts step_example autograd_examples.

(** C5, witness: two steps on [env_0], and the third. *)
Lemma step_raises_before_handoff_witness :
  let R := copy_physics.runtime None None in
  let s := (env_0, copy_physics.world_act) in
  let s_2 := run_steps Model_state Model_control tensor_len (ret tt) 2 s in
  is_Ok (step_0 s_2).1 = false
  ∧ (state_0 s_2.1, state_1 s_2.1) = (state_0 env_0, state_1 env_0)
  ∧ ∃ made, calls s_2.1 = calls env_0 ++ made
            ∧ length made ≤ 2
            ∧ Forall (passes_state_0 env_0) made.
Proof.
  intros R s s_2.
  apply (step_raises_before_handoff (R := R) Model_state Model_control tensor_len
           (ret tt) s 2).
  - reflexivity.
  - right. cbn. left. discriminate.
Defined.

(** The failing run: the first step on [env_0] runs the physics update,
    which writes [state_0.q] into the array [q] of a new state object, and
    then raises [AttributeError] where [forward] looks up the control name
    [act] on the model; [state_0] is not replaced, and the second step
    passes the same [state_in] again and another new [state_out]. *)
Lemma step_raises_after_physics :
  let R := copy_physics.runtime None None in
  let r1 := step_0 (env_0, copy_physics.world_act) in
  let r2 := step_0 r1.2 in
  r1.1 = Raise AttributeError
  ∧ r2.1 = Raise AttributeError
  ∧ state_0 r2.2.1 = state_0 env_0
  ∧ ∃ mid1 out1 mid2 out2 rest1 rest2 c,
      calls r2.2.1 = [rest1; rest2]
      ∧ rest1 !! 2 = Some (VStates (Some (state_0 env_0)) mid1 (Some out1))
      ∧ rest2 !! 2 = Some (VStates (Some (state_0 env_0)) mid2 (Some out2))
      ∧ oid out1 = 6 ∧ oid out2 = 7
      ∧ state_0 env_0 ≠ out1
      ∧ autograd.trace r1.2.2 = [autograd.EvSimUpdate c]
      ∧ autograd.call_states c = (vars (state_0 env_0), [], vars out1)
      ∧ vars out1 !! "q" = Some (copy_physics.array 11 12)
      ∧ autograd.mem r1.2.2 !! 11 = Some [1.5; 2.5]%float.
Proof.
  intros R r1 r2.
  split; [by_compute|]. split; [by_compute|]. split; [by_compute|].
  do 7 eexists.
  split; [by_compute|]. split; [reflexivity|]. split; [reflexivity|].
  split; [reflexivity|]. split; [reflexivity|]. split; [discriminate|].
  split; [by_compute|]. split; [reflexivity|]. split; [by_compute|]. by_compute.
Qed.

(** On a model that has an array [act], [forward] gets as far as the loop
    over [control_tensors_names], which is a tensor of two rows: the step
    raises [TypeError]. *)
Lemma step_raises_on_tensor_names :
  let R := copy_physics.runtime None None in
  let r1 := do_physics_step Model_state Model_control tensor_len (ret tt)
              (env_act, copy_physics.world_act) in
  r1.1 = Raise TypeError ∧ state_0 r1.2.1 = state_0 env_act.
Proof. intros R r1. split; by_compute. Qed.

(** The hand-off of lines 456 to 462 is reached where the call happens to
    line up: the first tensor has a first dimension of size 0 and the
    control name is an array of the model.  The step then returns, and
    [state_0] is the [state_out] of the call, [state_1] the former
    [state_0]. *)
Lemma aligned_step_hands_over :
  let R := copy_physics.runtime None None in
  let r1 := do_physics_step Model_state Model_control (λ _, Some 0) (ret tt)
              (env_act, copy_physics.world_act) in
  r1.1 = Ok tt
  ∧ state_1 r1.2.1 = state_0 env_act
  ∧ ∃ args, calls r1.2.1 = [args]
            ∧ step_states args = Some (state_0 env_act, state_0 r1.2.1).
Proof.
  intros R r1. split; [by_compute|]. split; [by_compute|].
  eexists. split; by_compute.
Qed.

End warp_env_examples.
